(** * Text measurement and drawing pipeline of [internal/painter/font.go]

    A shallow embedding of the font pipeline: face-set resolution
    ([CachedFontFace]), tab segmentation ([processString], [tabStop]),
    run shaping and layout ([processSubString], [processFontRun]), the
    26.6 fixed-point conversions and the metrics-cached entry point
    ([RenderedTextSize]).

    Go's [float32] and [float64] are IEEE-754 binary32 and binary64; they
    are modelled by the standard library's executable specification
    [SpecFloat] at precisions 24 and 53.  Every arithmetic operation and
    every conversion rounds on its own, to nearest with ties to even (no
    fused multiply-add).  The shaping engine, the renderer, the font
    parser and the theme are libraries outside this package: they are
    parameters of the model. *)

From Stdlib Require Import ZArith QArith Qabs Qround Lia Bool List Ascii String.
From Stdlib Require Import Floats.SpecFloat.
From stdpp Require Import base decidable countable strings gmap.

Set Default Proof Using "Type".
Local Open Scope Z_scope.

(** ** Machine integers *)

(** Two's-complement wrap-around to a signed [w]-bit integer. *)
Definition wrap (w : Z) (z : Z) : Z :=
  (z + 2 ^ (w - 1)) mod 2 ^ w - 2 ^ (w - 1).

(** ** IEEE-754 floats *)

Module F32.
Definition prec : Z := 24.
Definition emax : Z := 128.
Definition add := SFadd prec emax.
Definition mul := SFmul prec emax.
Definition div := SFdiv prec emax.
Definition valid (x : spec_float) : bool := valid_binary prec emax x.
Definition zero : spec_float := S754_zero false.
(** [a > b], [a >= b], [a != b] as Go evaluates them (false on NaN,
    except [!=], which is true). *)
Definition gt (a b : spec_float) : bool := SFltb b a.
Definition ge (a b : spec_float) : bool := SFleb b a.
Definition ne (a b : spec_float) : bool := negb (SFeqb a b).
End F32.

Module F64.
Definition prec : Z := 53.
Definition emax : Z := 1024.
Definition mul := SFmul prec emax.
Definition div := SFdiv prec emax.
End F64.

(** Rounding a float of any format to a target format (round to nearest,
    ties to even); infinities, NaN and signed zeros carry over. *)
Definition round_to (prec emax : Z) (x : spec_float) : spec_float :=
  match x with
  | S754_finite s m e => binary_round prec emax s m e
  | _ => x
  end.

(** [float64(f)] for [f : float32] and [float32(d)] for [d : float64]. *)
Definition float64_of_float32 : spec_float -> spec_float := round_to F64.prec F64.emax.
Definition float32_of_float64 : spec_float -> spec_float := round_to F32.prec F32.emax.

(** [float64(i)] and [float32(i)] for an integer [i]. *)
Definition float64_of_int (i : Z) : spec_float := binary_normalize F64.prec F64.emax i 0 false.
Definition float32_of_int (i : Z) : spec_float := binary_normalize F32.prec F32.emax i 0 false.

(** The integer part of a float, rounded toward zero; [None] when the
    float has none (infinities and NaN). *)
Definition trunc_float (x : spec_float) : option Z :=
  match x with
  | S754_zero _ => Some 0
  | S754_finite s m e =>
      Some (cond_Zopp s (if 0 <=? e then Z.pos m * 2 ^ e else Z.pos m / 2 ^ (- e)))
  | _ => None
  end.

(** Conversion of a float to a signed [w]-bit integer: the fraction is
    discarded.  Go leaves the result implementation-dependent when the
    value does not fit; the most negative integer is what amd64 yields. *)
Definition int_of_float (w : Z) (x : spec_float) : Z :=
  match trunc_float x with
  | Some z => if (- 2 ^ (w - 1) <=? z) && (z <? 2 ^ (w - 1)) then z else - 2 ^ (w - 1)
  | None => - 2 ^ (w - 1)
  end.

(** The integral part returned by [math.Modf]: the argument with its
    fraction cleared, sign kept; infinities and NaN are returned as they
    are. *)
Definition Modf_int (f : spec_float) : spec_float :=
  match f with
  | S754_finite s m e =>
      if 0 <=? e then f
      else binary_normalize F64.prec F64.emax (cond_Zopp s (Z.pos m / 2 ^ (- e))) 0 s
  | _ => f
  end.

(** The rational number a float denotes (0 for infinities and NaN, which
    denote none). *)
Definition SF2Q (x : spec_float) : Q :=
  match x with
  | S754_finite s m e =>
      if 0 <=? e then inject_Z (cond_Zopp s (Z.pos m * 2 ^ e))
      else Qmake (cond_Zopp s (Z.pos m)) (Z.to_pos (2 ^ (- e)))
  | _ => 0%Q
  end.

Definition is_finite (x : spec_float) : bool :=
  match x with
  | S754_zero _ | S754_finite _ _ _ => true
  | _ => false
  end.

(** ** 26.6 fixed point *)

(** [fixed.Int26_6] is an [int32] counting 64ths. *)
Definition sixty_four : spec_float := float64_of_int (2 ^ 6).

Definition fixed266ToFloat32 (i : Z) : spec_float :=
  float32_of_float64 (F64.div (float64_of_int i) sixty_four).

Definition float32ToFixed266 (f : spec_float) : Z :=
  int_of_float 32 (F64.mul (float64_of_float32 f) sixty_four).

(** [fixed.I(i)]: the integer [i] as a 26.6 number. *)
Definition fixed_I (i : Z) : Z := wrap 32 (wrap 64 (i * 2 ^ 6)).

(** ** Tab stops *)

Definition DefaultTabWidth : Z := 4.
Definition fontTabSpaceSize : spec_float := float32_of_int 10.

Definition tabStop (spacew x : spec_float) (tabWidth : Z) : spec_float :=
  let tabWidth := if tabWidth <=? 0 then DefaultTabWidth else tabWidth in
  let tabw := F32.mul spacew (float32_of_int tabWidth) in
  let tabs := Modf_int (float64_of_float32 (F32.div (F32.add x tabw) tabw)) in
  F32.mul tabw (float32_of_float64 tabs).

(** ** Strings and runes *)

(** A Go string is a sequence of bytes. *)
Definition bytes_of (s : string) : list Z :=
  map (fun a => Z.of_N (Ascii.N_of_ascii a)) (list_ascii_of_string s).

(** [strings.ReplaceAll(s, "\r", "")]. *)
Fixpoint strip_cr (s : string) : string :=
  match s with
  | EmptyString => EmptyString
  | String a rest =>
      if Ascii.eqb a (Ascii.ascii_of_nat 13) then strip_cr rest
      else String a (strip_cr rest)
  end.

Definition RuneError : Z := 0xfffd.

(** Length of the encoding announced by a leading byte and the range its
    first continuation byte must lie in; [None] for a byte that cannot
    lead. *)
Definition utf8_first (p0 : Z) : option (Z * Z * Z) :=
  if p0 <? 0xC2 then None
  else if p0 <? 0xE0 then Some (2, 0x80, 0xBF)
  else if p0 =? 0xE0 then Some (3, 0xA0, 0xBF)
  else if p0 =? 0xED then Some (3, 0x80, 0x9F)
  else if p0 <? 0xF0 then Some (3, 0x80, 0xBF)
  else if p0 =? 0xF0 then Some (4, 0x90, 0xBF)
  else if p0 <? 0xF4 then Some (4, 0x80, 0xBF)
  else if p0 =? 0xF4 then Some (4, 0x80, 0x8F)
  else None.

Definition utf8_cont (b : Z) : bool := (0x80 <=? b) && (b <=? 0xBF).

(** [[]rune(s)]: UTF-8 decoding; a byte that starts no valid encoding
    yields U+FFFD and is skipped alone. *)
Fixpoint decode_runes (p : list Z) : list Z :=
  match p with
  | [] => []
  | p0 :: t0 =>
      if p0 <? 0x80 then p0 :: decode_runes t0
      else
        match utf8_first p0, t0 with
        | Some (sz, lo, hi), b1 :: t1 =>
            if (lo <=? b1) && (b1 <=? hi) then
              if sz =? 2 then
                Z.lor (Z.shiftl (Z.land p0 0x1F) 6) (Z.land b1 0x3F) :: decode_runes t1
              else
                match t1 with
                | b2 :: t2 =>
                    if utf8_cont b2 then
                      if sz =? 3 then
                        Z.lor (Z.shiftl (Z.land p0 0x0F) 12)
                          (Z.lor (Z.shiftl (Z.land b1 0x3F) 6) (Z.land b2 0x3F))
                          :: decode_runes t2
                      else
                        match t2 with
                        | b3 :: t3 =>
                            if utf8_cont b3 then
                              Z.lor (Z.shiftl (Z.land p0 0x07) 18)
                                (Z.lor (Z.shiftl (Z.land b1 0x3F) 12)
                                   (Z.lor (Z.shiftl (Z.land b2 0x3F) 6) (Z.land b3 0x3F)))
                                :: decode_runes t3
                            else RuneError :: decode_runes t0
                        | [] => RuneError :: decode_runes t0
                        end
                    else RuneError :: decode_runes t0
                | [] => RuneError :: decode_runes t0
                end
            else RuneError :: decode_runes t0
        | _, _ => RuneError :: decode_runes t0
        end
  end.

Definition runes (s : string) : list Z := decode_runes (bytes_of s).

(** ** Data model *)

(** [fyne.Size]. *)
Record Size := NewSize { Width : spec_float; Height : spec_float }.

(** [fyne.TextStyle]: the style flags and the tab-width override. *)
Record TextStyle := {
  Bold : bool;
  Italic : bool;
  Monospace : bool;
  Symbol : bool;
  TabWidth : Z
}.

Global Instance TextStyle_eq_dec : EqDecision TextStyle.
Proof. solve_decision. Defined.

Global Instance TextStyle_countable : Countable TextStyle.
Proof.
  refine (inj_countable'
    (fun s => (Bold s, Italic s, Monospace s, Symbol s, TabWidth s))
    (fun t => let '(b, i, m, y, w) := t in
              {| Bold := b; Italic := i; Monospace := m; Symbol := y; TabWidth := w |}) _).
  intros []; reflexivity.
Defined.

(** [di.Direction]; left-to-right is the zero value. *)
Inductive direction := DirectionLTR | DirectionRTL.

(** [shaping.Glyph]: of a shaped glyph only the identifier is read here. *)
Record Glyph := { GlyphID : Z }.

(** [shaping.Bounds], in 26.6 units. *)
Record Bounds := { Ascent : Z; Descent : Z; Gap : Z }.

(** [Bounds.LineThickness] of the shaping library. *)
Definition LineThickness (b : Bounds) : Z := wrap 32 (wrap 32 (Ascent b - Descent b) + Gap b).

(** [shaping.Input]: a run of text to shape.  A face is a nullable
    handle: [None] is Go's [nil]. *)
Module Input.
Record t {F : Type} := mk {
  Text : list Z;
  RunStart : Z;
  RunEnd : Z;
  Direction : direction;
  Face : option F;
  Size : Z
}.
Arguments t : clear implicits.
End Input.

(** [shaping.Output]: a shaped run. *)
Module Output.
Record t {F : Type} := mk {
  Advance : Z;
  Size : Z;
  Glyphs : list Glyph;
  LineBounds : Bounds;
  Face : option F
}.
Arguments t : clear implicits.
End Output.

(** The shaping engine consumed by the pipeline: [HarfbuzzShaper.Shape]
    and [Segmenter.Split], the latter resolving faces through the face
    list it is given. *)
Class Shaper (F : Type) := {
  Shape : Input.t F -> Output.t F;
  Split : Input.t F -> list (option F) -> list (Input.t F)
}.

(** A glyph sink: the callback receives a shaped run and a position and
    acts on a state of type [S] (the destination image when painting). *)
Definition sink (F S : Type) : Type := Output.t F -> spec_float -> spec_float -> S -> S.

(** ** Layout *)

Section Layout.
Context {F : Type} `{Shaper F}.
Context {S : Type}.

(** The run consists of one glyph, and that glyph is "not found". *)
Definition missing_glyph (run : Output.t F) : bool :=
  match Output.Glyphs run with
  | [g] => GlyphID g =? 0
  | _ => false
  end.

(** [processFontRun]; the cursor [*advance] is passed in and returned
    third, the sink state fourth. *)
Definition processFontRun (run : Output.t F) (textSize : Z) (y advance : spec_float)
    (cb : sink F S) (st : S) : Size * spec_float * spec_float * S :=
  if missing_glyph run then
    let in_ := {| Input.Text := [0xfffd]; Input.RunStart := 0; Input.RunEnd := 1;
                  Input.Direction := DirectionLTR; Input.Face := Output.Face run;
                  Input.Size := textSize |} in
    let out := Shape in_ in
    let y := fixed266ToFloat32 (Ascent (Output.LineBounds out)) in
    let st := cb out advance y st in
    let advance := F32.add (fixed266ToFloat32 (Output.Advance out)) advance in
    (NewSize advance (fixed266ToFloat32 (LineThickness (Output.LineBounds run))),
     fixed266ToFloat32 (Ascent (Output.LineBounds run)), advance, st)
  else
    let st := cb run advance y st in
    let advance := F32.add (fixed266ToFloat32 (Output.Advance run)) advance in
    (NewSize advance (fixed266ToFloat32 (LineThickness (Output.LineBounds run))),
     fixed266ToFloat32 (Ascent (Output.LineBounds run)), advance, st).

(** The shared baseline of a line: the largest ascent of its runs. *)
Definition line_base (line : list (Output.t F)) : spec_float :=
  fold_left (fun base run =>
               let asc := fixed266ToFloat32 (Ascent (Output.LineBounds run)) in
               if F32.gt asc base then asc else base)
            line F32.zero.

(** One turn of the second loop of [processSubString].  As in the source,
    [adv] is the second result of [processFontRun], which is the ascent of
    the run, and it replaces the cursor when it is not below it. *)
Definition layout_run (fontSize base : spec_float) (cb : sink F S)
    (acc : spec_float * spec_float * S) (run : Output.t F) : spec_float * spec_float * S :=
  let '(advance, thickness, st) := acc in
  let '(sz, adv, advance, st) :=
    processFontRun run (float32ToFixed266 fontSize) base advance cb st in
  let thickness := if F32.gt (Height sz) thickness then Height sz else thickness in
  let advance := if F32.ge adv advance then adv else advance in
  (advance, thickness, st).

Definition processSubString (str : list Z) (f : list (option F))
    (fontSize scale startX : spec_float) (cb : sink F S) (st : S)
    : Size * spec_float * S :=
  let in_ := {| Input.Text := str; Input.RunStart := 0;
                Input.RunEnd := Z.of_nat (length str);
                Input.Direction := DirectionLTR; Input.Face := None;
                Input.Size := fixed_I (int_of_float 64 (F32.mul fontSize scale)) |} in
  let runs := Split in_ f in
  let line := map Shape runs in
  let base := line_base line in
  let '(advance, thickness, st) :=
    fold_left (layout_run fontSize base cb) line (startX, F32.zero, st) in
  (NewSize advance thickness, advance, st).

(** [rs[start:i]]. *)
Definition slice (rs : list Z) (start i : nat) : list Z :=
  firstn (i - start) (skipn start rs).

(** The loop state of [processString]: cursor, height, start of the
    pending substring, sink state. *)
Record seg_state := { seg_x : spec_float; seg_height : spec_float;
                      seg_start : nat; seg_st : S }.

(** One turn of the loop of [processString], at rune [c] of index [i]. *)
Definition segment_step (rs : list Z) (f : list (option F))
    (fontSize scale : spec_float) (tabWidth : Z) (cb : sink F S)
    (a : seg_state) (ic : nat * Z) : seg_state :=
  let '(i, c) := ic in
  if c =? 9 then
    let a :=
      if (seg_start a <? i)%nat then
        let '(inset, adv, st) :=
          processSubString (slice rs (seg_start a) i) f fontSize scale (seg_x a) cb (seg_st a) in
        {| seg_x := adv; seg_height := Height inset; seg_start := seg_start a; seg_st := st |}
      else a in
    let spacew := F32.mul scale fontTabSpaceSize in
    {| seg_x := tabStop spacew (seg_x a) tabWidth; seg_height := seg_height a;
       seg_start := (i + 1)%nat; seg_st := seg_st a |}
  else a.

Definition processString (s : string) (f : list (option F))
    (fontSize scale : spec_float) (tabWidth : Z) (cb : sink F S) (st : S)
    : Size * spec_float * S :=
  let rs := runes (strip_cr s) in
  let a := fold_left (segment_step rs f fontSize scale tabWidth cb)
                     (combine (seq 0 (length rs)) rs)
                     {| seg_x := F32.zero; seg_height := F32.zero; seg_start := 0%nat; seg_st := st |} in
  let a :=
    if (seg_start a <? length rs)%nat then
      let '(trail, adv, st) :=
        processSubString (slice rs (seg_start a) (length rs)) f fontSize scale (seg_x a) cb (seg_st a) in
      {| seg_x := adv; seg_height := Height trail; seg_start := seg_start a; seg_st := st |}
    else a in
  (NewSize (seg_x a) (seg_height a), seg_x a, seg_st a).
End Layout.

(** ** Drawing and measuring *)

(** [render.Renderer], as [DrawString] fills it in. *)
Record Renderer {C : Type} := { FontSize : spec_float; PixScale : spec_float; Color : C }.
Arguments Renderer : clear implicits.

Section Facade.
Context {F : Type} `{Shaper F}.
Context {Image C : Type}.

(** [Renderer.DrawShapedRunAt] of the rendering library: paints a run
    into the image at integer pixel coordinates. *)
Variable DrawShapedRunAt : Renderer C -> Output.t F -> Image -> Z -> Z -> Image.

(** The sink of [DrawString]. *)
Definition paint (r : Renderer C) : sink F Image :=
  fun seg x y dst => DrawShapedRunAt r seg dst (int_of_float 64 x) (int_of_float 64 y).

(** [DrawString]; the result is the destination image after the call. *)
Definition DrawString (dst : Image) (s : string) (color : C) (f : list (option F))
    (fontSize scale : spec_float) (tabWidth : Z) : Image :=
  let r := {| FontSize := fontSize; PixScale := scale; Color := color |} in
  if String.eqb s " " then dst
  else snd (processString s f fontSize scale tabWidth (paint r) dst).

(** The sink of [MeasureString] does nothing. *)
Definition no_paint : sink F unit := fun _ _ _ st => st.

Definition MeasureString (f : list (option F)) (s : string) (textSize : spec_float)
    (tabWidth : Z) : Size * spec_float :=
  if String.eqb s " " then (NewSize F32.zero F32.zero, F32.zero)
  else fst (processString s f textSize (float32_of_int 1) tabWidth no_paint tt).
End Facade.

(** ** Face sets *)

(** The font resources of the current theme: for each style category the
    theme's font and the built-in default, and the emoji font when the
    build has one. *)
Record Theme {R : Type} := {
  TextMonospaceFont : R;   DefaultTextMonospaceFont : R;
  TextBoldItalicFont : R;  DefaultTextBoldItalicFont : R;
  TextBoldFont : R;        DefaultTextBoldFont : R;
  TextItalicFont : R;      DefaultTextItalicFont : R;
  SymbolFont : R;          DefaultSymbolFont : R;
  TextFont : R;            DefaultTextFont : R;
  DefaultEmojiFont : option R
}.
Arguments Theme : clear implicits.

Record FontCacheItem {F : Type} := { Fonts : list (option F) }.
Arguments FontCacheItem : clear implicits.

Section Resolver.
Context {F R : Type}.

(** [font.ParseTTF] on a resource's content: a face, or [None] on a
    parse error. *)
Variable ParseTTF : R -> option F.
Variable theme : Theme R.

(** [loadMeasureFont]: a parse error is logged and yields [nil]. *)
Definition loadMeasureFont (data : R) : option F := ParseTTF data.

(** The two faces loaded by the [switch] of [CachedFontFace]. *)
Definition load_category (style : TextStyle) : option F * option F :=
  if Monospace style then
    (loadMeasureFont (TextMonospaceFont theme), loadMeasureFont (DefaultTextMonospaceFont theme))
  else if Bold style then
    if Italic style then
      (loadMeasureFont (TextBoldItalicFont theme), loadMeasureFont (DefaultTextBoldItalicFont theme))
    else
      (loadMeasureFont (TextBoldFont theme), loadMeasureFont (DefaultTextBoldFont theme))
  else if Italic style then
    (loadMeasureFont (TextItalicFont theme), loadMeasureFont (DefaultTextItalicFont theme))
  else if Symbol style then
    (loadMeasureFont (SymbolFont theme), loadMeasureFont (DefaultSymbolFont theme))
  else
    (loadMeasureFont (TextFont theme), loadMeasureFont (DefaultTextFont theme)).

(** The face set built on a cache miss. *)
Definition build_faces (style : TextStyle) : FontCacheItem F :=
  let '(f1, f2) := load_category style in
  let f1 := match f1 with None => f2 | Some _ => f1 end in
  let faces := [f1; f2] in
  let faces :=
    match DefaultEmojiFont theme with
    | Some emoji => faces ++ [loadMeasureFont emoji]
    | None => faces
    end in
  {| Fonts := faces |}.

(** [CachedFontFace]; [fontCache] is the process-wide map, passed in
    and returned. *)
Definition CachedFontFace (style : TextStyle) (fontDP texScale : spec_float)
    (fontCache : gmap TextStyle (FontCacheItem F))
    : FontCacheItem F * gmap TextStyle (FontCacheItem F) :=
  match fontCache !! style with
  | Some val => (val, fontCache)
  | None =>
      let val := build_faces style in
      (val, <[style := val]> fontCache)
  end.

Definition ClearFontCache (fontCache : gmap TextStyle (FontCacheItem F))
    : gmap TextStyle (FontCacheItem F) := ∅.
End Resolver.

(** ** Metrics cache *)

Global Instance spec_float_eq_dec : EqDecision spec_float.
Proof. solve_decision. Defined.

Global Instance spec_float_countable : Countable spec_float.
Proof.
  refine (inj_countable'
    (fun x => match x with
              | S754_zero s => inl (inl s)
              | S754_infinity s => inl (inr s)
              | S754_nan => inr (inl tt)
              | S754_finite s m e => inr (inr (s, m, e))
              end)
    (fun y => match y with
              | inl (inl s) => S754_zero s
              | inl (inr s) => S754_infinity s
              | inr (inl _) => S754_nan
              | inr (inr (s, m, e)) => S754_finite s m e
              end) _).
  intros []; reflexivity.
Defined.

(** Modelled from the spec: the metrics cache of [internal/cache], whose
    source is not part of this development.  It memoizes
    (text, size, style) -> (size, baseline); [put] followed by [get] on
    the same key returns the stored values, and a miss is a zero size
    with a zero baseline. *)
Definition GetFontMetrics (text : string) (fontSize : spec_float) (style : TextStyle)
    (c : gmap (string * spec_float * TextStyle) (Size * spec_float)) : Size * spec_float :=
  match c !! (text, fontSize, style) with
  | Some v => v
  | None => (NewSize F32.zero F32.zero, F32.zero)
  end.

Definition SetFontMetrics (text : string) (fontSize : spec_float) (style : TextStyle)
    (size : Size) (base : spec_float)
    (c : gmap (string * spec_float * TextStyle) (Size * spec_float))
    : gmap (string * spec_float * TextStyle) (Size * spec_float) :=
  <[(text, fontSize, style) := (size, base)]> c.

(** ** Cached measurement *)

(** The two process-wide caches. *)
Record Caches {F : Type} := {
  fontCache : gmap TextStyle (FontCacheItem F);
  metrics : gmap (string * spec_float * TextStyle) (Size * spec_float)
}.
Arguments Caches : clear implicits.

Section Rendered.
Context {F R : Type} `{Shaper F}.
Variable ParseTTF : R -> option F.
Variable theme : Theme R.

Definition measureText (text : string) (fontSize : spec_float) (style : TextStyle)
    (fc : gmap TextStyle (FontCacheItem F))
    : Size * spec_float * gmap TextStyle (FontCacheItem F) :=
  let '(face, fc) := CachedFontFace ParseTTF theme style fontSize (float32_of_int 1) fc in
  (MeasureString (Fonts face) text fontSize (TabWidth style), fc).

Definition RenderedTextSize (text : string) (fontSize : spec_float) (style : TextStyle)
    (w : Caches F) : Size * spec_float * Caches F :=
  let '(size, base) := GetFontMetrics text fontSize style (metrics w) in
  if F32.ne base F32.zero then (size, base, w)
  else
    let '(size, base, fc) := measureText text fontSize style (fontCache w) in
    (size, base,
     {| fontCache := fc;
        metrics := SetFontMetrics text fontSize style size base (metrics w) |}).
End Rendered.

(** ** Face sets: reachable caches *)

(** The font cache starts empty and changes only through
    [CachedFontFace] and [ClearFontCache]. *)
Inductive reachable {F R : Type} (ParseTTF : R -> option F) (theme : Theme R)
    : gmap TextStyle (FontCacheItem F) -> Prop :=
  | reachable_init : reachable ParseTTF theme ∅
  | reachable_clear fc :
      reachable ParseTTF theme fc -> reachable ParseTTF theme (ClearFontCache fc)
  | reachable_resolve fc style fontDP texScale :
      reachable ParseTTF theme fc ->
      reachable ParseTTF theme (snd (CachedFontFace ParseTTF theme style fontDP texScale fc)).

(** Every cached item is the one a miss would build. *)
Definition consistent {F R : Type} (ParseTTF : R -> option F) (theme : Theme R)
    (fc : gmap TextStyle (FontCacheItem F)) : Prop :=
  forall style item, fc !! style = Some item -> item = build_faces ParseTTF theme style.

(** ** Glyph sinks: recording and replaying *)

(** A call of the glyph sink: the run and the position it is given. *)
Definition call (F : Type) : Type := Output.t F * spec_float * spec_float.

(** The sink that only records its calls, in order. *)
Definition record {F : Type} : sink F (list (call F)) :=
  fun seg x y calls => calls ++ [(seg, x, y)].

(** Feeding recorded calls to a sink, in order. *)
Definition replay {F S : Type} (cb : sink F S) (calls : list (call F)) (st : S) : S :=
  fold_left (fun st c => cb c.1.1 c.1.2 c.2 st) calls st.

(** The input shaped in place of a run whose sole glyph is missing. *)
Definition replacement_input {F : Type} (run : Output.t F) (textSize : Z) : Input.t F :=
  {| Input.Text := [0xfffd]; Input.RunStart := 0; Input.RunEnd := 1;
     Input.Direction := DirectionLTR; Input.Face := Output.Face run;
     Input.Size := textSize |}.

(** The loop state of [processString] on a sink [cb] that corresponds to
    a loop state on the recording sink. *)
Definition seg_replay {F S : Type} (cb : sink F S) (st0 : S)
    (a : seg_state (S := list (call F))) : seg_state (S := S) :=
  {| seg_x := seg_x a; seg_height := seg_height a; seg_start := seg_start a;
     seg_st := replay cb (seg_st a) st0 |}.

(** ** Numbers on a binary grid, tab stops over the rationals *)

(** The [float32] of the positive number [a / 2 ^ g], for [a] of at most
    24 digits. *)
Definition grid32 (a : positive) (g : Z) : spec_float :=
  let d := Z.pos (digits2_pos a) in
  S754_finite false (Z.to_pos (Z.pos a * 2 ^ (24 - d))) (d - 24 - g).

(** [r] is the smallest multiple of [w] strictly greater than [x]. *)
Definition next_stop (w x r : Q) : Prop :=
  (exists k : Z, r == inject_Z k * w)%Q /\ (x < r)%Q /\
  forall k : Z, (x < inject_Z k * w)%Q -> (r <= inject_Z k * w)%Q.

(** The formula of the specification, over the rationals. *)
Definition stop_formula (w x : Q) : Q := (w * inject_Z (Qfloor ((x + w) / w)))%Q.

(** ** A test bench

    A small shaping engine and theme on which the pipeline can be run:
    faces and resources are numbered handles. *)
Module Bench.
Definition capital (r : Z) : bool := (65 <=? r) && (r <=? 90).

(** Glyph identifiers: ASCII and U+FFFD have glyphs, nothing else has. *)
Definition glyph_of (r : Z) : Glyph :=
  {| GlyphID := if r <? 128 then r else if r =? 0xfffd then 3 else 0 |}.

(** Face 1 is a display face, taller than the others. *)
Definition bounds_of (face : option nat) : Bounds :=
  match face with
  | Some 1%nat => {| Ascent := 1024; Descent := -256; Gap := 0 |}
  | _ => {| Ascent := 640; Descent := -128; Gap := 0 |}
  end.

Definition shape (i : Input.t nat) : Output.t nat :=
  {| Output.Advance := 640 * Z.of_nat (length (Input.Text i));
     Output.Size := Input.Size i;
     Output.Glyphs := map glyph_of (Input.Text i);
     Output.LineBounds := bounds_of (Input.Face i);
     Output.Face := Input.Face i |}.

(** A text is one run; it is set in the second face of the list when
    it starts with a capital letter, in the first face otherwise. *)
Definition split (i : Input.t nat) (faces : list (option nat)) : list (Input.t nat) :=
  match Input.Text i with
  | [] => []
  | r :: _ =>
      [ {| Input.Text := Input.Text i; Input.RunStart := Input.RunStart i;
           Input.RunEnd := Input.RunEnd i; Input.Direction := Input.Direction i;
           Input.Face := nth (if capital r then 1 else 0)%nat faces None;
           Input.Size := Input.Size i |} ]
  end.

Definition shaper : Shaper nat := {| Shape := shape; Split := split |}.

Definition faces : list (option nat) := [Some 0%nat; Some 1%nat].

(** Resources 0 to 12; the theme fonts are the even ones. *)
Definition theme (emoji : option nat) : Theme nat :=
  {| TextMonospaceFont := 0%nat;  DefaultTextMonospaceFont := 1%nat;
     TextBoldItalicFont := 2%nat; DefaultTextBoldItalicFont := 3%nat;
     TextBoldFont := 4%nat;       DefaultTextBoldFont := 5%nat;
     TextItalicFont := 6%nat;     DefaultTextItalicFont := 7%nat;
     SymbolFont := 8%nat;         DefaultSymbolFont := 9%nat;
     TextFont := 10%nat;          DefaultTextFont := 11%nat;
     DefaultEmojiFont := emoji |}.

(** Three parsers: every resource parses; only the built-in defaults
    parse; nothing parses. *)
Definition parse_all (r : nat) : option nat := Some r.
Definition parse_defaults (r : nat) : option nat := if Nat.odd r then Some r else None.
Definition parse_none (r : nat) : option nat := None.

Definition style (bold italic mono symbol : bool) : TextStyle :=
  {| Bold := bold; Italic := italic; Monospace := mono; Symbol := symbol; TabWidth := 0 |}.

Definition f32 (n : Z) : spec_float := float32_of_int n.
End Bench.

Module BenchRuns.
Import Bench.

Definition tab : string := String (Ascii.ascii_of_nat 9) EmptyString.

(** A capital, a tab, a small letter: two substrings, the first one
    set in the taller display face. *)
Definition text : string := String.append "A" (String.append tab "b").

Definition measure (s : string) : Size * spec_float * unit :=
  @processString nat shaper unit s faces (f32 12) (f32 1) 0 no_paint tt.

(** The line height of one tab-free substring, laid out at cursor [x]. *)
Definition substring_height (s : string) (x : spec_float) : spec_float :=
  Height (@processSubString nat shaper unit (runes s) faces (f32 12) (f32 1) x no_paint tt).1.1.

Definition caches0 : Caches nat := {| fontCache := ∅; metrics := ∅ |}.
Definition plain : TextStyle := style false false false false.

(** U+2603, which has no glyph on the test bench, in UTF-8. *)
Definition snowman : string :=
  String (Ascii.ascii_of_nat 226)
    (String (Ascii.ascii_of_nat 152) (String (Ascii.ascii_of_nat 131) EmptyString)).

(** The sink calls of a draw or measure pass at font size 12 and the
    given scale. *)
Definition calls_at (scale : Z) (s : string) : list (call nat) :=
  (@processString nat shaper _ s faces (f32 12) (f32 scale) 0 record []).2.

(** A run whose sole glyph is missing and a run that has its glyphs. *)
Definition run_missing : Output.t nat :=
  shape {| Input.Text := [0x2603]; Input.RunStart := 0; Input.RunEnd := 1;
           Input.Direction := DirectionLTR; Input.Face := Some 0%nat; Input.Size := 768 |}.
Definition run_plain : Output.t nat :=
  shape {| Input.Text := [104; 105]; Input.RunStart := 0; Input.RunEnd := 2;
           Input.Direction := DirectionLTR; Input.Face := Some 0%nat; Input.Size := 768 |}.
End BenchRuns.

(** ** Further definitions *)

(** The string made of [n] copies of one character. *)
Fixpoint repeat_char (a : ascii) (n : nat) : string :=
  match n with
  | O => EmptyString
  | S n => String a (repeat_char a n)
  end.

Definition CR : ascii := Ascii.ascii_of_nat 13.
Definition TAB : ascii := Ascii.ascii_of_nat 9.

(** What [processFontRun] hands to the sink for a run: the run, or the
    shaped replacement character when its sole glyph is missing. *)
Definition emitted {F : Type} `{Shaper F} (textSize : Z) (run : Output.t F) : Output.t F :=
  if missing_glyph run then Shape (replacement_input run textSize) else run.

(** ** Face lookup *)

(** The outcome of a call that may panic. *)
Inductive outcome (A : Type) : Type :=
  | Returns (a : A)
  | Panics.
Arguments Returns {A} a.
Arguments Panics {A}.

(** [Face.NominalGlyph] of the font library: the glyph a face has for a
    rune, if it has one. *)
Class Cmap (F : Type) := { NominalGlyph : F -> Z -> option Z }.

(** The loop of [fixedFontmap.ResolveFace]: the first face that has a
    glyph for [r] is returned; [Returns None] stands for the loop running
    out.  Asking a nil face for a glyph panics. *)
Fixpoint resolve_loop {F : Type} `{Cmap F} (ff : list (option F)) (r : Z)
    : outcome (option F) :=
  match ff with
  | [] => Returns None
  | None :: _ => Panics
  | Some f :: rest =>
      match NominalGlyph f r with
      | Some _ => Returns (Some f)
      | None => resolve_loop rest r
      end
  end.

(** [fixedFontmap.ResolveFace]: when no face has the glyph, [ff[0]] is
    returned, which panics on an empty list. *)
Definition ResolveFace {F : Type} `{Cmap F} (ff : list (option F)) (r : Z)
    : outcome (option F) :=
  match resolve_loop ff r with
  | Panics => Panics
  | Returns (Some f) => Returns (Some f)
  | Returns None =>
      match ff with
      | f0 :: _ => Returns f0
      | [] => Panics
      end
  end.

(** ** Coherent caches *)

(** What measuring a text afresh gives, whatever the caches hold. *)
Definition measured {F R : Type} `{Shaper F} (ParseTTF : R -> option F) (theme : Theme R)
    (text : string) (fontSize : spec_float) (style : TextStyle) : Size * spec_float :=
  MeasureString (Fonts (build_faces ParseTTF theme style)) text fontSize (TabWidth style).

(** The caches hold nothing but what the current theme gives: every face
    set is the one a miss would build, every metrics entry the measure of
    its key. *)
Definition coherent {F R : Type} `{Shaper F} (ParseTTF : R -> option F) (theme : Theme R)
    (w : Caches F) : Prop :=
  consistent ParseTTF theme (fontCache w) /\
  forall text fontSize style v,
    metrics w !! (text, fontSize, style) = Some v ->
    v = measured ParseTTF theme text fontSize style.


(** ** Order of [float32] values *)

(** A finite [float32] counted in units of 2^-149, the smallest positive
    [float32]. *)
Definition ulps32 (x : spec_float) : Z :=
  match x with
  | S754_finite s m e => cond_Zopp s (Z.pos m * 2 ^ (e + 149))
  | _ => 0
  end.

(** The ascent of a shaped run as [processSubString] reads it. *)
Definition ascent_of {F : Type} (run : Output.t F) : spec_float :=
  fixed266ToFloat32 (Ascent (Output.LineBounds run)).

(** Ascents are [int32] counts of 64ths. *)
Definition int32_ascent {F : Type} (run : Output.t F) : Prop :=
  - 2 ^ 31 <= Ascent (Output.LineBounds run) < 2 ^ 31.

(** ** Faces of the test bench *)
Module BenchFaces.
(** Face 0 has the ASCII characters, face 1 the capitals, face 2 the
    emoticons block. *)
Definition nominal (f : nat) (r : Z) : option Z :=
  match f with
  | 0%nat => if (0 <=? r) && (r <? 128) then Some r else None
  | 1%nat => if Bench.capital r then Some r else None
  | _ => if (0x1F600 <=? r) && (r <=? 0x1F64F) then Some (r - 0x1F600 + 1) else None
  end.

Definition cmap : Cmap nat := {| NominalGlyph := nominal |}.
End BenchFaces.

(** * The animation runner

    [animation.Runner] keeps the running animations and those started
    while a tick was under way, and advances the running ones on every
    tick of the driver.  The lock makes [Start] and [Stop] atomic; a
    tick holds it only in places and is taken step by step. *)
Module animation.

(** A [*fyne.Animation]: the address of an animation in the caller's
    memory. *)
Definition AnimationRef : Type := positive.

(** ** Time

    Instants and [time.Duration]s are counted in nanoseconds. *)

(** [t.Sub(u)], which saturates at the ends of [int64]. *)
Definition Sub (t u : Z) : Z := Z.max (- 2 ^ 63) (Z.min (2 ^ 63 - 1) (t - u)).

(** [d.Milliseconds()]: integer division, which Go rounds toward zero. *)
Definition Milliseconds (d : Z) : Z := Z.quot d 1000000.

Definition sub32 : spec_float -> spec_float -> spec_float := SFsub F32.prec F32.emax.
Definition one : spec_float := float32_of_int 1.

(** ** The caller's side

    The animations belong to the caller: their fields are read from the
    caller's memory [U] and their [Tick] callbacks write to it, so that a
    callback may change the animation it belongs to.  [Now k] is the
    [k]-th reading of the clock. *)
Class World (U : Type) := {
  AutoReverse : U -> AnimationRef -> bool;
  Duration : U -> AnimationRef -> Z;
  Curve : U -> AnimationRef -> option (spec_float -> spec_float);
  Tick : AnimationRef -> spec_float -> U -> U;
  AnimationEaseInOut : spec_float -> spec_float;
  Now : nat -> Z
}.

(** ** Items

    The private [anim] of the package, with the fields that
    [tickAnimation] and [Stop] use; [total] holds [float32(a.total)]. *)
Record anim := {
  a : AnimationRef;
  end_ : Z;
  repeatsLeft : Z;
  reverse : bool;
  start : Z;
  total : spec_float
}.

Definition set_reverse (b : bool) (x : anim) : anim :=
  {| a := a x; end_ := end_ x; repeatsLeft := repeatsLeft x; reverse := b;
     start := start x; total := total x |}.

Definition set_repeatsLeft (n : Z) (x : anim) : anim :=
  {| a := a x; end_ := end_ x; repeatsLeft := n; reverse := reverse x;
     start := start x; total := total x |}.

Definition set_window (s e : Z) (x : anim) : anim :=
  {| a := a x; end_ := e; repeatsLeft := repeatsLeft x; reverse := reverse x;
     start := s; total := total x |}.

(** The helpers of [anim] that the runner calls.  They are not among
    the sources and are left open: what is proved holds whatever they
    are. *)
Class Items := {
  newAnim : AnimationRef -> anim;
  setStopped : anim -> anim;
  isStopped : anim -> bool
}.

(** ** One frame of one animation *)

(** [tickAnimation]: the item, the number of clock readings made so far
    and the caller's memory go in; whether the animation goes on, the
    item, the readings and the memory come out.  A callback does not
    reach the private fields of the item. *)
Definition tickAnimation {U : Type} `{World U} (x : anim) (k : nat) (u : U)
    : bool * anim * nat * U :=
  if end_ x <? Now k then
    let k := S k in
    (* from [if !a.reverse] to the end of the branch *)
    let rest (x : anim) (u : U) : bool * anim * nat * U :=
      if negb (reverse x) && (repeatsLeft x =? 0) then (false, x, k, u)
      else
        let x := if negb (reverse x) && (0 <? repeatsLeft x)
                 then set_repeatsLeft (repeatsLeft x - 1) x else x in
        let s := Now k in
        (true, set_window s (s + Duration u (a x)) x, S k, u) in
    if reverse x then
      let u := Tick (a x) F32.zero u in
      if repeatsLeft x =? 0 then (false, x, k, u)
      else rest (set_reverse false x) u
    else
      let u := Tick (a x) one u in
      rest (if AutoReverse u (a x) then set_reverse true x else x) u
  else
    let k := S k in
    let delta := Milliseconds (Sub (Now k) (start x)) in
    let val := F32.div (float32_of_int delta) (total x) in
    let curve := match Curve u (a x) with Some c => c | None => AnimationEaseInOut end in
    let u := if reverse x then Tick (a x) (curve (sub32 one val)) u
             else Tick (a x) (curve val) u in
    (true, x, S k, u).

(** ** The runner

    Every item is made by [newAnim] in [Start] and sits in one slot of
    one of the two lists, so the lists of [*anim] are lists of items. *)
Record Runner := {
  animations : list anim;
  pendingAnimations : list anim;
  runnerStarted : bool
}.

(** The zero [Runner]. *)
Definition idle : Runner :=
  {| animations := []; pendingAnimations := []; runnerStarted := false |}.

Definition Start `{Items} (r : Runner) (p : AnimationRef) : Runner :=
  if negb (runnerStarted r) then
    {| animations := animations r ++ [newAnim p];
       pendingAnimations := pendingAnimations r;
       runnerStarted := true |}
  else
    {| animations := animations r;
       pendingAnimations := pendingAnimations r ++ [newAnim p];
       runnerStarted := runnerStarted r |}.

(** The first loop of [Stop], over the running items: the new list,
    whether an item was stopped, and the items on which [setStopped] was
    called. *)
Definition stop_running `{Items} (p : AnimationRef) (l : list anim)
    : list anim * bool * list anim :=
  fold_left (fun '(newList, stopped, marked) item =>
               if negb (Pos.eqb (a item) p) then (newList ++ [item], stopped, marked)
               else (newList, true, marked ++ [setStopped item]))
            l ([], false, []).

(** The second loop, over the pending items. *)
Definition stop_pending `{Items} (p : AnimationRef) (l : list anim)
    : list anim * list anim :=
  fold_left (fun '(newList, marked) item =>
               if negb (Pos.eqb (a item) p) then (newList ++ [item], marked)
               else (newList, marked ++ [setStopped item]))
            l ([], []).

(** [Stop]; the second result lists the items marked as stopped, which
    the runner holds no more. *)
Definition Stop `{Items} (r : Runner) (p : AnimationRef) : Runner * list anim :=
  let '(newList, stopped, marked) := stop_running p (animations r) in
  if stopped then
    ({| animations := newList; pendingAnimations := pendingAnimations r;
        runnerStarted := runnerStarted r |}, marked)
  else
    let '(newList', marked') := stop_pending p (pendingAnimations r) in
    ({| animations := newList; pendingAnimations := newList';
        runnerStarted := runnerStarted r |}, marked ++ marked').

(** ** A tick, step by step

    [TickAnimations] reads [runnerStarted] without the lock, copies the
    running list under the lock, runs the loop without it, puts the
    lists back under the lock and clears [runnerStarted] under a lock of
    its own.  [stage] says where a call stands between these steps:
    about to read [runnerStarted]; about to copy the list; in the loop,
    with the items still to visit and the new list; about to clear
    [runnerStarted] if [done]; returned.  The items the loop holds are
    the ones of the running list; the loop works on them and the running
    list is replaced when the lists are put back. *)
Inductive stage : Type :=
  | AtEntry
  | AtCopy
  | InLoop (oldList newList : list anim)
  | AtClear (done : bool)
  | Returned.

(** One step of a call of [TickAnimations]: the unlocked read, a locked
    section, or one turn of the loop.  The callbacks do not call the
    runner. *)
Definition tick_step {U : Type} `{World U} `{Items} (c : stage * Runner * nat * U)
    : stage * Runner * nat * U :=
  let '(at_, r, k, u) := c in
  match at_ with
  | AtEntry =>
      if negb (runnerStarted r) then (Returned, r, k, u) else (AtCopy, r, k, u)
  | AtCopy => (InLoop (animations r) [], r, k, u)
  | InLoop (x :: oldList) newList =>
      if negb (isStopped x) then
        let '(go, x, k, u) := tickAnimation x k u in
        (InLoop oldList (if go then newList ++ [x] else newList), r, k, u)
      else (InLoop oldList newList, r, k, u)
  | InLoop [] newList =>
      let l := newList ++ pendingAnimations r in
      let done := match l with [] => true | _ => false end in
      (AtClear done,
       {| animations := l; pendingAnimations := []; runnerStarted := runnerStarted r |},
       k, u)
  | AtClear done =>
      (Returned,
       (if done then
          {| animations := animations r; pendingAnimations := pendingAnimations r;
             runnerStarted := false |}
        else r), k, u)
  | Returned => (Returned, r, k, u)
  end.

(** A call of [TickAnimations] that no other call of the runner
    overlaps: its steps one after the other, two before the loop, one
    for each running item and two after the loop. *)
Definition TickAnimations {U : Type} `{World U} `{Items} (r : Runner) (k : nat) (u : U)
    : Runner * nat * U :=
  let '(_, r, k, u) := Nat.iter (length (animations r) + 4) tick_step (AtEntry, r, k, u) in
  (r, k, u).

(** ** Calls that overlap

    While a tick is under way another goroutine may call [Start]; the
    lock lets it in between two steps of the tick.  (A [Stop] in between
    marks items that the loop still holds, through [setStopped]; it is
    not among the events.) *)
Inductive event : Type :=
  | Steps
  | Starts (p : AnimationRef).

Definition interleave {U : Type} `{World U} `{Items} (c : stage * Runner * nat * U)
    (e : event) : stage * Runner * nat * U :=
  match e with
  | Steps => tick_step c
  | Starts p => let '(at_, r, k, u) := c in (at_, Start r p, k, u)
  end.

(** ** Calls that do not overlap: each returns before the next begins *)

Inductive op : Type :=
  | OpStart (p : AnimationRef)
  | OpStop (p : AnimationRef)
  | OpTick.

Definition step {U : Type} `{World U} `{Items} (s : Runner * nat * U) (o : op)
    : Runner * nat * U :=
  let '(r, k, u) := s in
  match o with
  | OpStart p => (Start r p, k, u)
  | OpStop p => ((Stop r p).1, k, u)
  | OpTick => TickAnimations r k u
  end.

(** ** What a round is to do

    A round over the running items, from a clock and a memory: a stopped
    item is dropped without a tick; every other item is ticked, at the
    clock and in the memory the items before it left, and it is kept, as
    the tick left it, exactly when the tick said that its animation goes
    on. *)
Inductive round {U : Type} `{World U} `{Items}
    : list anim -> nat -> U -> list anim -> nat -> U -> Prop :=
  | round_over k u : round [] k u [] k u
  | round_stopped x l k u kept k' u' :
      isStopped x = true ->
      round l k u kept k' u' ->
      round (x :: l) k u kept k' u'
  | round_goes_on x l k u x1 k1 u1 kept k' u' :
      isStopped x = false ->
      tickAnimation x k u = (true, x1, k1, u1) ->
      round l k1 u1 kept k' u' ->
      round (x :: l) k u (x1 :: kept) k' u'
  | round_ends x l k u x1 k1 u1 kept k' u' :
      isStopped x = false ->
      tickAnimation x k u = (false, x1, k1, u1) ->
      round l k1 u1 kept k' u' ->
      round (x :: l) k u kept k' u'.

(** The calls of [Tick] a memory went through. *)
Definition ticked {U : Type} `{World U} (calls : list (AnimationRef * spec_float)) (u : U) : U :=
  fold_left (fun u c => Tick c.1 c.2 u) calls u.

(** The window ends an animation still has to reach before it finishes,
    for an animation whose [AutoReverse] is [ar] and whose repeat count
    is not negative: one per repeat and one more, twice that when it
    plays back and forth. *)
Definition ends_left (ar : bool) (x : anim) : Z :=
  if ar then 2 * (repeatsLeft x + 1) - (if reverse x then 1 else 0)
  else repeatsLeft x + 1.

(** Items of an animation, and items of other animations. *)
Definition is_of (p : AnimationRef) (x : anim) : bool := Pos.eqb (a x) p.
Definition not_of (p : AnimationRef) (x : anim) : bool := negb (Pos.eqb (a x) p).

Definition live `{Items} (x : anim) : bool := negb (isStopped x).

(** What the runner guarantees between calls: while it is not started
    it holds no item. *)
Definition settled (r : Runner) : Prop :=
  runnerStarted r = false -> animations r = [] /\ pendingAnimations r = [].

(** ** A test bench: the memory is the log of the calls of [Tick];
    animation 2 reverses, the others do not; all last one second; the
    clock stands at 0.5 s, then at 1.5 s, then moves on by a second at
    every reading. *)
Module Sample.
Definition world : World (list (AnimationRef * spec_float)) :=
  {| AutoReverse := fun _ p => Pos.eqb p 2;
     Duration := fun _ _ => 1000000000;
     Curve := fun _ _ => None;
     Tick := fun p v u => u ++ [(p, v)];
     AnimationEaseInOut := fun v => v;
     Now := fun k => 500000000 + 1000000000 * Z.of_nat k |}.

Definition items : Items :=
  {| newAnim := fun p => {| a := p; end_ := 1000000000; repeatsLeft := 0; reverse := false;
                            start := 0; total := float32_of_int 1000 |};
     setStopped := fun x => x;
     isStopped := fun _ => false |}.
End Sample.
End animation.

(** * Floating point: exact cases of rounding *)

(** ** Binary digits and shifts *)

Lemma digits2_pos_bounds (m : positive) :
  2 ^ (Z.pos (digits2_pos m) - 1) <= Z.pos m < 2 ^ Z.pos (digits2_pos m).
Proof.
  induction m as [m IH|m IH|]; cbn [digits2_pos].
  - rewrite Pos2Z.inj_succ.
    replace (Z.succ (Z.pos (digits2_pos m)) - 1) with (Z.succ (Z.pos (digits2_pos m) - 1)) by lia.
    rewrite !Z.pow_succ_r by lia. lia.
  - rewrite Pos2Z.inj_succ.
    replace (Z.succ (Z.pos (digits2_pos m)) - 1) with (Z.succ (Z.pos (digits2_pos m) - 1)) by lia.
    rewrite !Z.pow_succ_r by lia. lia.
  - cbn. lia.
Qed.

Lemma digits2_pos_unique (m : positive) (d : Z) :
  2 ^ (d - 1) <= Z.pos m < 2 ^ d -> Z.pos (digits2_pos m) = d.
Proof.
  intros [Hlo Hhi]. pose proof (digits2_pos_bounds m) as [Hlo' Hhi'].
  assert (0 < d).
  { destruct (Z_lt_le_dec 0 d) as [|Hd]; [assumption|].
    assert (2 ^ d <= 2 ^ 0) by (destruct (Z_lt_le_dec d 0);
      [rewrite Z.pow_neg_r by assumption; cbn; lia | apply Z.pow_le_mono_r; lia]).
    cbn in *. lia. }
  destruct (Z.lt_trichotomy (Z.pos (digits2_pos m)) d) as [Hlt|[Heq|Hgt]]; [|exact Heq|].
  - assert (2 ^ Z.pos (digits2_pos m) <= 2 ^ (d - 1)) by (apply Z.pow_le_mono_r; lia). lia.
  - assert (2 ^ d <= 2 ^ (Z.pos (digits2_pos m) - 1)) by (apply Z.pow_le_mono_r; lia). lia.
Qed.

(** Digits of a positive integer, as a function on [Z]. *)
Lemma Zdigits2_mul_pow2 (m : positive) (k : Z) :
  0 <= k -> Zdigits2 (Z.pos m * 2 ^ k) = Z.pos (digits2_pos m) + k.
Proof.
  intros Hk. pose proof (digits2_pos_bounds m) as [Hlo Hhi].
  assert (Hp : 0 < 2 ^ k) by (apply Z.pow_pos_nonneg; lia).
  destruct (Z.pos m * 2 ^ k) as [|p|p] eqn:E; try lia.
  cbn [Zdigits2]. apply digits2_pos_unique. rewrite <- E.
  replace (Z.pos (digits2_pos m) + k - 1) with ((Z.pos (digits2_pos m) - 1) + k) by lia.
  rewrite !Z.pow_add_r by lia. nia.
Qed.

Lemma pos_iter_xO (m d : positive) :
  Z.pos (Pos.iter xO m d) = Z.pos m * 2 ^ Z.pos d.
Proof.
  induction d as [|d IH] using Pos.peano_ind.
  - cbn. lia.
  - rewrite Pos.iter_succ, Pos2Z.inj_xO, IH, Pos2Z.inj_succ, Z.pow_succ_r by lia. lia.
Qed.

Lemma digits2_pos_iter_xO (m d : positive) :
  Z.pos (digits2_pos (Pos.iter xO m d)) = Z.pos (digits2_pos m) + Z.pos d.
Proof.
  pose proof (Zdigits2_mul_pow2 m (Z.pos d) ltac:(lia)) as Hd.
  rewrite <- pos_iter_xO in Hd. exact Hd.
Qed.

Lemma iter_pos_iter {A : Type} (f : A -> A) (p : positive) (x : A) :
  SpecFloat.iter_pos f p x = Pos.iter f x p.
Proof.
  revert x. induction p as [p IH|p IH|]; intros x; cbn [SpecFloat.iter_pos Pos.iter].
  - rewrite !IH. rewrite <- !Pos.iter_swap. reflexivity.
  - rewrite !IH. reflexivity.
  - reflexivity.
Qed.

(** Shifting right a mantissa that ends in [k] zero bits loses nothing. *)
Lemma shr_1_exact (m : Z) :
  0 <= m -> shr_1 (Build_shr_record (2 * m) false false) = Build_shr_record m false false.
Proof. intros Hm. destruct m as [|p|p]; [reflexivity|reflexivity|lia]. Qed.

Lemma iter_shr_1_exact (k : positive) (m : Z) :
  0 <= m ->
  SpecFloat.iter_pos shr_1 k (Build_shr_record (m * 2 ^ Z.pos k) false false)
    = Build_shr_record m false false.
Proof.
  intros Hm. rewrite iter_pos_iter.
  induction k as [|k IH] using Pos.peano_ind.
  - cbn [Pos.iter]. replace (m * 2 ^ 1) with (2 * m) by lia. apply shr_1_exact, Hm.
  - rewrite Pos.iter_succ_r.
    replace (m * 2 ^ Z.pos (Pos.succ k)) with (2 * (m * 2 ^ Z.pos k))
      by (rewrite Pos2Z.inj_succ, Z.pow_succ_r by lia; lia).
    rewrite shr_1_exact by (apply Z.mul_nonneg_nonneg; [lia | apply Z.pow_nonneg; lia]).
    exact IH.
Qed.

Section Rounding.
Variables prec emax : Z.

(** An exact mantissa already at its exponent is kept as it is. *)
Lemma binary_round_aux_keep (s : bool) (m : positive) (e : Z) :
  fexp prec emax (Z.pos (digits2_pos m) + e) <= e ->
  e <= emax - prec ->
  binary_round_aux prec emax s (Z.pos m) e loc_Exact = S754_finite s m e.
Proof.
  intros Hf He. unfold binary_round_aux, shr_fexp. cbn [Zdigits2 shr_record_of_loc].
  assert (Hs : shr (Build_shr_record (Z.pos m) false false) e
                 (fexp prec emax (Z.pos (digits2_pos m) + e) - e)
               = (Build_shr_record (Z.pos m) false false, e)).
  { unfold shr. destruct (fexp prec emax (Z.pos (digits2_pos m) + e) - e) eqn:E;
      [reflexivity|lia|reflexivity]. }
  rewrite Hs. cbn [shr_m loc_of_shr_record round_nearest_even Zdigits2 shr_record_of_loc].
  rewrite Hs. cbn [shr_m].
  destruct (Z.leb_spec e (emax - prec)); [reflexivity|lia].
Qed.

(** An exact mantissa ending in the [k] bits that have to go is
    shifted, and nothing is rounded. *)
Lemma binary_round_aux_shift (s : bool) (m : positive) (e k : Z) :
  0 < k ->
  fexp prec emax (Z.pos (digits2_pos m) + k + e) = e + k ->
  e + k <= emax - prec ->
  binary_round_aux prec emax s (Z.pos m * 2 ^ k) e loc_Exact = S754_finite s m (e + k).
Proof.
  intros Hk Hf He. unfold binary_round_aux, shr_fexp.
  rewrite Zdigits2_mul_pow2 by lia. rewrite Hf.
  replace (e + k - e) with k by lia. cbn [shr_record_of_loc].
  destruct k as [|k|k]; try lia.
  unfold shr at 1. rewrite iter_shr_1_exact by lia.
  cbn [shr_m loc_of_shr_record round_nearest_even Zdigits2 shr_record_of_loc].
  replace (Z.pos (digits2_pos m) + (e + Z.pos k)) with (Z.pos (digits2_pos m) + Z.pos k + e) by lia.
  rewrite Hf. replace (e + Z.pos k - (e + Z.pos k)) with 0 by lia.
  cbn [shr shr_m].
  destruct (Z.leb_spec (e + Z.pos k) (emax - prec)); [reflexivity|lia].
Qed.

(** Rounding a number that needs more bits: the mantissa is shifted
    left to the format's exponent. *)
Lemma binary_round_widen (s : bool) (m : positive) (e k : Z) :
  0 < k ->
  fexp prec emax (Z.pos (digits2_pos m) + e) = e - k ->
  e - k <= emax - prec ->
  binary_round prec emax s m e = S754_finite s (Z.to_pos (Z.pos m * 2 ^ k)) (e - k).
Proof.
  intros Hk Hf He. unfold binary_round, shl_align. rewrite Hf.
  replace (e - k - e) with (- k) by lia.
  destruct k as [|k|k]; try lia. cbn [Z.opp].
  rewrite <- pos_iter_xO. cbn [Z.to_pos].
  apply binary_round_aux_keep; [|exact He].
  rewrite digits2_pos_iter_xO.
  replace (Z.pos (digits2_pos m) + Z.pos k + (e - Z.pos k)) with (Z.pos (digits2_pos m) + e) by lia.
  rewrite Hf. lia.
Qed.

Lemma binary_round_keep (s : bool) (m : positive) (e : Z) :
  fexp prec emax (Z.pos (digits2_pos m) + e) = e ->
  e <= emax - prec ->
  binary_round prec emax s m e = S754_finite s m e.
Proof.
  intros Hf He. unfold binary_round, shl_align. rewrite Hf, Z.sub_diag.
  apply binary_round_aux_keep; [lia|exact He].
Qed.

(** Rounding a number whose low [k] bits are zero and have to go. *)
Lemma binary_round_narrow (s : bool) (m m' : positive) (e k : Z) :
  0 < k ->
  Z.pos m = Z.pos m' * 2 ^ k ->
  fexp prec emax (Z.pos (digits2_pos m) + e) = e + k ->
  e + k <= emax - prec ->
  binary_round prec emax s m e = S754_finite s m' (e + k).
Proof.
  intros Hk Hm Hf He. unfold binary_round, shl_align. rewrite Hf.
  replace (e + k - e) with k by lia.
  destruct k as [|k|k]; try lia.
  rewrite Hm. apply binary_round_aux_shift; [lia| |exact He].
  rewrite <- Hf. f_equal.
  pose proof (Zdigits2_mul_pow2 m' (Z.pos k) ltac:(lia)) as Hd.
  rewrite <- Hm in Hd. cbn [Zdigits2] in Hd. lia.
Qed.
End Rounding.

(** ** The formats *)

Lemma fexp32 (e : Z) : fexp F32.prec F32.emax e = Z.max (e - 24) (-149).
Proof. reflexivity. Qed.

Lemma fexp64 (e : Z) : fexp F64.prec F64.emax e = Z.max (e - 53) (-1074).
Proof. reflexivity. Qed.

(** A finite binary32 number has at most 24 digits and an exponent
    between -149 and 104; the exponent is -149 unless there are 24
    digits. *)
Lemma valid32_finite (s : bool) (m : positive) (e : Z) :
  F32.valid (S754_finite s m e) = true ->
  Z.pos (digits2_pos m) <= 24 /\ -149 <= e <= 104 /\
  (e = -149 \/ Z.pos (digits2_pos m) = 24).
Proof.
  unfold F32.valid, valid_binary, bounded, canonical_mantissa.
  rewrite andb_true_iff, Z.eqb_eq, Z.leb_le, fexp32.
  change (F32.emax - F32.prec) with 104. lia.
Qed.

Lemma pow2_pos (k : Z) : 0 <= k -> 0 < 2 ^ k.
Proof. intros Hk. apply Z.pow_pos_nonneg; lia. Qed.

Lemma pow2_split (a b : Z) : 0 <= b <= a -> 2 ^ a = 2 ^ (a - b) * 2 ^ b.
Proof. intros Hab. rewrite <- Z.pow_add_r by lia. f_equal. lia. Qed.

(** [float64(f)] keeps the value of a finite [float32]: the mantissa is
    widened to 53 digits. *)
Lemma float64_of_float32_finite (s : bool) (m : positive) (e : Z) :
  F32.valid (S754_finite s m e) = true ->
  let d := Z.pos (digits2_pos m) in
  float64_of_float32 (S754_finite s m e)
    = S754_finite s (Z.to_pos (Z.pos m * 2 ^ (53 - d))) (d + e - 53).
Proof.
  intros Hv d. apply valid32_finite in Hv. fold d in Hv.
  unfold float64_of_float32, round_to.
  replace (d + e - 53) with (e - (53 - d)) by lia.
  apply binary_round_widen; [lia| |change (F64.emax - F64.prec) with 971; lia].
  rewrite fexp64. fold d. lia.
Qed.

(** Multiplying and dividing a normal [float64] by 64 only moves its
    exponent. *)
Lemma mul64_sixty_four (s : bool) (m : positive) (e : Z) :
  Z.pos (digits2_pos m) = 53 -> -1080 <= e <= 965 ->
  F64.mul (S754_finite s m e) sixty_four = S754_finite s m (e + 6).
Proof.
  intros Hd He. unfold F64.mul, SFmul.
  change sixty_four with (S754_finite false 4503599627370496 (-46)).
  cbv iota beta. rewrite xorb_false_r.
  rewrite Pos2Z.inj_mul. change (Z.pos 4503599627370496) with (2 ^ 52).
  replace (e + 6) with (e + -46 + 52) by lia.
  apply binary_round_aux_shift; [lia| |change (F64.emax - F64.prec) with 971; lia].
  rewrite fexp64, Hd. lia.
Qed.

Lemma div64_sixty_four (s : bool) (m : positive) (e : Z) :
  Z.pos (digits2_pos m) = 53 -> -1067 <= e <= 970 ->
  F64.div (S754_finite s m e) sixty_four = S754_finite s m (e - 6).
Proof.
  intros Hd He. unfold F64.div, SFdiv.
  change sixty_four with (S754_finite false 4503599627370496 (-46)).
  cbv iota beta. rewrite xorb_false_r.
  unfold SFdiv_core_binary. cbn [Zdigits2]. rewrite Hd.
  change (Z.pos (digits2_pos 4503599627370496)) with 53.
  rewrite fexp64.
  replace (Z.min (Z.max (53 + e - (53 + -46) - 53) (-1074)) (e - -46)) with (e - 7) by lia.
  replace (e - -46 - (e - 7)) with 53 by lia.
  cbv iota beta.
  rewrite Z.shiftl_mul_pow2 by lia.
  change (Z.pos 4503599627370496) with (2 ^ 52).
  assert (Hq : Z.div_eucl (Z.pos m * 2 ^ 53) (2 ^ 52) = (Z.pos m * 2 ^ 1, 0)).
  { pose proof (Z.div_eucl_eq (Z.pos m * 2 ^ 53) (2 ^ 52) ltac:(lia)) as Heq.
    pose proof (Z.mod_pos_bound (Z.pos m * 2 ^ 53) (2 ^ 52) ltac:(lia)) as Hb.
    unfold Z.modulo in Hb.
    destruct (Z.div_eucl (Z.pos m * 2 ^ 53) (2 ^ 52)) as [q r].
    change (2 ^ 53) with (2 ^ 52 * 2) in Heq.
    f_equal; nia. }
  rewrite Hq. change (new_location (2 ^ 52) 0) with loc_Exact.
  replace (e - 6) with (e - 7 + 1) by lia.
  apply binary_round_aux_shift; [lia| |change (F64.emax - F64.prec) with 971; lia].
  rewrite fexp64, Hd. lia.
Qed.

(** [float64(i)] of a non-zero integer below 2^53 is exact. *)
Lemma float64_of_int_exact (s : bool) (n : positive) :
  let d := Z.pos (digits2_pos n) in
  d < 53 ->
  float64_of_int (cond_Zopp s (Z.pos n))
    = S754_finite s (Z.to_pos (Z.pos n * 2 ^ (53 - d))) (d - 53).
Proof.
  intros d Hd. unfold float64_of_int.
  assert (Hr : binary_round F64.prec F64.emax s n 0
               = S754_finite s (Z.to_pos (Z.pos n * 2 ^ (53 - d))) (d - 53)).
  { replace (d - 53) with (0 - (53 - d)) by lia.
    apply binary_round_widen; [lia| |change (F64.emax - F64.prec) with 971; lia].
    rewrite fexp64. fold d. lia. }
  destruct s; cbn [cond_Zopp Z.opp binary_normalize]; exact Hr.
Qed.

Lemma digits2_pos_widen (n : positive) (k : Z) :
  0 <= k ->
  Z.pos (digits2_pos (Z.to_pos (Z.pos n * 2 ^ k))) = Z.pos (digits2_pos n) + k.
Proof.
  intros Hk. pose proof (Zdigits2_mul_pow2 n k Hk) as Hd.
  pose proof (pow2_pos k Hk).
  destruct (Z.pos n * 2 ^ k) eqn:E; try lia. exact Hd.
Qed.

(** A 26.6 number that fits in 24 significant bits converts to the
    [float32] of the same value: [m'] is its mantissa brought to 24
    digits. *)
Lemma fixed266ToFloat32_exact (s : bool) (n m' : positive) :
  let d := Z.pos (digits2_pos n) in
  d <= 32 ->
  Z.pos n * 2 ^ (53 - d) = Z.pos m' * 2 ^ 29 ->
  fixed266ToFloat32 (cond_Zopp s (Z.pos n)) = S754_finite s m' (d - 30).
Proof.
  intros d Hd Hm.
  pose proof (Pos2Z.is_pos (digits2_pos n)) as Hdp. fold d in Hdp.
  unfold fixed266ToFloat32.
  rewrite float64_of_int_exact by (fold d; lia). fold d.
  assert (Hd53 : Z.pos (digits2_pos (Z.to_pos (Z.pos n * 2 ^ (53 - d)))) = 53).
  { rewrite digits2_pos_widen by lia. fold d. lia. }
  rewrite div64_sixty_four by (try exact Hd53; lia).
  unfold float32_of_float64, round_to.
  replace (d - 30) with (d - 53 - 6 + 29) by lia.
  apply binary_round_narrow; [lia| | |change (F32.emax - F32.prec) with 104; lia].
  - rewrite <- Hm. pose proof (pow2_pos (53 - d) ltac:(lia)).
    destruct (Z.pos n * 2 ^ (53 - d)) eqn:E; lia.
  - rewrite fexp32, Hd53. lia.
Qed.

Lemma fixed266ToFloat32_zero : fixed266ToFloat32 0 = S754_zero false.
Proof. reflexivity. Qed.

(** ** Values *)

Lemma cond_Zopp_mul (s : bool) (a b : Z) : cond_Zopp s (a * b) = cond_Zopp s a * b.
Proof. destruct s; cbn [cond_Zopp]; lia. Qed.

(** The value of a finite float as a fraction over [2 ^ K]. *)
Lemma SF2Q_finite_scaled (s : bool) (m : positive) (e K : Z) :
  0 <= K -> 0 <= e + K ->
  (SF2Q (S754_finite s m e) == cond_Zopp s (Z.pos m * 2 ^ (e + K)) # Z.to_pos (2 ^ K))%Q.
Proof.
  intros HK HeK. unfold SF2Q, Qeq. cbn [Qnum Qden inject_Z].
  pose proof (pow2_pos K HK) as HpK.
  rewrite (Z2Pos.id (2 ^ K)) by exact HpK.
  destruct (Z.leb_spec 0 e) as [He|He]; cbn [Qnum Qden].
  - unfold inject_Z. cbn [Qnum Qden].
    rewrite !cond_Zopp_mul, Z.pow_add_r by lia. lia.
  - pose proof (pow2_pos (- e) ltac:(lia)) as Hpe.
    rewrite (Z2Pos.id (2 ^ (- e))) by exact Hpe.
    rewrite !cond_Zopp_mul.
    rewrite (pow2_split K (e + K)) by lia.
    replace (K - (e + K)) with (- e) by lia. lia.
Qed.

(** ** The fixed-point round trip *)

(** [float32ToFixed266] of a finite [float32] is its value times 64
    with the fraction dropped: with the value [m * 2 ^ e] written over
    [2 ^ 149], the 64ths are counted by a division by [2 ^ 143]. *)
Lemma float32ToFixed266_finite (s : bool) (m : positive) (e : Z) :
  F32.valid (S754_finite s m e) = true ->
  let t := Z.pos m * 2 ^ (e + 149) / 2 ^ 143 in
  - 2 ^ 31 <= cond_Zopp s t < 2 ^ 31 ->
  float32ToFixed266 (S754_finite s m e) = cond_Zopp s t.
Proof.
  intros Hv t Ht. unfold float32ToFixed266.
  rewrite float64_of_float32_finite by exact Hv.
  apply valid32_finite in Hv. destruct Hv as [Hd [He _]].
  pose proof (Pos2Z.is_pos (digits2_pos m)) as Hdp.
  set (d := Z.pos (digits2_pos m)) in *.
  rewrite mul64_sixty_four by (try (rewrite digits2_pos_widen by lia; fold d); lia).
  unfold int_of_float, trunc_float.
  pose proof (pow2_pos (53 - d) ltac:(lia)) as Hpa.
  rewrite Z2Pos.id by lia.
  assert (Hin : (if 0 <=? d + e - 53 + 6
                 then Z.pos m * 2 ^ (53 - d) * 2 ^ (d + e - 53 + 6)
                 else Z.pos m * 2 ^ (53 - d) / 2 ^ (- (d + e - 53 + 6))) = t).
  { unfold t. destruct (Z.leb_spec 0 (d + e - 53 + 6)) as [Hc|Hc].
    - rewrite <- Z.mul_assoc, <- Z.pow_add_r by lia.
      replace (53 - d + (d + e - 53 + 6)) with (e + 6) by lia.
      replace (e + 149) with (e + 6 + 143) by lia.
      rewrite (Z.pow_add_r 2 (e + 6) 143), Z.mul_assoc by lia.
      rewrite Z.div_mul by lia. reflexivity.
    - rewrite <- (Z.div_mul_cancel_r (Z.pos m * 2 ^ (53 - d)) (2 ^ (- (d + e - 53 + 6)))
                    (2 ^ (e + 149))) by (pose proof (pow2_pos (e + 149) ltac:(lia));
                                         pose proof (pow2_pos (- (d + e - 53 + 6)) ltac:(lia)); lia).
      rewrite <- Z.pow_add_r by lia.
      replace (- (d + e - 53 + 6) + (e + 149)) with (143 + (53 - d)) by lia.
      rewrite (Z.pow_add_r 2 143) by lia.
      replace (Z.pos m * 2 ^ (53 - d) * 2 ^ (e + 149))
        with (Z.pos m * 2 ^ (e + 149) * 2 ^ (53 - d)) by lia.
      apply Z.div_mul_cancel_r; lia. }
  rewrite Hin.
  destruct (Z.leb_spec (- 2 ^ (32 - 1)) (cond_Zopp s t)); [|change (2 ^ (32 - 1)) with (2 ^ 31) in *; lia].
  destruct (Z.ltb_spec (cond_Zopp s t) (2 ^ (32 - 1))); [|change (2 ^ (32 - 1)) with (2 ^ 31) in *; lia].
  reflexivity.
Qed.

(** The 64ths counted by [float32ToFixed266] fit in 24 significant
    bits, so [fixed266ToFloat32] converts them back without rounding. *)
Lemma fixed266ToFloat32_of_trunc (s : bool) (m : positive) (e : Z) (n : positive) :
  F32.valid (S754_finite s m e) = true ->
  Z.pos n = Z.pos m * 2 ^ (e + 149) / 2 ^ 143 ->
  Z.pos n <= 2 ^ 31 ->
  exists m' : positive,
    fixed266ToFloat32 (cond_Zopp s (Z.pos n))
      = S754_finite s m' (Z.pos (digits2_pos n) - 30) /\
    Z.pos m' * 2 ^ (Z.pos (digits2_pos n) + 119) = Z.pos n * 2 ^ 143.
Proof.
  intros Hv Hn Hn31.
  apply valid32_finite in Hv. destruct Hv as [Hd [He _]].
  pose proof (Pos2Z.is_pos (digits2_pos m)) as Hdp.
  pose proof (Pos2Z.is_pos (digits2_pos n)) as Hdnp.
  pose proof (digits2_pos_bounds m) as [Hmlo Hmhi].
  pose proof (digits2_pos_bounds n) as [Hnlo Hnhi].
  set (d := Z.pos (digits2_pos m)) in *.
  set (dn := Z.pos (digits2_pos n)) in *.
  assert (Hdn32 : dn <= 32).
  { destruct (Z_le_gt_dec dn 32) as [|Hgt]; [assumption|].
    assert (2 ^ 32 <= 2 ^ (dn - 1)) by (apply Z.pow_le_mono_r; lia). lia. }
  assert (Hex : exists m' : positive, Z.pos n * 2 ^ (53 - dn) = Z.pos m' * 2 ^ 29).
  { destruct (Z_le_gt_dec 0 (e + 6)) as [He6|He6].
    - (* the value is a whole number of 64ths *)
      assert (Hn' : Z.pos n = Z.pos m * 2 ^ (e + 6)).
      { rewrite Hn. replace (e + 149) with (e + 6 + 143) by lia.
        rewrite (Z.pow_add_r 2 (e + 6) 143), Z.mul_assoc by lia. apply Z.div_mul. lia. }
      assert (Hdn : dn = d + (e + 6)).
      { pose proof (Zdigits2_mul_pow2 m (e + 6) He6) as Hz.
        rewrite <- Hn' in Hz. exact Hz. }
      exists (Z.to_pos (Z.pos m * 2 ^ (24 - d))).
      pose proof (pow2_pos (24 - d) ltac:(lia)).
      rewrite Z2Pos.id by lia.
      rewrite Hn', Hdn.
      rewrite <- !Z.mul_assoc, <- !Z.pow_add_r by lia. do 2 f_equal. lia.
    - (* fewer than 24 bits are left *)
      assert (Hle : Z.pos n <= Z.pos m).
      { rewrite Hn. replace 143 with (- (e + 6) + (e + 149)) by lia.
        rewrite (Z.pow_add_r 2 (- (e + 6))) by lia.
        rewrite Z.div_mul_cancel_r
          by (pose proof (pow2_pos (e + 149) ltac:(lia));
              pose proof (pow2_pos (- (e + 6)) ltac:(lia)); lia).
        apply Z.div_le_upper_bound; [apply pow2_pos; lia|].
        pose proof (pow2_pos (- (e + 6)) ltac:(lia)). nia. }
      assert (Hdn24 : dn <= 24).
      { destruct (Z_le_gt_dec dn 24) as [|Hgt]; [assumption|].
        assert (2 ^ 24 <= 2 ^ (dn - 1)) by (apply Z.pow_le_mono_r; lia).
        assert (2 ^ d <= 2 ^ 24) by (apply Z.pow_le_mono_r; lia). lia. }
      exists (Z.to_pos (Z.pos n * 2 ^ (24 - dn))).
      pose proof (pow2_pos (24 - dn) ltac:(lia)).
      rewrite Z2Pos.id by lia.
      rewrite <- !Z.mul_assoc, <- !Z.pow_add_r by lia. do 2 f_equal. lia. }
  destruct Hex as [m' Hm']. exists m'. split.
  - apply fixed266ToFloat32_exact; [exact Hdn32 | exact Hm'].
  - replace (dn + 119) with (29 + (dn + 90)) by lia.
    rewrite Z.pow_add_r, Z.mul_assoc, <- Hm' by lia.
    rewrite <- Z.mul_assoc, <- Z.pow_add_r by lia. do 2 f_equal. lia.
Qed.

Lemma Qabs_diff_le (a b : Z) (D : positive) :
  64 * Z.abs (a - b) <= Z.pos D ->
  (Qabs ((a # D) - (b # D)) <= 1 # 64)%Q.
Proof.
  intros Hab. unfold Qminus, Qplus, Qopp, Qabs, Qle. cbn [Qnum Qden].
  replace (a * Z.pos D + - b * Z.pos D) with ((a - b) * Z.pos D) by lia.
  rewrite Z.abs_mul, (Z.abs_eq (Z.pos D)) by lia.
  rewrite Pos2Z.inj_mul. nia.
Qed.

(** C9. For every finite [float32] pixel value [v] in the range of the
    26.6 format, -2^25 <= v < 2^25, converting to 26.6 fixed point and
    back yields a finite [float32] within 1/64 of [v]. *)
Theorem fixed266_round_trip (v : spec_float) :
  F32.valid v = true ->
  is_finite v = true ->
  (- inject_Z (2 ^ 25) <= SF2Q v)%Q ->
  (SF2Q v < inject_Z (2 ^ 25))%Q ->
  is_finite (fixed266ToFloat32 (float32ToFixed266 v)) = true /\
  (Qabs (SF2Q (fixed266ToFloat32 (float32ToFixed266 v)) - SF2Q v) <= 1 # 64)%Q.
Proof.
  intros Hv Hfin Hlo Hhi.
  destruct v as [s|s| |s m e]; try discriminate.
  - destruct s; split; [reflexivity|vm_compute; discriminate|reflexivity|vm_compute; discriminate].
  - pose proof (valid32_finite s m e Hv) as [Hd [He _]].
    pose proof (SF2Q_finite_scaled s m e 149 ltac:(lia) ltac:(lia)) as Hq.
    set (P := Z.pos m * 2 ^ (e + 149)) in *.
    assert (HP : 0 < P) by (pose proof (pow2_pos (e + 149) ltac:(lia)); unfold P; lia).
    rewrite Hq in Hlo, Hhi.
    unfold Qle, Qlt, Qopp, inject_Z in Hlo, Hhi. cbn [Qnum Qden] in Hlo, Hhi.
    rewrite (Z2Pos.id (2 ^ 149)) in Hlo, Hhi by lia.
    pose proof (Z.div_mod P (2 ^ 143) ltac:(lia)) as Hdm.
    pose proof (Z.mod_pos_bound P (2 ^ 143) ltac:(lia)) as Hr.
    set (t := P / 2 ^ 143) in *. set (r := P mod 2 ^ 143) in *.
    change (2 ^ 149) with (2 ^ 6 * 2 ^ 143) in Hlo, Hhi.
    assert (Ht0 : 0 <= t) by (apply Z.div_pos; lia).
    assert (Ht : - 2 ^ 31 <= cond_Zopp s t < 2 ^ 31).
    { destruct s; cbn [cond_Zopp] in *; lia. }
    rewrite (float32ToFixed266_finite s m e Hv Ht). fold P t.
    destruct t as [|n|n] eqn:Et; [| |lia].
    + (* less than one 64th *)
      replace (cond_Zopp s 0) with 0 by (destruct s; reflexivity).
      rewrite fixed266ToFloat32_zero. split; [reflexivity|].
      assert (Hz : (SF2Q (S754_zero false) == 0 # Z.to_pos (2 ^ 149))%Q)
        by (unfold Qeq; reflexivity).
      rewrite Hq, Hz.
      apply Qabs_diff_le. rewrite (Z2Pos.id (2 ^ 149)) by lia.
      change (2 ^ 149) with (2 ^ 6 * 2 ^ 143).
      destruct s; cbn [cond_Zopp]; lia.
    + destruct (fixed266ToFloat32_of_trunc s m e n Hv) as [m' [Hrt Hm']].
      { fold P. unfold t in Et. lia. }
      { destruct s; cbn [cond_Zopp] in Ht; lia. }
      rewrite Hrt. split; [reflexivity|].
      pose proof (Pos2Z.is_pos (digits2_pos n)) as Hdn.
      rewrite Hq.
      rewrite (SF2Q_finite_scaled s m' (Z.pos (digits2_pos n) - 30) 149) by lia.
      replace (Z.pos (digits2_pos n) - 30 + 149) with (Z.pos (digits2_pos n) + 119) by lia.
      rewrite Hm'.
      apply Qabs_diff_le. rewrite (Z2Pos.id (2 ^ 149)) by lia.
      change (2 ^ 149) with (2 ^ 6 * 2 ^ 143).
      destruct s; cbn [cond_Zopp]; lia.
Qed.

(** C9, at the pixel value 3.3 (the [float32] nearest to it). *)
Lemma fixed266_round_trip_witness :
  F32.valid (S754_finite false 13841203 (-22)) = true /\
  (Qabs (SF2Q (fixed266ToFloat32 (float32ToFixed266 (S754_finite false 13841203 (-22))))
         - SF2Q (S754_finite false 13841203 (-22))) <= 1 # 64)%Q.
Proof.
  split; [reflexivity|].
  apply fixed266_round_trip;
    [reflexivity | reflexivity | vm_compute; discriminate | vm_compute; reflexivity].
Defined.

(** ** Numbers on a binary grid *)

Lemma pow2_inj_mul (x y p q : Z) :
  0 <= p -> 0 <= q -> 0 < x -> x * 2 ^ p = y * 2 ^ q -> p <= q -> y * 2 ^ (q - p) = x.
Proof.
  intros Hp Hq Hx Heq Hpq.
  rewrite (pow2_split q p) in Heq by lia.
  pose proof (pow2_pos p Hp). nia.
Qed.

(** A valid [float32] is determined by its value. *)
Lemma valid32_grid (s : bool) (m : positive) (e : Z) (a : positive) (g : Z) :
  F32.valid (S754_finite s m e) = true ->
  0 <= g <= 126 ->
  Z.pos (digits2_pos a) <= 24 ->
  (SF2Q (S754_finite s m e) == Z.pos a # Z.to_pos (2 ^ g))%Q ->
  S754_finite s m e = grid32 a g.
Proof.
  intros Hv Hg Hda Hq.
  pose proof (valid32_finite s m e Hv) as [Hd [He Hc]].
  rewrite (SF2Q_finite_scaled s m e 149) in Hq by lia.
  unfold Qeq in Hq. cbn [Qnum Qden] in Hq.
  pose proof (pow2_pos g ltac:(lia)) as Hpg.
  pose proof (pow2_pos (e + 149) ltac:(lia)) as Hpe.
  rewrite !Z2Pos.id in Hq by (try apply pow2_pos; lia).
  destruct s; cbn [cond_Zopp] in Hq; [nia|].
  pose proof (Pos2Z.is_pos (digits2_pos a)) as Hdap.
  pose proof (Pos2Z.is_pos (digits2_pos m)) as Hdmp.
(* both sides have the same number of digits *)
assert (Hdig : Z.pos (digits2_pos m) + (e + 149 + g) = Z.pos (digits2_pos a) + 149).
{ rewrite <- (Zdigits2_mul_pow2 m (e + 149 + g)) by lia.
  rewrite <- (Zdigits2_mul_pow2 a 149) by lia.
  f_equal. rewrite Z.pow_add_r by lia. lia. }
unfold F32.valid, valid_binary, bounded, canonical_mantissa in Hv.
rewrite andb_true_iff, Z.eqb_eq, fexp32 in Hv. destruct Hv as [Hcan _].
assert (He' : e = Z.pos (digits2_pos a) - 24 - g) by lia.
assert (Hm : Z.pos m = Z.pos a * 2 ^ (24 - Z.pos (digits2_pos a))).
{ rewrite <- Z.mul_assoc, <- Z.pow_add_r in Hq by lia.
  symmetry. apply (pow2_inj_mul (Z.pos m) (Z.pos a) (e + 149 + g) 149) in Hq; try lia.
  rewrite <- Hq. do 2 f_equal. lia. }
unfold grid32. rewrite <- Hm, <- He'. reflexivity.
Qed.

Lemma grid32_digits (a : positive) :
  Z.pos (digits2_pos a) <= 24 ->
  Z.pos (digits2_pos (Z.to_pos (Z.pos a * 2 ^ (24 - Z.pos (digits2_pos a))))) = 24.
Proof. intros Hd. rewrite digits2_pos_widen by lia. lia. Qed.

Lemma grid32_mantissa (a : positive) :
  Z.pos (digits2_pos a) <= 24 ->
  Z.pos (Z.to_pos (Z.pos a * 2 ^ (24 - Z.pos (digits2_pos a))))
    = Z.pos a * 2 ^ (24 - Z.pos (digits2_pos a)).
Proof.
  intros Hd. pose proof (pow2_pos (24 - Z.pos (digits2_pos a)) ltac:(lia)).
  apply Z2Pos.id. lia.
Qed.

(** The value of a grid number. *)
Lemma grid32_value (a : positive) (g : Z) :
  0 <= g <= 126 -> Z.pos (digits2_pos a) <= 24 ->
  (SF2Q (grid32 a g) == Z.pos a # Z.to_pos (2 ^ g))%Q.
Proof.
  intros Hg Hd. unfold grid32.
  pose proof (Pos2Z.is_pos (digits2_pos a)) as Hdap.
  rewrite (SF2Q_finite_scaled _ _ _ 149) by lia.
  unfold Qeq. cbn [Qnum Qden cond_Zopp].
  rewrite grid32_mantissa by exact Hd.
  rewrite !Z2Pos.id by (apply pow2_pos; lia).
  rewrite <- !Z.mul_assoc, <- !Z.pow_add_r by lia. do 2 f_equal. lia.
Qed.

(** Rounding to [float32] a number [n * 2 ^ t * 2 ^ e] whose odd part
    [n] has at most 24 digits is exact. *)
Lemma binary_round32_grid (s : bool) (m n : positive) (t e : Z) :
  0 <= t ->
  Z.pos m = Z.pos n * 2 ^ t ->
  let d := Z.pos (digits2_pos n) in
  d <= 24 ->
  -149 <= d + t + e - 24 <= 104 ->
  binary_round F32.prec F32.emax s m e
    = S754_finite s (Z.to_pos (Z.pos n * 2 ^ (24 - d))) (d + t + e - 24).
Proof.
  intros Ht Hm d Hd He.
  pose proof (Pos2Z.is_pos (digits2_pos n)) as Hdp. fold d in Hdp.
  assert (Hdm : Z.pos (digits2_pos m) = d + t).
  { pose proof (Zdigits2_mul_pow2 n t Ht) as Hz. rewrite <- Hm in Hz. exact Hz. }
  assert (Hf : fexp F32.prec F32.emax (Z.pos (digits2_pos m) + e) = d + t + e - 24).
  { rewrite fexp32, Hdm. lia. }
  pose proof (pow2_pos (24 - d) ltac:(lia)) as Hp24.
  destruct (Z.lt_trichotomy (d + t) 24) as [Hlt|[Heq|Hgt]].
  - (* too few digits: widen *)
    replace (d + t + e - 24) with (e - (24 - (d + t))) in * by lia.
    rewrite (binary_round_widen F32.prec F32.emax s m e (24 - (d + t)))
      by (try exact Hf; change (F32.emax - F32.prec) with 104; lia).
    do 2 f_equal. rewrite Hm, <- Z.mul_assoc, <- Z.pow_add_r by lia. do 2 f_equal. lia.
  - replace (d + t + e - 24) with e in * by lia.
    rewrite (binary_round_keep F32.prec F32.emax s m e)
      by (try exact Hf; change (F32.emax - F32.prec) with 104; lia).
    replace (24 - d) with t by lia. rewrite <- Hm. reflexivity.
  - replace (d + t + e - 24) with (e + (d + t - 24)) in * by lia.
    apply binary_round_narrow;
      [lia| |exact Hf|change (F32.emax - F32.prec) with 104; lia].
    rewrite Z2Pos.id by lia.
    rewrite Hm, <- Z.mul_assoc, <- Z.pow_add_r by lia. do 2 f_equal. lia.
Qed.

Lemma shl_align_fst (m : positive) (e e' : Z) :
  e' <= e -> Z.pos (fst (shl_align m e e')) = Z.pos m * 2 ^ (e - e').
Proof.
  intros He. unfold shl_align.
  destruct (e' - e) as [|p|p] eqn:E; cbn [fst].
  - replace (e - e') with 0 by lia. lia.
  - lia.
  - rewrite pos_iter_xO. do 2 f_equal. lia.
Qed.

(** The sum of two grid numbers that fits in 24 digits is computed
    exactly. *)
Lemma add32_grid (a b : positive) (g : Z) :
  0 <= g <= 126 ->
  Z.pos (digits2_pos (a + b)) <= 24 ->
  F32.add (grid32 a g) (grid32 b g) = grid32 (a + b) g.
Proof.
  intros Hg Hd.
  pose proof (digits2_pos_bounds a) as [Halo Hahi].
  pose proof (digits2_pos_bounds b) as [Hblo Hbhi].
  pose proof (digits2_pos_bounds (a + b)) as [Hnlo Hnhi].
  pose proof (Pos2Z.is_pos (digits2_pos a)) as Hdap.
  pose proof (Pos2Z.is_pos (digits2_pos b)) as Hdbp.
  pose proof (Pos2Z.is_pos (digits2_pos (a + b))) as Hdnp.
  set (da := Z.pos (digits2_pos a)) in *.
  set (db := Z.pos (digits2_pos b)) in *.
  set (dn := Z.pos (digits2_pos (a + b))) in *.
  assert (Hda : da <= dn).
  { destruct (Z_le_gt_dec da dn); [assumption|].
    assert (2 ^ dn <= 2 ^ (da - 1)) by (apply Z.pow_le_mono_r; lia). lia. }
  assert (Hdb : db <= dn).
  { destruct (Z_le_gt_dec db dn); [assumption|].
    assert (2 ^ dn <= 2 ^ (db - 1)) by (apply Z.pow_le_mono_r; lia). lia. }
  unfold F32.add, grid32, SFadd. fold da db dn.
  set (ez := Z.min (da - 24 - g) (db - 24 - g)).
  rewrite !shl_align_fst by lia. cbn [cond_Zopp].
  rewrite !Z2Pos.id by (apply Z.mul_pos_pos; [lia|apply pow2_pos; lia]).
  rewrite <- !Z.mul_assoc, <- !Z.pow_add_r by lia.
  replace (24 - da + (da - 24 - g - ez)) with (- g - ez) by lia.
  replace (24 - db + (db - 24 - g - ez)) with (- g - ez) by lia.
  rewrite <- Z.mul_add_distr_r.
  pose proof (pow2_pos (- g - ez) ltac:(lia)) as Hpt.
  change (Z.pos a + Z.pos b) with (Z.pos (a + b)).
  destruct (Z.pos (a + b) * 2 ^ (- g - ez)) as [|M|M] eqn:EM; try lia.
  cbn [binary_normalize].
  rewrite (binary_round32_grid false M (a + b) (- g - ez) ez) by (fold dn; lia).
  fold dn. f_equal. lia.
Qed.

(** ** Rounding in general: the result is one of the two neighbours *)

Lemma shr_1_m (r : shr_record) : 0 <= shr_m r -> shr_m (shr_1 r) = shr_m r / 2.
Proof.
  destruct r as [m r s]. cbn [shr_m]. intros Hm.
  destruct m as [|[p|p|]|p]; cbn [shr_1 shr_m]; try lia.
  - reflexivity.
  - rewrite Pos2Z.inj_xI. apply Z.div_unique with (r := 1); lia.
  - rewrite Pos2Z.inj_xO. apply Z.div_unique with (r := 0); lia.
  - reflexivity.
Qed.

Lemma iter_shr_1_m (k : positive) (r : shr_record) :
  0 <= shr_m r -> shr_m (SpecFloat.iter_pos shr_1 k r) = shr_m r / 2 ^ Z.pos k.
Proof.
  intros Hm. rewrite iter_pos_iter.
  induction k as [|k IH] using Pos.peano_ind.
  - cbn [Pos.iter]. apply shr_1_m, Hm.
  - rewrite Pos.iter_succ, shr_1_m.
    + rewrite IH, Pos2Z.inj_succ, Z.pow_succ_r by lia.
      rewrite Z.div_div by (try apply pow2_pos; lia). f_equal. lia.
    + rewrite IH. apply Z.div_pos; [exact Hm|apply pow2_pos; lia].
Qed.

Lemma round_nearest_even_bounds (m : Z) (l : location) :
  m <= round_nearest_even m l <= m + 1.
Proof.
  unfold round_nearest_even.
  destruct l as [|[| |]]; try destruct (Z.even m); lia.
Qed.

Lemma shr_m_of_loc (m : Z) (l : location) : shr_m (shr_record_of_loc m l) = m.
Proof. destruct l as [|[| |]]; reflexivity. Qed.

(** Rounding to [float32] a positive mantissa [q] of at least 24 digits
    at exponent [e], whatever the position of the exact value between [q]
    and [q + 1]: with [k] the digits in excess, the result is
    [q / 2 ^ k] or its successor, at exponent [e + k]. *)
Lemma binary_round_aux32_bracket (s : bool) (q e : Z) (l : location) :
  0 < q ->
  let k := Zdigits2 q - 24 in
  0 <= k ->
  -149 <= e + k <= 103 ->
  exists (mr : positive) (er : Z),
    binary_round_aux F32.prec F32.emax s q e l = S754_finite s mr er /\
    Z.pos (digits2_pos mr) = 24 /\
    e + k <= er <= e + k + 1 /\
    q / 2 ^ k <= Z.pos mr * 2 ^ (er - (e + k)) <= q / 2 ^ k + 1.
Proof.
  intros Hq k Hk He.
  destruct q as [|qp|qp]; try lia.
  pose proof (digits2_pos_bounds qp) as [Hqlo Hqhi].
  cbn [Zdigits2] in k.
  set (dq := Z.pos (digits2_pos qp)) in *.
  assert (Hpk : 0 < 2 ^ k) by (apply pow2_pos; lia).
  set (Q1 := Z.pos qp / 2 ^ k).
  assert (HQ1 : 2 ^ 23 <= Q1 < 2 ^ 24).
  { unfold Q1. split.
    - apply Z.div_le_lower_bound; [lia|].
      rewrite Z.mul_comm, <- Z.pow_add_r by lia.
      replace (23 + k) with (dq - 1) by lia. exact Hqlo.
    - apply Z.div_lt_upper_bound; [lia|].
      rewrite <- Z.pow_add_r by lia.
      replace (k + 24) with dq by lia. exact Hqhi. }
  unfold binary_round_aux.
  assert (Hs1 : exists r1, shr_fexp F32.prec F32.emax (Z.pos qp) e l = (r1, e + k) /\ shr_m r1 = Q1).
  { unfold shr_fexp. cbn [Zdigits2]. rewrite fexp32. fold dq.
    replace (Z.max (dq + e - 24) (-149) - e) with k by lia.
    unfold shr. destruct k as [|kp|kp] eqn:Ek; try lia.
    - eexists. split; [rewrite Z.add_0_r; reflexivity|].
      rewrite shr_m_of_loc. unfold Q1. rewrite Z.pow_0_r, Z.div_1_r. reflexivity.
    - eexists. split; [reflexivity|].
      rewrite iter_shr_1_m by (rewrite shr_m_of_loc; lia).
      rewrite shr_m_of_loc. reflexivity. }
  destruct Hs1 as [r1 [Hs1 Hm1]]. rewrite Hs1, Hm1.
  pose proof (round_nearest_even_bounds Q1 (loc_of_shr_record r1)) as HQ2.
  set (Q2 := round_nearest_even Q1 (loc_of_shr_record r1)) in *.
  destruct Q2 as [|Q2p|Q2p] eqn:EQ2; try lia.
  destruct (Z_lt_le_dec (Z.pos Q2p) (2 ^ 24)) as [Hlt|Hge].
  - (* no carry into a 25th digit *)
    assert (Hd2 : Z.pos (digits2_pos Q2p) = 24) by (apply digits2_pos_unique; lia).
    unfold shr_fexp. cbn [Zdigits2 shr_record_of_loc]. rewrite Hd2, fexp32.
    replace (Z.max (24 + (e + k) - 24) (-149) - (e + k)) with 0 by lia.
    cbn [shr shr_m].
    destruct (Z.leb_spec (e + k) (F32.emax - F32.prec)) as [_|Hc];
      [|change (F32.emax - F32.prec) with 104 in Hc; lia].
    exists Q2p, (e + k). split; [reflexivity|]. split; [exact Hd2|]. split; [lia|].
    rewrite Z.sub_diag, Z.pow_0_r. lia.
  - assert (HQ2e : Z.pos Q2p = 2 ^ 24) by lia.
    assert (Hd2 : Z.pos (digits2_pos Q2p) = 25) by (apply digits2_pos_unique; lia).
    unfold shr_fexp. cbn [Zdigits2 shr_record_of_loc]. rewrite Hd2, fexp32.
    replace (Z.max (25 + (e + k) - 24) (-149) - (e + k)) with 1 by lia.
    rewrite HQ2e. change (2 ^ 24) with (2 ^ 23 * 2 ^ 1).
    unfold shr. rewrite iter_shr_1_exact by lia. cbn [shr_m].
    change (2 ^ 23) with (Z.pos 8388608).
    destruct (Z.leb_spec (e + k + 1) (F32.emax - F32.prec)) as [_|Hc];
      [|change (F32.emax - F32.prec) with 104 in Hc; lia].
    exists 8388608%positive, (e + k + 1). split; [reflexivity|].
    split; [reflexivity|]. split; [lia|].
    replace (e + k + 1 - (e + k)) with 1 by lia.
    change (Z.pos 8388608 * 2 ^ 1) with (2 ^ 24). lia.
Qed.

Lemma valid32_normal (s : bool) (m : positive) (e : Z) :
  Z.pos (digits2_pos m) = 24 -> -149 <= e <= 104 ->
  F32.valid (S754_finite s m e) = true.
Proof.
  intros Hd He. unfold F32.valid, valid_binary, bounded, canonical_mantissa.
  rewrite andb_true_iff, Z.eqb_eq, Z.leb_le, fexp32, Hd.
  change (F32.emax - F32.prec) with 104. lia.
Qed.

Lemma digits2_pos_le (a : positive) (d : Z) :
  Z.pos a < 2 ^ d -> Z.pos (digits2_pos a) <= d.
Proof.
  intros Ha. pose proof (digits2_pos_bounds a) as [Hlo _].
  destruct (Z_le_gt_dec (Z.pos (digits2_pos a)) d) as [|Hgt]; [assumption|].
  assert (2 ^ d <= 2 ^ (Z.pos (digits2_pos a) - 1)).
  { destruct (Z_lt_le_dec d 0); [rewrite Z.pow_neg_r by assumption; apply Z.pow_nonneg; lia|].
    apply Z.pow_le_mono_r; lia. }
  lia.
Qed.

(** The quotient of two grid numbers, rounded to [float32], has the
    integer part of the exact quotient: rounding does not reach the next
    integer as long as the dividend is at most [2 ^ 22] grid units. *)
Lemma div32_grid_trunc (n b : positive) (g : Z) :
  (b <= n)%positive -> Z.pos n <= 2 ^ 22 ->
  exists (mr : positive) (er : Z),
    F32.div (grid32 n g) (grid32 b g) = S754_finite false mr er /\
    Z.pos (digits2_pos mr) = 24 /\
    -50 <= er <= 0 /\
    Z.pos mr / 2 ^ (- er) = Z.pos n / Z.pos b.
Proof.
  intros Hbn Hn.
  assert (Hdn : Z.pos (digits2_pos n) <= 23) by (apply digits2_pos_le; lia).
  assert (Hdb : Z.pos (digits2_pos b) <= Z.pos (digits2_pos n)).
  { apply digits2_pos_le. pose proof (digits2_pos_bounds n) as [_ Hhi]. lia. }
  pose proof (Pos2Z.is_pos (digits2_pos n)) as Hdnp.
  pose proof (Pos2Z.is_pos (digits2_pos b)) as Hdbp.
  unfold F32.div, grid32, SFdiv. cbn [xorb].
  unfold SFdiv_core_binary. cbn [Zdigits2].
  rewrite !grid32_digits, !grid32_mantissa by lia.
  set (dn := Z.pos (digits2_pos n)) in *. set (db := Z.pos (digits2_pos b)) in *.
  rewrite fexp32.
  replace (Z.min (Z.max (24 + (dn - 24 - g) - (24 + (db - 24 - g)) - 24) (-149))
             (dn - 24 - g - (db - 24 - g))) with (dn - db - 24) by lia.
  replace (dn - 24 - g - (db - 24 - g) - (dn - db - 24)) with 24 by lia.
  cbv iota beta. rewrite Z.shiftl_mul_pow2 by lia.
  set (c := 24 + db - dn).
  pose proof (pow2_pos (24 - dn) ltac:(lia)) as Hp1.
  pose proof (pow2_pos (24 - db) ltac:(lia)) as Hp2.
  pose proof (pow2_pos c ltac:(lia)) as Hpc.
(* the quotient of the mantissas is that of the numbers, scaled *)
assert (Hnum : Z.pos n * 2 ^ (24 - dn) * 2 ^ 24 = Z.pos n * 2 ^ c * 2 ^ (24 - db)).
{ rewrite <- !Z.mul_assoc, <- !Z.pow_add_r by lia. do 2 f_equal. lia. }
rewrite Hnum.
pose proof (Z.div_eucl_eq (Z.pos n * 2 ^ c * 2 ^ (24 - db)) (Z.pos b * 2 ^ (24 - db)) ltac:(lia)) as Heq.
pose proof (Z.mod_pos_bound (Z.pos n * 2 ^ c * 2 ^ (24 - db)) (Z.pos b * 2 ^ (24 - db)) ltac:(lia)) as Hrb.
assert (Hqd : fst (Z.div_eucl (Z.pos n * 2 ^ c * 2 ^ (24 - db)) (Z.pos b * 2 ^ (24 - db)))
              = Z.pos n * 2 ^ c / Z.pos b).
{ change (fst (Z.div_eucl ?x ?y)) with (x / y).
  apply Z.div_mul_cancel_r; lia. }
unfold Z.modulo in Hrb.
destruct (Z.div_eucl (Z.pos n * 2 ^ c * 2 ^ (24 - db)) (Z.pos b * 2 ^ (24 - db))) as [q r].
cbn [fst] in Hqd. clear Heq Hrb Hnum.
pose proof (digits2_pos_bounds n) as [Hnlo Hnhi]. fold dn in Hnlo, Hnhi.
pose proof (digits2_pos_bounds b) as [Hblo Hbhi]. fold db in Hblo, Hbhi.
(* it has 24 or 25 digits *)
assert (Hq : 2 ^ 23 <= q < 2 ^ 25).
{ rewrite Hqd. split.
  - apply Z.div_le_lower_bound; [lia|].
    assert (Z.pos b * 2 ^ 23 <= 2 ^ db * 2 ^ 23) by nia.
    assert (2 ^ (dn - 1) * 2 ^ c <= Z.pos n * 2 ^ c) by nia.
    rewrite <- Z.pow_add_r in * by lia.
    replace (dn - 1 + c) with (db + 23) in * by lia. lia.
  - apply Z.div_lt_upper_bound; [lia|].
    assert (Z.pos n * 2 ^ c < 2 ^ dn * 2 ^ c) by nia.
    assert (2 ^ (db - 1) * 2 ^ 25 <= Z.pos b * 2 ^ 25) by nia.
    rewrite <- Z.pow_add_r in * by lia.
    replace (db - 1 + 25) with (dn + c) in * by lia. lia. }
destruct q as [|qp|qp]; try lia.
assert (Hdq : 24 <= Z.pos (digits2_pos qp) <= 25).
{ split.
  - pose proof (digits2_pos_bounds qp) as [_ Hhi].
    destruct (Z_le_gt_dec 24 (Z.pos (digits2_pos qp))); [assumption|].
    assert (2 ^ Z.pos (digits2_pos qp) <= 2 ^ 23) by (apply Z.pow_le_mono_r; lia). lia.
  - apply digits2_pos_le. lia. }
destruct (binary_round_aux32_bracket false (Z.pos qp) (dn - db - 24) (new_location (Z.pos b * 2 ^ (24 - db)) r))
  as [mr [er [Hres [Hdr [Her Hbr]]]]]; cbn [Zdigits2]; try lia.
cbn [Zdigits2] in Her, Hbr.
set (k := Z.pos (digits2_pos qp) - 24) in *.
exists mr, er. split; [exact Hres|]. split; [exact Hdr|].
assert (Hc2 : 2 <= c) by (unfold c; lia).
split; [unfold c in *; lia|].
(* the mantissa kept by the rounding *)
set (j := c - k).
assert (Hj : 1 <= j) by (unfold j; lia).
pose proof (pow2_pos j ltac:(lia)) as Hpj.
pose proof (pow2_pos k ltac:(lia)) as Hpk.
assert (HQ1 : Z.pos qp / 2 ^ k = Z.pos n * 2 ^ j / Z.pos b).
{ rewrite Hqd, Z.div_div by lia.
  replace c with (j + k) by (unfold j; lia).
  rewrite Z.pow_add_r, Z.mul_assoc by lia.
  apply Z.div_mul_cancel_r; lia. }
set (Q1 := Z.pos qp / 2 ^ k) in *.
assert (HQ1b : 2 ^ 23 <= Q1 < 2 ^ 24).
{ pose proof (digits2_pos_bounds qp) as [Hlo Hhi]. unfold Q1. split.
  - apply Z.div_le_lower_bound; [lia|].
    rewrite Z.mul_comm, <- Z.pow_add_r by lia.
    replace (23 + k) with (Z.pos (digits2_pos qp) - 1) by (unfold k; lia). exact Hlo.
  - apply Z.div_lt_upper_bound; [lia|].
    rewrite <- Z.pow_add_r by lia.
    replace (k + 24) with (Z.pos (digits2_pos qp)) by (unfold k; lia). exact Hhi. }
set (i := Z.pos n / Z.pos b).
pose proof (Z.div_mod (Z.pos n) (Z.pos b) ltac:(lia)) as Hdm.
pose proof (Z.mod_pos_bound (Z.pos n) (Z.pos b) ltac:(lia)) as Hmb.
fold i in Hdm. set (rem := Z.pos n mod Z.pos b) in *.
assert (Hi : 1 <= i) by (unfold i; apply Z.div_le_lower_bound; lia).
(* the grid of the result is at least twice as fine as [1 / b] *)
assert (H2b : 2 * Z.pos b <= 2 ^ j).
{ assert (Hx : 2 ^ 23 * Z.pos b <= Z.pos n * 2 ^ j).
  { destruct (Z_le_gt_dec (2 ^ 23 * Z.pos b) (Z.pos n * 2 ^ j)) as [|Hgt]; [assumption|].
    assert (Q1 < 2 ^ 23); [|lia].
    rewrite HQ1. apply Z.div_lt_upper_bound; lia. }
  nia. }
assert (Hlow : i * 2 ^ j <= Q1).
{ rewrite HQ1. apply Z.div_le_lower_bound; [lia|]. nia. }
assert (Hup : Q1 + 1 < (i + 1) * 2 ^ j).
{ assert (Q1 < (i + 1) * 2 ^ j - 1); [|lia].
  rewrite HQ1. apply Z.div_lt_upper_bound; [lia|]. nia. }
replace (- er) with (j - (er - (dn - db - 24 + k))) by (unfold j, c; lia).
set (t := er - (dn - db - 24 + k)) in *.
assert (Ht : 0 <= t <= 1) by (unfold t; lia).
pose proof (pow2_pos t ltac:(lia)) as Hpt.
pose proof (pow2_pos (j - t) ltac:(lia)) as Hpjt.
assert (Hsplit : 2 ^ j = 2 ^ (j - t) * 2 ^ t) by (apply pow2_split; lia).
symmetry. apply Z.div_unique with (r := Z.pos mr - i * 2 ^ (j - t)); [|lia].
left. nia.
Qed.

(** The whole part of a [float32] quotient, taken through [float64] and
    [math.Modf] and converted back to [float32]. *)
Lemma tabs_of_quotient (mr : positive) (er : Z) (i : positive) :
  Z.pos (digits2_pos mr) = 24 -> -50 <= er <= 0 ->
  Z.pos mr / 2 ^ (- er) = Z.pos i ->
  float32_of_float64 (Modf_int (float64_of_float32 (S754_finite false mr er)))
    = grid32 i 0.
Proof.
  intros Hd He Hi.
  rewrite float64_of_float32_finite by (apply valid32_normal; lia).
  rewrite Hd. unfold Modf_int.
  destruct (Z.leb_spec 0 (24 + er - 53)) as [Hc|_]; [lia|].
  cbn [cond_Zopp]. rewrite Z2Pos.id by lia.
  replace (- (24 + er - 53)) with (- er + 29) by lia.
  rewrite (Z.pow_add_r 2 (- er) 29) by lia.
  pose proof (pow2_pos (- er) ltac:(lia)) as Hpe.
  rewrite Z.div_mul_cancel_r, Hi by lia.
  assert (Hdi : Z.pos (digits2_pos i) <= 24).
  { apply digits2_pos_le. rewrite <- Hi.
    pose proof (digits2_pos_bounds mr) as [_ Hhi]. rewrite Hd in Hhi.
    apply Z.le_lt_trans with (Z.pos mr); [|exact Hhi].
    apply Z.div_le_upper_bound; [lia|]. nia. }
  pose proof (Pos2Z.is_pos (digits2_pos i)) as Hdip.
  pose proof (float64_of_int_exact false i ltac:(lia)) as H64.
  cbn [cond_Zopp] in H64. unfold float64_of_int in H64. rewrite H64.
  unfold float32_of_float64, round_to, grid32.
  set (di := Z.pos (digits2_pos i)) in *.
  pose proof (pow2_pos (53 - di) ltac:(lia)) as Hp.
  rewrite (binary_round32_grid false _ i (53 - di) (di - 53)); fold di; try lia.
  f_equal. lia.
Qed.

(** The product of a grid number and a whole number is computed exactly
    when it fits in 24 digits. *)
Lemma mul32_grid (b i : positive) (g : Z) :
  0 <= g <= 126 ->
  Z.pos (digits2_pos (b * i)) <= 24 ->
  F32.mul (grid32 b g) (grid32 i 0) = grid32 (b * i) g.
Proof.
  intros Hg Hd.
  pose proof (digits2_pos_bounds b) as [Hblo Hbhi].
  pose proof (digits2_pos_bounds i) as [Hilo Hihi].
  pose proof (digits2_pos_bounds (b * i)) as [Hplo Hphi].
  pose proof (Pos2Z.is_pos (digits2_pos b)) as Hdbp.
  pose proof (Pos2Z.is_pos (digits2_pos i)) as Hdip.
  pose proof (Pos2Z.is_pos (digits2_pos (b * i))) as Hdpp.
  rewrite Pos2Z.inj_mul in Hplo, Hphi.
  unfold F32.mul, grid32, SFmul. cbn [xorb].
  rewrite Pos2Z.inj_mul.
  set (db := Z.pos (digits2_pos b)) in *.
  set (di := Z.pos (digits2_pos i)) in *.
  set (dp := Z.pos (digits2_pos (b * i))) in *.
(* the digits of a product *)
assert (Hdp : db + di - 1 <= dp).
{ destruct (Z_le_gt_dec (db + di - 1) dp) as [|Hgt]; [assumption|].
  assert (2 ^ dp <= 2 ^ (db - 1 + (di - 1))) by (apply Z.pow_le_mono_r; lia).
  rewrite Z.pow_add_r in * by lia.
  pose proof (pow2_pos (db - 1) ltac:(lia)). pose proof (pow2_pos (di - 1) ltac:(lia)). nia. }
assert (Hdb : db <= 24).
{ apply digits2_pos_le. assert (2 ^ dp <= 2 ^ 24) by (apply Z.pow_le_mono_r; lia). nia. }
assert (Hdi : di <= 24).
{ apply digits2_pos_le. assert (2 ^ dp <= 2 ^ 24) by (apply Z.pow_le_mono_r; lia). nia. }
pose proof (pow2_pos (24 - db) ltac:(lia)). pose proof (pow2_pos (24 - di) ltac:(lia)).
pose proof (pow2_pos (24 - dp) ltac:(lia)).
rewrite !Z2Pos.id by lia.
set (k := 24 + dp - db - di).
replace (Z.pos b * 2 ^ (24 - db) * (Z.pos i * 2 ^ (24 - di)))
  with (Z.pos (Z.to_pos (Z.pos (b * i) * 2 ^ (24 - dp))) * 2 ^ k).
- replace (dp - 24 - g) with (db - 24 - g + (di - 24 - 0) + k) by (unfold k; lia).
  apply binary_round_aux_shift;
    [unfold k; lia| |change (F32.emax - F32.prec) with 104; unfold k; lia].
  rewrite fexp32, grid32_digits by exact Hd. unfold k. lia.
- rewrite Z2Pos.id by (rewrite Pos2Z.inj_mul; nia).
  rewrite Pos2Z.inj_mul.
  replace (Z.pos b * Z.pos i * 2 ^ (24 - dp) * 2 ^ k)
    with (Z.pos b * Z.pos i * (2 ^ (24 - dp) * 2 ^ k)) by lia.
  rewrite <- Z.pow_add_r by (unfold k; lia).
  replace (24 - dp + k) with (24 - db + (24 - di)) by (unfold k; lia).
  rewrite Z.pow_add_r by lia. lia.
Qed.

(** [tabStop] on grid numbers: with the cursor at [a] and the stop width
    [b] grid units, the result is [b * ((a + b) / b)] grid units. *)
Lemma tabStop_grid (spacew x : spec_float) (tabWidth : Z) (b n : positive) (g : Z) :
  0 <= g <= 126 ->
  F32.mul spacew (float32_of_int (if tabWidth <=? 0 then DefaultTabWidth else tabWidth))
    = grid32 b g ->
  F32.add x (grid32 b g) = grid32 n g ->
  (b <= n)%positive -> Z.pos n <= 2 ^ 22 ->
  tabStop spacew x tabWidth = grid32 (b * Z.to_pos (Z.pos n / Z.pos b)) g.
Proof.
  intros Hg Hw Hadd Hbn Hn. unfold tabStop. rewrite Hw, Hadd.
  destruct (div32_grid_trunc n b g Hbn Hn) as [mr [er [Hdiv [Hd [Her Hq]]]]].
  rewrite Hdiv.
  assert (Hi : 1 <= Z.pos n / Z.pos b) by (apply Z.div_le_lower_bound; lia).
  assert (Hib : Z.pos b * (Z.pos n / Z.pos b) <= Z.pos n) by (apply Z.mul_div_le; lia).
  rewrite (tabs_of_quotient mr er (Z.to_pos (Z.pos n / Z.pos b)) Hd Her)
    by (rewrite Z2Pos.id by lia; exact Hq).
  apply mul32_grid; [exact Hg|].
  apply digits2_pos_le. rewrite Pos2Z.inj_mul, Z2Pos.id by lia. lia.
Qed.

Global Instance next_stop_proper : Proper (Qeq ==> Qeq ==> Qeq ==> iff) next_stop.
Proof.
  intros w w' Hw x x' Hx r r' Hr. unfold next_stop.
  setoid_rewrite Hw. setoid_rewrite Hx. setoid_rewrite Hr. reflexivity.
Qed.

Global Instance stop_formula_proper : Proper (Qeq ==> Qeq ==> Qeq) stop_formula.
Proof.
  intros w w' Hw x x' Hx. unfold stop_formula.
  assert (Hf : Qfloor ((x + w) / w) = Qfloor ((x' + w') / w')).
  { apply Qfloor_comp. rewrite Hw, Hx. reflexivity. }
  rewrite Hf, Hw. reflexivity.
Qed.

(** On a grid, the next stop after [a] for a stop width [b] is at
    [b * ((a + b) / b)], in whole-number arithmetic. *)
Lemma next_stop_grid (a : Z) (b D : positive) :
  0 <= a ->
  let i := (a + Z.pos b) / Z.pos b in
  next_stop (Z.pos b # D) (a # D) (Z.pos b * i # D) /\
  (Z.pos b * i # D == stop_formula (Z.pos b # D) (a # D))%Q.
Proof.
  intros Ha i.
  pose proof (Z.div_mod (a + Z.pos b) (Z.pos b) ltac:(lia)) as Hdm.
  pose proof (Z.mod_pos_bound (a + Z.pos b) (Z.pos b) ltac:(lia)) as Hmb.
  fold i in Hdm. split; [split; [|split]|].
  - exists i. unfold Qeq, Qmult, inject_Z. cbn [Qnum Qden]. lia.
  - unfold Qlt. cbn [Qnum Qden]. nia.
  - intros k. unfold Qlt, Qle, Qmult, inject_Z. cbn [Qnum Qden].
    rewrite !Pos2Z.inj_mul. intros Hk.
    assert (Hak : a < k * Z.pos b) by nia.
    assert (Hik : i <= k).
    { destruct (Z_le_gt_dec i k) as [|Hgt]; [assumption|].
      assert (Z.pos b * (k + 1) <= Z.pos b * i) by (apply Z.mul_le_mono_nonneg_l; lia).
      lia. }
    assert (Z.pos b * i <= Z.pos b * k) by (apply Z.mul_le_mono_nonneg_l; lia).
    nia.
  - unfold stop_formula.
    assert (Hf : Qfloor (((a # D) + (Z.pos b # D)) / (Z.pos b # D)) = i).
    { transitivity (Qfloor ((a + Z.pos b) # b)).
      - apply Qfloor_comp.
        unfold Qeq, Qdiv, Qmult, Qinv, Qplus. cbn [Qnum Qden].
        rewrite !Pos2Z.inj_mul. ring.
      - reflexivity. }
    rewrite Hf. unfold Qeq, Qmult, inject_Z. cbn [Qnum Qden]. lia.
Qed.

Lemma SF2Q_zero_grid (a : Z) (D : positive) : (0 == a # D)%Q -> a = 0.
Proof. unfold Qeq. cbn [Qnum Qden]. lia. Qed.

Lemma SF2Q_finite_nonzero (s : bool) (m : positive) (e : Z) (D : positive) :
  ~ (SF2Q (S754_finite s m e) == 0 # D)%Q.
Proof.
  unfold SF2Q, Qeq.
  destruct (0 <=? e) eqn:E; cbn [Qnum Qden inject_Z].
  - apply Z.leb_le in E. pose proof (pow2_pos e E). destruct s; cbn [cond_Zopp]; nia.
  - destruct s; cbn [cond_Zopp]; lia.
Qed.

(** Inputs on a grid.  Let the cursor [x] (not negative) and the stop width
    [stop_width = spacew * effective tab width], as [float32] numbers, be
    whole multiples of one grid step [1 / 2 ^ g], with [x + stop_width]
    at most [2 ^ 22] steps (with [g = 6]: 64ths of a pixel, up to 65536
    pixels).  Then [tabStop] returns exactly the smallest multiple of
    [stop_width] strictly greater than [x], which is
    [stop_width * floor ((x + stop_width) / stop_width)].  The effective
    tab width is [tabWidth] when that is positive and 4 otherwise. *)
Theorem tabStop_next_stop (spacew x : spec_float) (tabWidth : Z)
    (a : Z) (b : positive) (g : Z) :
  let width := if tabWidth <=? 0 then DefaultTabWidth else tabWidth in
  let stop_width := F32.mul spacew (float32_of_int width) in
  F32.valid x = true -> is_finite x = true ->
  F32.valid stop_width = true -> is_finite stop_width = true ->
  0 <= g <= 126 -> 0 <= a -> a + Z.pos b <= 2 ^ 22 ->
  (SF2Q x == a # Z.to_pos (2 ^ g))%Q ->
  (SF2Q stop_width == Z.pos b # Z.to_pos (2 ^ g))%Q ->
  let r := tabStop spacew x tabWidth in
  (width = tabWidth \/ tabWidth <= 0 /\ width = 4) /\
  is_finite r = true /\
  next_stop (SF2Q stop_width) (SF2Q x) (SF2Q r) /\
  (SF2Q r == stop_formula (SF2Q stop_width) (SF2Q x))%Q.
Proof.
  intros width stop_width Hvx Hfx Hvw Hfw Hg Ha Hab Hx Hw r.
  split.
  { unfold width, DefaultTabWidth. destruct (Z.leb_spec tabWidth 0); [right|left]; lia. }
  assert (Hdb : Z.pos (digits2_pos b) <= 24) by (apply digits2_pos_le; lia).
(* the stop width is the grid number [b] *)
assert (Hwg : stop_width = grid32 b g).
{ destruct stop_width as [s|s| |s m e] eqn:E; try discriminate.
  apply valid32_grid; assumption. }
(* the cursor plus the stop width is the grid number [a + b] *)
assert (Hadd : F32.add x (grid32 b g) = grid32 (Z.to_pos (a + Z.pos b)) g).
{ destruct x as [s|s| |s m e]; try discriminate.
  - apply SF2Q_zero_grid in Hx. subst a. reflexivity.
  - destruct a as [|ap|ap]; [|clear Ha|lia].
    + exfalso. exact (SF2Q_finite_nonzero _ _ _ _ Hx).
    + assert (Hda : Z.pos (digits2_pos ap) <= 24) by (apply digits2_pos_le; lia).
      rewrite (valid32_grid s m e ap g Hvx Hg Hda Hx).
      apply add32_grid; [exact Hg|]. apply digits2_pos_le.
      rewrite Pos2Z.inj_add. lia. }
assert (Hr : r = grid32 (b * Z.to_pos ((a + Z.pos b) / Z.pos b)) g).
{ unfold r. replace ((a + Z.pos b) / Z.pos b)
    with (Z.pos (Z.to_pos (a + Z.pos b)) / Z.pos b)
    by (f_equal; apply Z2Pos.id; lia).
  apply tabStop_grid; try assumption.
  - change (Z.pos b <= Z.pos (Z.to_pos (a + Z.pos b))). rewrite Z2Pos.id by lia. lia.
  - rewrite Z2Pos.id by lia. exact Hab. }
assert (Hi : 1 <= (a + Z.pos b) / Z.pos b) by (apply Z.div_le_lower_bound; lia).
assert (Hib : Z.pos b * ((a + Z.pos b) / Z.pos b) <= a + Z.pos b) by (apply Z.mul_div_le; lia).
rewrite Hr. split; [reflexivity|].
assert (Hrq : (SF2Q (grid32 (b * Z.to_pos ((a + Z.pos b) / Z.pos b)) g)
               == Z.pos b * ((a + Z.pos b) / Z.pos b) # Z.to_pos (2 ^ g))%Q).
{ rewrite grid32_value; [|exact Hg|].
  - rewrite Pos2Z.inj_mul, Z2Pos.id by lia. reflexivity.
  - apply digits2_pos_le. rewrite Pos2Z.inj_mul, Z2Pos.id by lia. lia. }
rewrite Hrq, Hw, Hx.
apply next_stop_grid, Ha.
Qed.

(** At cursor 20 with the default tab width and a
    10-pixel space: the next stop is at 40. *)
Lemma tabStop_next_stop_witness :
  F32.valid (float32_of_int 20) = true /\
  (SF2Q (float32_of_int 20) == 20 # 1)%Q /\
  (SF2Q (F32.mul (float32_of_int 10) (float32_of_int DefaultTabWidth)) == 40 # 1)%Q /\
  next_stop (SF2Q (F32.mul (float32_of_int 10) (float32_of_int DefaultTabWidth)))
            (SF2Q (float32_of_int 20))
            (SF2Q (tabStop (float32_of_int 10) (float32_of_int 20) 0)).
Proof.
  assert (Hg : 0 <= 0 <= 126) by lia.
  assert (Ha : 0 <= 20) by lia.
  assert (Hab : 20 + 40 <= 2 ^ 22) by (vm_compute; discriminate).
  assert (Hx : (SF2Q (float32_of_int 20) == 20 # 1)%Q) by reflexivity.
  assert (Hw : (SF2Q (F32.mul (float32_of_int 10) (float32_of_int DefaultTabWidth))
                == 40 # 1)%Q) by reflexivity.
  split; [reflexivity|]. split; [exact Hx|]. split; [exact Hw|].
  exact (proj1 (proj2 (proj2 (tabStop_next_stop (float32_of_int 10) (float32_of_int 20) 0
    20 40 0 eq_refl eq_refl eq_refl eq_refl Hg Ha Hab Hx Hw)))).
Defined.

(** A cursor just below a stop: with a 10-pixel space and the
    default tab width the stop width is 40; at the cursor
    [40 - 2 ^ -18], the largest [float32] below 40, the sum
    [x + stop_width] rounds to 80 and [tabStop] returns 80, whereas the
    smallest multiple of 40 above the cursor is 40. *)
Lemma tabStop_skips_a_stop :
  let spacew := float32_of_int 10 in
  let x := S754_finite false 10485759 (-18) in
  let stop_width := F32.mul spacew (float32_of_int 4) in
  F32.valid x = true /\ (0 < SF2Q x)%Q /\ (0 < SF2Q spacew)%Q /\
  (SF2Q stop_width == 40 # 1)%Q /\
  (SF2Q (tabStop spacew x 4) == 80 # 1)%Q /\
  (stop_formula (SF2Q stop_width) (SF2Q x) == 40 # 1)%Q /\
  ~ next_stop (SF2Q stop_width) (SF2Q x) (SF2Q (tabStop spacew x 4)).
Proof.
  cbv zeta. repeat split.
  intros [_ [_ Hmin]].
  specialize (Hmin 1 eq_refl). vm_compute in Hmin. apply Hmin. reflexivity.
Qed.

(** * Face sets *)

Section ResolverFacts.
Context {F R : Type}.
Variable ParseTTF : R -> option F.
Variable theme : Theme R.

Local Abbreviation build := (build_faces ParseTTF theme).
Local Abbreviation resolve := (CachedFontFace ParseTTF theme).

Local Abbreviation consistent := (consistent ParseTTF theme).

Lemma consistent_empty : consistent ∅.
Proof. intros style item Hl. rewrite lookup_empty in Hl. discriminate. Qed.

Lemma resolve_consistent style dp sc fc :
  consistent fc -> consistent (snd (resolve style dp sc fc)).
Proof.
  intros Hc. unfold CachedFontFace.
  destruct (fc !! style) as [val|] eqn:E; simpl; [exact Hc|].
  intros style' item. destruct (decide (style = style')) as [->|Hne].
  - rewrite lookup_insert_eq. congruence.
  - rewrite lookup_insert_ne by exact Hne. apply Hc.
Qed.

Lemma reachable_consistent fc : reachable ParseTTF theme fc -> consistent fc.
Proof.
  induction 1 as [|fc _ _|fc style dp sc _ IH].
  - apply consistent_empty.
  - apply consistent_empty.
  - apply resolve_consistent, IH.
Qed.

Lemma resolve_reachable style dp sc fc :
  reachable ParseTTF theme fc -> fst (resolve style dp sc fc) = build style.
Proof.
  intros Hr. apply reachable_consistent in Hr. unfold CachedFontFace.
  destruct (fc !! style) as [val|] eqn:E; simpl; [|reflexivity].
  apply Hr in E. exact E.
Qed.

Lemma resolve_miss style dp sc fc :
  fc !! style = None ->
  resolve style dp sc fc = (build style, <[style := build style]> fc).
Proof. intros E. unfold CachedFontFace. rewrite E. reflexivity. Qed.

Lemma build_fonts style :
  Fonts (build style) =
    [match fst (load_category ParseTTF theme style) with
     | Some f => Some f
     | None => snd (load_category ParseTTF theme style)
     end; snd (load_category ParseTTF theme style)]
    ++ match DefaultEmojiFont theme with
       | Some emoji => [loadMeasureFont ParseTTF emoji]
       | None => []
       end.
Proof.
  unfold build_faces.
  destruct (load_category ParseTTF theme style) as [f1 f2]; simpl.
  destruct (DefaultEmojiFont theme); destruct f1; reflexivity.
Qed.
End ResolverFacts.

(** ** Face sets: the claims *)

Section ResolverClaims.
Context {F R : Type}.
Variable ParseTTF : R -> option F.
Variable theme : Theme R.

(** C7. Category selection follows the precedence
    Monospace > Bold (with or without Italic) > Italic > Symbol > default,
    the first match winning; and for every style with Monospace set
    (whatever Bold is) [CachedFontFace], from any reachable cache, answers
    with the faces loaded from the monospace fonts of the theme. *)
Theorem CachedFontFace_precedence (style : TextStyle) :
  let load := loadMeasureFont ParseTTF in
  let cat := load_category ParseTTF theme style in
  (Monospace style = true ->
     cat = (load (TextMonospaceFont theme), load (DefaultTextMonospaceFont theme)) /\
     forall fc dp sc, reachable ParseTTF theme fc ->
       Fonts (fst (CachedFontFace ParseTTF theme style dp sc fc)) =
         [match load (TextMonospaceFont theme) with
          | Some f => Some f
          | None => load (DefaultTextMonospaceFont theme)
          end; load (DefaultTextMonospaceFont theme)]
         ++ match DefaultEmojiFont theme with
            | Some emoji => [load emoji]
            | None => []
            end) /\
  (Monospace style = false -> Bold style = true -> Italic style = true ->
     cat = (load (TextBoldItalicFont theme), load (DefaultTextBoldItalicFont theme))) /\
  (Monospace style = false -> Bold style = true -> Italic style = false ->
     cat = (load (TextBoldFont theme), load (DefaultTextBoldFont theme))) /\
  (Monospace style = false -> Bold style = false -> Italic style = true ->
     cat = (load (TextItalicFont theme), load (DefaultTextItalicFont theme))) /\
  (Monospace style = false -> Bold style = false -> Italic style = false ->
   Symbol style = true ->
     cat = (load (SymbolFont theme), load (DefaultSymbolFont theme))) /\
  (Monospace style = false -> Bold style = false -> Italic style = false ->
   Symbol style = false ->
     cat = (load (TextFont theme), load (DefaultTextFont theme))).
Proof.
  cbv zeta. unfold load_category.
  repeat split.
  - rewrite H. reflexivity.
  - intros fc dp sc Hr.
    rewrite (resolve_reachable ParseTTF theme style dp sc fc Hr).
    rewrite build_fonts. unfold load_category. rewrite H. reflexivity.
  - intros -> -> ->. reflexivity.
  - intros -> -> ->. reflexivity.
  - intros -> -> ->. reflexivity.
  - intros -> -> -> ->. reflexivity.
  - intros -> -> -> ->. reflexivity.
Qed.

(** C10. A face set answered by [CachedFontFace] from a reachable cache
    has a fixed shape: two faces when the theme has no emoji font and
    three when it has one; the second is the built-in default of the
    matched category; the first is the category's primary face when it
    loaded and the same default otherwise; the emoji face, when there is
    one, comes last. *)
Theorem CachedFontFace_shape (style : TextStyle) (dp sc : spec_float)
    (fc : gmap TextStyle (FontCacheItem F)) :
  reachable ParseTTF theme fc ->
  let faces := Fonts (fst (CachedFontFace ParseTTF theme style dp sc fc)) in
  let primary := fst (load_category ParseTTF theme style) in
  let default := snd (load_category ParseTTF theme style) in
  length faces = (match DefaultEmojiFont theme with Some _ => 3 | None => 2 end)%nat /\
  faces !! 1%nat = Some default /\
  faces !! 0%nat = Some (match primary with Some f => Some f | None => default end) /\
  (forall emoji, DefaultEmojiFont theme = Some emoji ->
     last faces = Some (loadMeasureFont ParseTTF emoji) /\
     faces !! 2%nat = Some (loadMeasureFont ParseTTF emoji)).
Proof.
  intros Hr. cbv zeta.
  rewrite (resolve_reachable ParseTTF theme style dp sc fc Hr), build_fonts.
  destruct (DefaultEmojiFont theme) as [e|]; simpl;
    (split; [reflexivity | split; [reflexivity | split; [reflexivity|]]]).
  - intros emoji [= <-]. split; reflexivity.
  - intros emoji [=].
Qed.

(** C6, as amended. For every style, [CachedFontFace] answers from a
    reachable cache with a non-empty face set, and its first element is
    set (not nil) whenever the primary face or the default face of the
    matched category loads: the primary when it loads, the default in
    its place otherwise. *)
Theorem CachedFontFace_first_set (style : TextStyle) (dp sc : spec_float)
    (fc : gmap TextStyle (FontCacheItem F)) :
  reachable ParseTTF theme fc ->
  let faces := Fonts (fst (CachedFontFace ParseTTF theme style dp sc fc)) in
  let primary := fst (load_category ParseTTF theme style) in
  let default := snd (load_category ParseTTF theme style) in
  faces <> [] /\
  (forall f, primary = Some f -> faces !! 0%nat = Some (Some f)) /\
  (forall f, primary = None -> default = Some f -> faces !! 0%nat = Some (Some f)).
Proof.
  intros Hr. cbv zeta.
  rewrite (resolve_reachable ParseTTF theme style dp sc fc Hr), build_fonts.
  repeat split.
  - discriminate.
  - intros f ->. reflexivity.
  - intros f -> ->. reflexivity.
Qed.
End ResolverClaims.

(** C7, at a monospace bold style of the test bench. *)
Lemma CachedFontFace_precedence_witness :
  Monospace (Bench.style true false true false) = true /\
  Fonts (fst (CachedFontFace Bench.parse_all (Bench.theme None)
                (Bench.style true false true false) (Bench.f32 12) (Bench.f32 1) ∅))
    = [Some 0%nat; Some 1%nat].
Proof.
  split; [reflexivity|].
  destruct (CachedFontFace_precedence Bench.parse_all (Bench.theme None)
              (Bench.style true false true false)) as [Hm _].
  destruct (Hm eq_refl) as [_ Hfonts].
  exact (Hfonts ∅ (Bench.f32 12) (Bench.f32 1) (reachable_init _ _)).
Defined.

(** C10, at the empty cache and at a cache that already holds the style. *)
Lemma CachedFontFace_shape_witness :
  let fc := snd (CachedFontFace Bench.parse_defaults (Bench.theme (Some 12%nat))
                   (Bench.style true true false false) (Bench.f32 12) (Bench.f32 1) ∅) in
  reachable Bench.parse_defaults (Bench.theme (Some 12%nat)) fc /\
  Fonts (fst (CachedFontFace Bench.parse_defaults (Bench.theme (Some 12%nat))
                (Bench.style true true false false) (Bench.f32 12) (Bench.f32 1) fc))
    !! 0%nat = Some (Some 3%nat).
Proof.
  cbv zeta.
  assert (Hr : reachable Bench.parse_defaults (Bench.theme (Some 12%nat))
                 (snd (CachedFontFace Bench.parse_defaults (Bench.theme (Some 12%nat))
                   (Bench.style true true false false) (Bench.f32 12) (Bench.f32 1) ∅))).
  { apply reachable_resolve, reachable_init. }
  split; [exact Hr|].
  exact (proj1 (proj2 (proj2 (CachedFontFace_shape Bench.parse_defaults
    (Bench.theme (Some 12%nat)) (Bench.style true true false false)
    (Bench.f32 12) (Bench.f32 1) _ Hr)))).
Defined.

(** C6, as amended, where only the built-in default parses. *)
Lemma CachedFontFace_first_set_witness :
  reachable Bench.parse_defaults (Bench.theme None) ∅ /\
  Fonts (fst (CachedFontFace Bench.parse_defaults (Bench.theme None)
                (Bench.style false false false false) (Bench.f32 12) (Bench.f32 1) ∅))
    <> [].
Proof.
  split; [apply reachable_init|].
  exact (proj1 (CachedFontFace_first_set Bench.parse_defaults (Bench.theme None)
    (Bench.style false false false false) (Bench.f32 12) (Bench.f32 1) ∅
    (reachable_init _ _))).
Defined.

(** C6, as stated, fails: when neither the primary nor the default face
    of the category parses, the first element of the face set is nil. *)
Lemma CachedFontFace_first_nil :
  ~ (forall (style : TextStyle),
       exists f, Fonts (fst (CachedFontFace Bench.parse_none (Bench.theme None) style
                               (Bench.f32 12) (Bench.f32 1) ∅)) !! 0%nat = Some (Some f)).
Proof.
  intros Hall.
  destruct (Hall (Bench.style false false false false)) as [f Hf].
  vm_compute in Hf. discriminate.
Qed.

(** * Layout, drawing and measuring *)

Section LayoutFacts.
Context {F : Type} `{Shaper F}.

Lemma replay_snoc {S} (cb : sink F S) calls seg x y st :
  replay cb (calls ++ [(seg, x, y)]) st = cb seg x y (replay cb calls st).
Proof. unfold replay. rewrite fold_left_app. reflexivity. Qed.

Lemma missing_glyph_spec (run : Output.t F) :
  missing_glyph run = true <-> exists g, Output.Glyphs run = [g] /\ GlyphID g = 0.
Proof.
  unfold missing_glyph. split.
  - destruct (Output.Glyphs run) as [|g [|g' l]]; try discriminate.
    intros Hg. exists g. split; [reflexivity|]. apply Z.eqb_eq, Hg.
  - intros [g [-> Hg]]. apply Z.eqb_eq, Hg.
Qed.

(** A run made of exactly one glyph whose identifier is 0 ("not
    found") is replaced: the one-rune text U+FFFD is shaped with the run's
    face and the fixed-point size [textSize] passed in, the result is
    handed to the sink at the current cursor with its own ascent as
    vertical origin, and the cursor advances by its advance.  Every other
    run is handed to the sink as it is, at the cursor and the shared
    baseline [y], and the cursor advances by the run's advance. *)
Theorem processFontRun_substitution {S} (run : Output.t F) (textSize : Z)
    (y advance : spec_float) (cb : sink F S) (st : S) :
  let result := processFontRun run textSize y advance cb st in
  let cursor := result.1.2 in
  let substitute := Shape (replacement_input run textSize) in
  ((exists g, Output.Glyphs run = [g] /\ GlyphID g = 0) ->
     result.2 = cb substitute advance
                  (fixed266ToFloat32 (Ascent (Output.LineBounds substitute))) st /\
     cursor = F32.add (fixed266ToFloat32 (Output.Advance substitute)) advance) /\
  (~ (exists g, Output.Glyphs run = [g] /\ GlyphID g = 0) ->
     result.2 = cb run advance y st /\
     cursor = F32.add (fixed266ToFloat32 (Output.Advance run)) advance) /\
  result.1.1.1 = NewSize cursor (fixed266ToFloat32 (LineThickness (Output.LineBounds run))) /\
  result.1.1.2 = fixed266ToFloat32 (Ascent (Output.LineBounds run)).
Proof.
  cbv zeta. unfold processFontRun, replacement_input.
  destruct (missing_glyph run) eqn:E.
  - apply missing_glyph_spec in E. simpl. repeat split; tauto.
  - assert (Hn : ~ (exists g, Output.Glyphs run = [g] /\ GlyphID g = 0)).
    { intros Hg. apply missing_glyph_spec in Hg. congruence. }
    simpl. repeat split; tauto.
Qed.

(** The sink never feeds back into the layout: run on the recording
    sink and on any other sink, the layout functions compute the same
    geometry, and the other sink ends in the replay of the record. *)
Lemma processFontRun_replay {S} (cb : sink F S) (st0 : S) run textSize y advance calls :
  let r := processFontRun run textSize y advance record calls in
  processFontRun run textSize y advance cb (replay cb calls st0)
    = (r.1, replay cb r.2 st0).
Proof.
  cbv zeta. unfold processFontRun.
  destruct (missing_glyph run); simpl; unfold record; rewrite replay_snoc; reflexivity.
Qed.

Lemma layout_run_replay {S} (cb : sink F S) (st0 : S) fontSize base run advance thickness calls :
  let r := layout_run fontSize base record (advance, thickness, calls) run in
  layout_run fontSize base cb (advance, thickness, replay cb calls st0) run
    = (r.1, replay cb r.2 st0).
Proof.
  cbv zeta. unfold layout_run.
  rewrite processFontRun_replay.
  destruct (processFontRun run (float32ToFixed266 fontSize) base advance record calls)
    as [[[sz adv] advance'] calls']. reflexivity.
Qed.

Lemma layout_fold_replay {S} (cb : sink F S) (st0 : S) fontSize base line :
  forall advance thickness calls,
  let r := fold_left (layout_run fontSize base record) line (advance, thickness, calls) in
  fold_left (layout_run fontSize base cb) line (advance, thickness, replay cb calls st0)
    = (r.1, replay cb r.2 st0).
Proof.
  induction line as [|run line IH]; intros advance thickness calls; [reflexivity|].
  cbn [fold_left]. rewrite layout_run_replay.
  destruct (layout_run fontSize base record (advance, thickness, calls) run)
    as [[advance' thickness'] calls']. apply IH.
Qed.

Lemma processSubString_replay {S} (cb : sink F S) (st0 : S) str f fontSize scale startX calls :
  let r := processSubString str f fontSize scale startX record calls in
  processSubString str f fontSize scale startX cb (replay cb calls st0)
    = (r.1, replay cb r.2 st0).
Proof.
  cbv zeta. unfold processSubString.
  rewrite layout_fold_replay.
  match goal with |- context [fold_left ?g ?l ?a] => destruct (fold_left g l a) as [[a' t'] c'] end.
  reflexivity.
Qed.

Lemma segment_step_replay {S} (cb : sink F S) (st0 : S) rs f fontSize scale tabWidth a ic :
  segment_step rs f fontSize scale tabWidth cb (seg_replay cb st0 a) ic
    = seg_replay cb st0 (segment_step rs f fontSize scale tabWidth record a ic).
Proof.
  unfold segment_step. destruct ic as [i c].
  destruct (c =? 9); [|reflexivity].
  cbn [seg_replay seg_start seg_x seg_st].
  destruct (seg_start a <? i)%nat; [|reflexivity].
  rewrite processSubString_replay.
  destruct (processSubString (slice rs (seg_start a) i) f fontSize scale (seg_x a) record (seg_st a))
    as [[inset adv] calls']. reflexivity.
Qed.

Lemma segment_fold_replay {S} (cb : sink F S) (st0 : S) rs f fontSize scale tabWidth l :
  forall a,
  fold_left (segment_step rs f fontSize scale tabWidth cb) l (seg_replay cb st0 a)
    = seg_replay cb st0 (fold_left (segment_step rs f fontSize scale tabWidth record) l a).
Proof.
  induction l as [|ic l IH]; intros a; [reflexivity|].
  cbn [fold_left]. rewrite segment_step_replay. apply IH.
Qed.

Lemma processString_replay {S} (cb : sink F S) (st : S) s f fontSize scale tabWidth :
  let r := processString s f fontSize scale tabWidth record [] in
  processString s f fontSize scale tabWidth cb st = (r.1, replay cb r.2 st).
Proof.
  cbv zeta. unfold processString.
  change {| seg_x := F32.zero; seg_height := F32.zero; seg_start := 0; seg_st := st |}
    with (seg_replay cb st
            {| seg_x := F32.zero; seg_height := F32.zero; seg_start := 0; seg_st := [] |}).
  rewrite segment_fold_replay.
  match goal with |- context [seg_replay cb st ?a] => generalize a end.
  intros a. cbn [seg_replay seg_start seg_x seg_st seg_height].
  destruct (seg_start a <? length (runes (strip_cr s)))%nat; [|reflexivity].
  rewrite processSubString_replay.
  match goal with |- context [processSubString ?a1 ?a2 ?a3 ?a4 ?a5 record ?a6] =>
    destruct (processSubString a1 a2 a3 a4 a5 record a6) as [[trail adv] calls'] end.
  reflexivity.
Qed.
(** At a tab that closes a non-empty substring, the height kept by the
    loop of [processString] becomes the height of that substring, whatever
    it was before. *)
Lemma segment_step_height {S} (cb : sink F S) rs f fontSize scale tabWidth a i :
  (seg_start a < i)%nat ->
  seg_height (segment_step rs f fontSize scale tabWidth cb a (i, 9))
    = Height (processSubString (slice rs (seg_start a) i) f fontSize scale
                (seg_x a) cb (seg_st a)).1.1.
Proof.
  intros Hi. unfold segment_step. cbn [Z.eqb Pos.eqb].
  apply Nat.ltb_lt in Hi. rewrite Hi.
  destruct (processSubString (slice rs (seg_start a) i) f fontSize scale (seg_x a) cb (seg_st a))
    as [[inset adv] st]. reflexivity.
Qed.
End LayoutFacts.

(** ** Drawing and measuring: the claims *)

Section FacadeClaims.
Context {F : Type} `{Shaper F}.

(** C1. [processString] computes its (size, advance) pair without regard
    to the glyph sink: the pair is the one computed on the recording sink,
    and the sink is called exactly at the recorded runs and positions,
    which depend on the other inputs only.  Hence two sinks see the same
    geometry, and a draw call and a measure call over the same inputs
    agree: the measured pair is the one computed while painting, and the
    painted positions are those of the measuring pass. *)
Theorem processString_sink_independent (s : string) (f : list (option F))
    (fontSize scale : spec_float) (tabWidth : Z) :
  let recorded := processString s f fontSize scale tabWidth record [] in
  (forall S (cb : sink F S) (st : S),
     processString s f fontSize scale tabWidth cb st
       = (recorded.1, replay cb recorded.2 st)) /\
  (forall S1 S2 (cb1 : sink F S1) (cb2 : sink F S2) (st1 : S1) (st2 : S2),
     (processString s f fontSize scale tabWidth cb1 st1).1
       = (processString s f fontSize scale tabWidth cb2 st2).1) /\
  (forall Image C (draw : Renderer C -> Output.t F -> Image -> Z -> Z -> Image)
          (dst : Image) (color : C),
     s <> " " ->
     let one := float32_of_int 1 in
     let r := {| FontSize := fontSize; PixScale := one; Color := color |} in
     let measuring := processString s f fontSize one tabWidth record [] in
     MeasureString f s fontSize tabWidth
       = (processString s f fontSize one tabWidth (paint draw r) dst).1 /\
     MeasureString f s fontSize tabWidth = measuring.1 /\
     DrawString draw dst s color f fontSize one tabWidth
       = replay (paint draw r) measuring.2 dst).
Proof.
  cbv zeta. split; [|split].
  - intros S cb st. apply processString_replay.
  - intros S1 S2 cb1 cb2 st1 st2.
    rewrite (processString_replay cb1 st1), (processString_replay cb2 st2). reflexivity.
  - intros Image C draw dst color Hs.
    apply String.eqb_neq in Hs.
    unfold MeasureString, DrawString. rewrite Hs.
    rewrite (processString_replay no_paint tt).
    rewrite (processString_replay (paint draw _) dst).
    repeat split.
Qed.

(** C8. [MeasureString] returns a zero size and a zero advance for the
    string made of one space, and for that string only: every other
    string, several spaces or a space among other characters included,
    is measured by [processString].  [DrawString] paints nothing for the
    one-space string, and runs [processString] on every other one. *)
Theorem MeasureString_single_space (f : list (option F)) (textSize : spec_float)
    (tabWidth : Z) :
  MeasureString f " " textSize tabWidth = (NewSize F32.zero F32.zero, F32.zero) /\
  (forall s, s <> " " ->
     MeasureString f s textSize tabWidth
       = (processString s f textSize (float32_of_int 1) tabWidth no_paint tt).1) /\
  (forall Image C (draw : Renderer C -> Output.t F -> Image -> Z -> Z -> Image)
          (dst : Image) (color : C) (scale : spec_float),
     DrawString draw dst " " color f textSize scale tabWidth = dst /\
     forall s, s <> " " ->
       DrawString draw dst s color f textSize scale tabWidth
         = (processString s f textSize scale tabWidth
              (paint draw {| FontSize := textSize; PixScale := scale; Color := color |})
              dst).2).
Proof.
  split; [reflexivity|split].
  - intros s Hs. apply String.eqb_neq in Hs. unfold MeasureString. rewrite Hs. reflexivity.
  - intros Image C draw dst color scale. split; [reflexivity|].
    intros s Hs. apply String.eqb_neq in Hs. unfold DrawString. rewrite Hs. reflexivity.
Qed.
End FacadeClaims.

Section RenderedClaims.
Context {F R : Type} `{Shaper F}.
Variable ParseTTF : R -> option F.
Variable theme : Theme R.

(** C5. [RenderedTextSize] takes a zero baseline from the metrics cache
    as "not cached".  When the lookup for (text, fontSize, style) yields
    a non-zero baseline, the cached pair is returned and nothing is
    measured: both caches are left as they were.  When it yields a zero
    baseline, the text is measured by [measureText], the measured pair is
    stored under the same key, so that the next lookup yields it, and it
    is the pair returned. *)
Theorem RenderedTextSize_cache (text : string) (fontSize : spec_float)
    (style : TextStyle) (w : Caches F) :
  let cached := GetFontMetrics text fontSize style (metrics w) in
  let result := RenderedTextSize ParseTTF theme text fontSize style w in
  let fresh := measureText ParseTTF theme text fontSize style (fontCache w) in
  (F32.ne cached.2 F32.zero = true -> result = (cached, w)) /\
  (F32.ne cached.2 F32.zero = false ->
     result.1 = fresh.1 /\
     fontCache result.2 = fresh.2 /\
     metrics result.2 = SetFontMetrics text fontSize style fresh.1.1 fresh.1.2 (metrics w) /\
     GetFontMetrics text fontSize style (metrics result.2) = fresh.1).
Proof.
  cbv zeta. unfold RenderedTextSize.
  destruct (GetFontMetrics text fontSize style (metrics w)) as [size base].
  cbn [fst snd].
  destruct (F32.ne base F32.zero); split; try discriminate; intros _.
  - reflexivity.
  - destruct (measureText ParseTTF theme text fontSize style (fontCache w))
      as [[size' base'] fc]. cbn.
    repeat split. unfold GetFontMetrics, SetFontMetrics.
    rewrite lookup_insert_eq. reflexivity.
Qed.
End RenderedClaims.

(** C4. On the text "A<tab>b" of the test bench the first substring is
    20 pixels high and the second 12; [processString] returns the height
    of the second, the last one processed, and not the larger of the two.
    The advance it returns is the final cursor, 50 pixels. *)
Theorem processString_height_of_last_substring :
  BenchRuns.substring_height "A" F32.zero = Bench.f32 20 /\
  BenchRuns.substring_height "b" (Bench.f32 40) = Bench.f32 12 /\
  Height (BenchRuns.measure BenchRuns.text).1.1 = Bench.f32 12 /\
  (BenchRuns.measure BenchRuns.text).1.2 = Bench.f32 50 /\
  F32.gt (Bench.f32 20) (Height (BenchRuns.measure BenchRuns.text).1.1) = true.
Proof. vm_compute. repeat split. Qed.

(** The advance returned by [processString] is the width of the size it
    returns: both are the final cursor. *)
Lemma processString_advance_is_width {F S : Type} `{Shaper F} (s : string)
    (f : list (option F)) (fontSize scale : spec_float) (tabWidth : Z)
    (cb : sink F S) (st : S) :
  (processString s f fontSize scale tabWidth cb st).1.2
    = Width (processString s f fontSize scale tabWidth cb st).1.1.
Proof. reflexivity. Qed.

(** On a run whose sole glyph is missing and on a run that has its
    glyphs. *)
Lemma processFontRun_substitution_witness :
  (exists g, Output.Glyphs BenchRuns.run_missing = [g] /\ GlyphID g = 0) /\
  ~ (exists g, Output.Glyphs BenchRuns.run_plain = [g] /\ GlyphID g = 0) /\
  (@processFontRun nat Bench.shaper _ BenchRuns.run_missing 768 (Bench.f32 16)
     (Bench.f32 5) record []).2
    = [(Bench.shape (replacement_input BenchRuns.run_missing 768),
        Bench.f32 5, Bench.f32 10)] /\
  (@processFontRun nat Bench.shaper _ BenchRuns.run_plain 768 (Bench.f32 16)
     (Bench.f32 5) record []).2
    = [(BenchRuns.run_plain, Bench.f32 5, Bench.f32 16)].
Proof.
  assert (H1 : exists g, Output.Glyphs BenchRuns.run_missing = [g] /\ GlyphID g = 0).
  { exists {| GlyphID := 0 |}. split; reflexivity. }
  assert (H2 : ~ (exists g, Output.Glyphs BenchRuns.run_plain = [g] /\ GlyphID g = 0)).
  { intros [g [Hg _]]. discriminate Hg. }
  split; [exact H1|]. split; [exact H2|]. split.
  - exact (proj1 (proj1 (@processFontRun_substitution nat Bench.shaper _
      BenchRuns.run_missing 768 (Bench.f32 16) (Bench.f32 5) record []) H1)).
  - exact (proj1 (proj1 (proj2 (@processFontRun_substitution nat Bench.shaper _
      BenchRuns.run_plain 768 (Bench.f32 16) (Bench.f32 5) record [])) H2)).
Defined.

(** The size handed to [processFontRun] is the font size in 26.6, whereas
    the runs of a substring are shaped at the whole number of pixels of
    the font size times the scale: at font size 12 and scale 2 a plain run
    is shaped at 24 pixels (1536) and the replacement of a missing glyph
    at 12 pixels (768). *)
Remark replacement_shaped_at_font_size :
  map (fun c => Output.Size c.1.1) (BenchRuns.calls_at 2 "ab") = [1536] /\
  map (fun c => (Output.Size c.1.1, map GlyphID (Output.Glyphs c.1.1)))
      (BenchRuns.calls_at 2 BenchRuns.snowman) = [(768, [3])].
Proof. split; reflexivity. Qed.

(** C1, on the two-substring text: painting into a list of pixel
    positions and measuring agree. *)
Lemma processString_sink_independent_witness :
  BenchRuns.text <> " " /\
  @MeasureString nat Bench.shaper Bench.faces BenchRuns.text (Bench.f32 12) 0
    = (@processString nat Bench.shaper _ BenchRuns.text Bench.faces (Bench.f32 12)
         (float32_of_int 1) 0
         (paint (fun (_ : Renderer unit) _ (dst : list (Z * Z)) x y => (x, y) :: dst)
                {| FontSize := Bench.f32 12; PixScale := float32_of_int 1; Color := tt |})
         []).1.
Proof.
  assert (Hs : BenchRuns.text <> " ") by discriminate.
  split; [exact Hs|].
  exact (proj1 (proj2 (proj2 (@processString_sink_independent nat Bench.shaper
    BenchRuns.text Bench.faces (Bench.f32 12) (float32_of_int 1) 0)) _ _
    (fun (_ : Renderer unit) _ (dst : list (Z * Z)) x y => (x, y) :: dst) [] tt Hs)).
Defined.

(** C8, on the string of two spaces: it is measured, not special-cased. *)
Lemma MeasureString_single_space_witness :
  "  " <> " " /\
  @MeasureString nat Bench.shaper Bench.faces "  " (Bench.f32 12) 0
    = (@processString nat Bench.shaper _ "  " Bench.faces (Bench.f32 12)
         (float32_of_int 1) 0 no_paint tt).1.
Proof.
  assert (Hs : "  " <> " ") by discriminate.
  split; [exact Hs|].
  exact (proj1 (proj2 (@MeasureString_single_space nat Bench.shaper Bench.faces
    (Bench.f32 12) 0)) "  " Hs).
Defined.

(** C5, on empty caches: the lookup misses, the text is measured and the
    measure is what the next lookup yields. *)
Lemma RenderedTextSize_cache_witness :
  F32.ne (GetFontMetrics "ab" (Bench.f32 12) BenchRuns.plain (metrics BenchRuns.caches0)).2
         F32.zero = false /\
  GetFontMetrics "ab" (Bench.f32 12) BenchRuns.plain
     (metrics (@RenderedTextSize nat nat Bench.shaper Bench.parse_all (Bench.theme None)
                 "ab" (Bench.f32 12) BenchRuns.plain BenchRuns.caches0).2)
   = (@measureText nat nat Bench.shaper Bench.parse_all (Bench.theme None)
        "ab" (Bench.f32 12) BenchRuns.plain (fontCache BenchRuns.caches0)).1.
Proof.
  assert (Hm : F32.ne (GetFontMetrics "ab" (Bench.f32 12) BenchRuns.plain
                         (metrics BenchRuns.caches0)).2 F32.zero = false) by reflexivity.
  split; [exact Hm|].
  exact (proj2 (proj2 (proj2 (proj2 (@RenderedTextSize_cache nat nat Bench.shaper
    Bench.parse_all (Bench.theme None) "ab" (Bench.f32 12) BenchRuns.plain
    BenchRuns.caches0) Hm)))).
Defined.


(** * Further properties of the code *)

(** ** Fixed point and [float32] *)

Lemma fixed266ToFloat32_small (s : bool) (n : positive) :
  Z.pos n < 2 ^ 24 ->
  let d := Z.pos (digits2_pos n) in
  fixed266ToFloat32 (cond_Zopp s (Z.pos n))
    = S754_finite s (Z.to_pos (Z.pos n * 2 ^ (24 - d))) (d - 30).
Proof.
  intros Hn d.
  assert (Hd : d <= 24) by (apply digits2_pos_le; lia).
  pose proof (Pos2Z.is_pos (digits2_pos n)) as Hdp. fold d in Hdp.
  apply fixed266ToFloat32_exact; fold d; [lia|].
  unfold d. rewrite (grid32_mantissa n Hd). fold d.
  rewrite <- !Z.mul_assoc, <- !Z.pow_add_r by lia. do 2 f_equal. lia.
Qed.

Lemma SF2Q_small (s : bool) (n : positive) :
  Z.pos n < 2 ^ 24 ->
  let d := Z.pos (digits2_pos n) in
  (SF2Q (S754_finite s (Z.to_pos (Z.pos n * 2 ^ (24 - d))) (d - 30))
   == cond_Zopp s (Z.pos n) # 64)%Q.
Proof.
  intros Hn d.
  assert (Hd : d <= 24) by (apply digits2_pos_le; lia).
  pose proof (Pos2Z.is_pos (digits2_pos n)) as Hdp. fold d in Hdp.
  rewrite (SF2Q_finite_scaled _ _ _ 30) by lia.
  unfold d at 1. rewrite (grid32_mantissa n Hd). fold d.
  unfold Qeq. cbn [Qnum Qden].
  rewrite !cond_Zopp_mul.
  replace (d - 30 + 30) with d by lia.
  pose proof (pow2_split 24 d ltac:(lia)) as Hs.
  change (Z.pos (Z.to_pos (2 ^ 30))) with (2 ^ 24 * 64). rewrite Hs. lia.
Qed.

(** X1. [fixed266ToFloat32] is exact on 26.6 numbers of fewer than 2^24
    64ths (less than 262144 pixels): the result is the finite [float32]
    of value [i / 64]. *)
Theorem fixed266ToFloat32_value (i : Z) :
  Z.abs i < 2 ^ 24 ->
  F32.valid (fixed266ToFloat32 i) = true /\
  is_finite (fixed266ToFloat32 i) = true /\
  (SF2Q (fixed266ToFloat32 i) == i # 64)%Q.
Proof.
  intros Hi.
  assert (Hcase : i = 0 \/ exists s n, i = cond_Zopp s (Z.pos n) /\ Z.pos n < 2 ^ 24).
  { destruct i as [|n|n]; [left; reflexivity| |].
    - right. exists false, n. split; [reflexivity|lia].
    - right. exists true, n. split; [reflexivity|lia]. }
  destruct Hcase as [->|[s [n [-> Hn]]]].
  - repeat split.
  - assert (Hd : Z.pos (digits2_pos n) <= 24) by (apply digits2_pos_le; lia).
    pose proof (Pos2Z.is_pos (digits2_pos n)) as Hdp.
    rewrite (fixed266ToFloat32_small s n Hn).
    split; [apply valid32_normal; [apply grid32_digits; exact Hd | lia]|].
    split; [reflexivity|]. apply SF2Q_small, Hn.
Qed.

(** X2. A 26.6 number of fewer than 2^24 64ths survives the conversion to
    [float32] and back unchanged. *)
Theorem fixed266_float32_fixed266 (i : Z) :
  Z.abs i < 2 ^ 24 -> float32ToFixed266 (fixed266ToFloat32 i) = i.
Proof.
  intros Hi.
  assert (Hcase : i = 0 \/ exists s n, i = cond_Zopp s (Z.pos n) /\ Z.pos n < 2 ^ 24).
  { destruct i as [|n|n]; [left; reflexivity| |].
    - right. exists false, n. split; [reflexivity|lia].
    - right. exists true, n. split; [reflexivity|lia]. }
  destruct Hcase as [->|[s [n [-> Hn]]]]; [reflexivity|].
  assert (Hd : Z.pos (digits2_pos n) <= 24) by (apply digits2_pos_le; lia).
  pose proof (Pos2Z.is_pos (digits2_pos n)) as Hdp.
  rewrite (fixed266ToFloat32_small s n Hn).
  set (d := Z.pos (digits2_pos n)) in *.
  assert (Ht : Z.pos (Z.to_pos (Z.pos n * 2 ^ (24 - d))) * 2 ^ (d - 30 + 149) / 2 ^ 143
               = Z.pos n).
  { unfold d. rewrite (grid32_mantissa n Hd). fold d.
    rewrite <- Z.mul_assoc, <- Z.pow_add_r by lia.
    replace (24 - d + (d - 30 + 149)) with 143 by lia.
    apply Z.div_mul. lia. }
  rewrite float32ToFixed266_finite.
  - rewrite Ht. reflexivity.
  - apply valid32_normal; [apply grid32_digits; exact Hd | lia].
  - rewrite Ht. destruct s; cbn [cond_Zopp]; lia.
Qed.

(** The bound is sharp: one 64th above 2^24 is rounded away. *)
Remark fixed266_float32_fixed266_bound :
  float32ToFixed266 (fixed266ToFloat32 (2 ^ 24 + 1)) = 2 ^ 24.
Proof. reflexivity. Qed.

Lemma fixed266ToFloat32_value_witness :
  Z.abs 799 < 2 ^ 24 /\ (SF2Q (fixed266ToFloat32 799) == 799 # 64)%Q.
Proof.
  assert (H : Z.abs 799 < 2 ^ 24) by reflexivity.
  split; [exact H|]. exact (proj2 (proj2 (fixed266ToFloat32_value 799 H))).
Defined.

Lemma fixed266_float32_fixed266_witness :
  Z.abs (-799) < 2 ^ 24 /\ float32ToFixed266 (fixed266ToFloat32 (-799)) = -799.
Proof.
  assert (H : Z.abs (-799) < 2 ^ 24) by reflexivity.
  split; [exact H|]. exact (fixed266_float32_fixed266 (-799) H).
Defined.

(** The count of 64ths of a finite [float32] in the 26.6 range fits
    [int32]. *)
Lemma fixed266_in_range (s : bool) (m : positive) (e : Z) :
  F32.valid (S754_finite s m e) = true ->
  (- inject_Z (2 ^ 25) <= SF2Q (S754_finite s m e))%Q ->
  (SF2Q (S754_finite s m e) < inject_Z (2 ^ 25))%Q ->
  - 2 ^ 31 <= cond_Zopp s (Z.pos m * 2 ^ (e + 149) / 2 ^ 143) < 2 ^ 31.
Proof.
  intros Hv Hlo Hhi.
  pose proof (valid32_finite s m e Hv) as [Hd [He _]].
  pose proof (SF2Q_finite_scaled s m e 149 ltac:(lia) ltac:(lia)) as Hq.
  set (P := Z.pos m * 2 ^ (e + 149)) in *.
  assert (HP : 0 < P) by (pose proof (pow2_pos (e + 149) ltac:(lia)); unfold P; lia).
  rewrite Hq in Hlo, Hhi.
  unfold Qle, Qlt, Qopp, inject_Z in Hlo, Hhi. cbn [Qnum Qden] in Hlo, Hhi.
  rewrite (Z2Pos.id (2 ^ 149)) in Hlo, Hhi by lia.
  pose proof (Z.div_mod P (2 ^ 143) ltac:(lia)) as Hdm.
  pose proof (Z.mod_pos_bound P (2 ^ 143) ltac:(lia)) as Hr.
  change (2 ^ 149) with (2 ^ 6 * 2 ^ 143) in Hlo, Hhi.
  assert (Ht0 : 0 <= P / 2 ^ 143) by (apply Z.div_pos; lia).
  destruct s; cbn [cond_Zopp] in *; lia.
Qed.

(** X4. [float32ToFixed266] drops the fraction of the 64ths, rounding toward
    zero: down for a positive pixel value, up for a negative one. *)
Theorem float32ToFixed266_toward_zero (v : spec_float) :
  F32.valid v = true ->
  is_finite v = true ->
  (- inject_Z (2 ^ 25) <= SF2Q v)%Q ->
  (SF2Q v < inject_Z (2 ^ 25))%Q ->
  ((0 <= SF2Q v)%Q -> float32ToFixed266 v = Qfloor (inject_Z 64 * SF2Q v)) /\
  ((SF2Q v <= 0)%Q -> float32ToFixed266 v = Qceiling (inject_Z 64 * SF2Q v)).
Proof.
  intros Hv Hfin Hlo Hhi.
  destruct v as [s|s| |s m e]; try discriminate.
  - destruct s; split; reflexivity.
  - pose proof (fixed266_in_range s m e Hv Hlo Hhi) as Ht.
    rewrite (float32ToFixed266_finite s m e Hv Ht).
    pose proof (valid32_finite s m e Hv) as [Hd [He _]].
    pose proof (SF2Q_finite_scaled s m e 149 ltac:(lia) ltac:(lia)) as Hq.
    set (P := Z.pos m * 2 ^ (e + 149)) in *.
    assert (HP : 0 < P) by (pose proof (pow2_pos (e + 149) ltac:(lia)); unfold P; lia).
    assert (H64 : (inject_Z 64 * SF2Q (S754_finite s m e)
                   == cond_Zopp s P # Z.to_pos (2 ^ 143))%Q).
    { rewrite Hq. unfold Qeq, Qmult, inject_Z. cbn [Qnum Qden].
      rewrite Pos2Z.inj_mul, !Z2Pos.id by lia.
      change (2 ^ 149) with (64 * 2 ^ 143). lia. }
    split; intros Hsgn.
    + rewrite (Qfloor_comp _ _ H64).
      destruct s; cbn [cond_Zopp].
      * exfalso. rewrite Hq in Hsgn. unfold Qle in Hsgn. cbn [Qnum Qden cond_Zopp] in Hsgn. lia.
      * unfold Qfloor. rewrite Z2Pos.id by lia. reflexivity.
    + rewrite (Qceiling_comp _ _ H64).
      destruct s; cbn [cond_Zopp].
      * unfold Qceiling, Qfloor, Qopp. cbn [Qnum Qden].
        rewrite Z2Pos.id, Z.opp_involutive by lia. reflexivity.
      * exfalso. rewrite Hq in Hsgn. unfold Qle in Hsgn. cbn [Qnum Qden cond_Zopp] in Hsgn. lia.
Qed.

(** At the pixel value -3.3: -211.2 64ths become -211. *)
Lemma float32ToFixed266_toward_zero_witness :
  F32.valid (S754_finite true 13841203 (-22)) = true /\
  (SF2Q (S754_finite true 13841203 (-22)) <= 0)%Q /\
  float32ToFixed266 (S754_finite true 13841203 (-22))
    = Qceiling (inject_Z 64 * SF2Q (S754_finite true 13841203 (-22))).
Proof.
  assert (Hs : (SF2Q (S754_finite true 13841203 (-22)) <= 0)%Q) by (vm_compute; discriminate).
  split; [reflexivity|]. split; [exact Hs|].
  refine (proj2 (float32ToFixed266_toward_zero (S754_finite true 13841203 (-22))
                   eq_refl eq_refl _ _) Hs).
  - vm_compute; discriminate.
  - vm_compute; reflexivity.
Defined.

(** ** Tab stops *)

(** A finite non-zero [float32] divided by itself is 1. *)
Lemma div32_self (s : bool) (m : positive) (e : Z) :
  F32.div (S754_finite s m e) (S754_finite s m e) = S754_finite false 8388608 (-23).
Proof.
  unfold F32.div, SFdiv. rewrite xorb_nilpotent.
  unfold SFdiv_core_binary. cbn [Zdigits2].
  replace (Z.pos (digits2_pos m) + e - (Z.pos (digits2_pos m) + e)) with 0 by lia.
  rewrite Z.sub_diag. change (Z.min (fexp F32.prec F32.emax 0) 0) with (-24).
  change (0 - -24) with 24. cbv iota beta.
  rewrite Z.shiftl_mul_pow2 by lia.
  assert (Hq : Z.div_eucl (Z.pos m * 2 ^ 24) (Z.pos m) = (2 ^ 24, 0)).
  { pose proof (Z.div_eucl_eq (Z.pos m * 2 ^ 24) (Z.pos m) ltac:(lia)) as Heq.
    pose proof (Z.mod_pos_bound (Z.pos m * 2 ^ 24) (Z.pos m) ltac:(lia)) as Hb.
    unfold Z.modulo in Hb.
    destruct (Z.div_eucl (Z.pos m * 2 ^ 24) (Z.pos m)) as [q r].
    assert (q = 2 ^ 24) by nia. f_equal; nia. }
  rewrite Hq.
  assert (Hl : new_location (Z.pos m) 0 = loc_Exact).
  { unfold new_location, new_location_even, new_location_odd.
    destruct (Z.even (Z.pos m)); reflexivity. }
  rewrite Hl. reflexivity.
Qed.

(** Multiplying a finite [float32] by 1 leaves it as it is. *)
Lemma mul32_one (s : bool) (m : positive) (e : Z) :
  F32.valid (S754_finite s m e) = true ->
  F32.mul (S754_finite s m e) (S754_finite false 8388608 (-23)) = S754_finite s m e.
Proof.
  intros Hv. unfold F32.valid, valid_binary, bounded, canonical_mantissa in Hv.
  rewrite andb_true_iff, Z.eqb_eq, Z.leb_le in Hv. destruct Hv as [Hc He].
  unfold F32.mul, SFmul. rewrite xorb_false_r, Pos2Z.inj_mul.
  change (Z.pos 8388608) with (2 ^ 23).
  replace e with (e + -23 + 23) at 2 by lia.
  apply binary_round_aux_shift; [lia| |lia].
  replace (Z.pos (digits2_pos m) + 23 + (e + -23)) with (Z.pos (digits2_pos m) + e) by lia.
  rewrite Hc. lia.
Qed.

(** X5. From the cursor 0 the first tab stop is the stop width itself,
    exactly, for every finite non-zero stop width. *)
Theorem tabStop_from_zero (spacew : spec_float) (tabWidth : Z) (z : bool) :
  let width := if tabWidth <=? 0 then DefaultTabWidth else tabWidth in
  let stop_width := F32.mul spacew (float32_of_int width) in
  F32.valid stop_width = true ->
  is_finite stop_width = true ->
  F32.ne stop_width F32.zero = true ->
  tabStop spacew (S754_zero z) tabWidth = stop_width.
Proof.
  intros width stop_width Hv Hf Hn. unfold tabStop. fold width. fold stop_width.
  clearbody stop_width.
  destruct stop_width as [s|s| |s m e]; [destruct s; discriminate|discriminate|discriminate|].
  replace (F32.add (S754_zero z) (S754_finite s m e)) with (S754_finite s m e)
    by (destruct z; reflexivity).
  rewrite div32_self.
  change (float32_of_float64 (Modf_int (float64_of_float32 (S754_finite false 8388608 (-23)))))
    with (S754_finite false 8388608 (-23)).
  apply mul32_one, Hv.
Qed.

(** With the scale 1.3 (as a [float32]) and three spaces to a tab. *)
Lemma tabStop_from_zero_witness :
  let spacew := F32.mul (S754_finite false 10905190 (-23)) fontTabSpaceSize in
  F32.ne (F32.mul spacew (float32_of_int 3)) F32.zero = true /\
  tabStop spacew F32.zero 3 = F32.mul spacew (float32_of_int 3).
Proof.
  cbv zeta. split; [reflexivity|].
  exact (tabStop_from_zero (F32.mul (S754_finite false 10905190 (-23)) fontTabSpaceSize)
           3 false eq_refl eq_refl eq_refl).
Defined.

(** [tabStop] on the grid, in terms of the values of its arguments. *)
Lemma tabStop_grid_of_values (spacew x : spec_float) (tabWidth : Z)
    (a : Z) (b : positive) (g : Z) :
  let stop_width :=
    F32.mul spacew (float32_of_int (if tabWidth <=? 0 then DefaultTabWidth else tabWidth)) in
  F32.valid x = true -> is_finite x = true ->
  F32.valid stop_width = true -> is_finite stop_width = true ->
  0 <= g <= 126 -> 0 <= a -> a + Z.pos b <= 2 ^ 22 ->
  (SF2Q x == a # Z.to_pos (2 ^ g))%Q ->
  (SF2Q stop_width == Z.pos b # Z.to_pos (2 ^ g))%Q ->
  stop_width = grid32 b g /\
  tabStop spacew x tabWidth = grid32 (b * Z.to_pos ((a + Z.pos b) / Z.pos b)) g.
Proof.
  intros stop_width Hvx Hfx Hvw Hfw Hg Ha Hab Hx Hw.
  assert (Hdb : Z.pos (digits2_pos b) <= 24) by (apply digits2_pos_le; lia).
  assert (Hwg : stop_width = grid32 b g).
  { destruct stop_width as [s|s| |s m e] eqn:E; try discriminate.
    apply valid32_grid; assumption. }
  split; [exact Hwg|].
  assert (Hadd : F32.add x (grid32 b g) = grid32 (Z.to_pos (a + Z.pos b)) g).
  { destruct x as [s|s| |s m e]; try discriminate.
    - apply SF2Q_zero_grid in Hx. subst a. reflexivity.
    - destruct a as [|ap|ap]; [|clear Ha|lia].
      + exfalso. exact (SF2Q_finite_nonzero _ _ _ _ Hx).
      + assert (Hda : Z.pos (digits2_pos ap) <= 24) by (apply digits2_pos_le; lia).
        rewrite (valid32_grid s m e ap g Hvx Hg Hda Hx).
        apply add32_grid; [exact Hg|]. apply digits2_pos_le.
        rewrite Pos2Z.inj_add. lia. }
  replace ((a + Z.pos b) / Z.pos b)
    with (Z.pos (Z.to_pos (a + Z.pos b)) / Z.pos b)
    by (f_equal; apply Z2Pos.id; lia).
  apply tabStop_grid; try assumption.
  - change (Z.pos b <= Z.pos (Z.to_pos (a + Z.pos b))). rewrite Z2Pos.id by lia. lia.
  - rewrite Z2Pos.id by lia. exact Hab.
Qed.

Lemma grid32_valid (a : positive) (g : Z) :
  0 <= g <= 126 -> Z.pos (digits2_pos a) <= 24 -> F32.valid (grid32 a g) = true.
Proof.
  intros Hg Hd. pose proof (Pos2Z.is_pos (digits2_pos a)).
  apply valid32_normal; [apply grid32_digits; exact Hd | lia].
Qed.

(** X6. On the grid, a second tab lands exactly one stop width after the
    first: consecutive tabs are one stop width apart. *)
Theorem tabStop_twice (spacew x : spec_float) (tabWidth : Z)
    (a : Z) (b : positive) (g : Z) :
  let stop_width :=
    F32.mul spacew (float32_of_int (if tabWidth <=? 0 then DefaultTabWidth else tabWidth)) in
  F32.valid x = true -> is_finite x = true ->
  F32.valid stop_width = true -> is_finite stop_width = true ->
  0 <= g <= 126 -> 0 <= a -> a + 2 * Z.pos b <= 2 ^ 22 ->
  (SF2Q x == a # Z.to_pos (2 ^ g))%Q ->
  (SF2Q stop_width == Z.pos b # Z.to_pos (2 ^ g))%Q ->
  (SF2Q (tabStop spacew (tabStop spacew x tabWidth) tabWidth)
   == SF2Q (tabStop spacew x tabWidth) + SF2Q stop_width)%Q.
Proof.
  intros stop_width Hvx Hfx Hvw Hfw Hg Ha Hab Hx Hw.
  destruct (tabStop_grid_of_values spacew x tabWidth a b g Hvx Hfx Hvw Hfw Hg Ha
              ltac:(lia) Hx Hw) as [Hwg Hr1].
  fold stop_width in Hwg.
  set (i := (a + Z.pos b) / Z.pos b) in *.
  assert (Hi : 1 <= i) by (apply Z.div_le_lower_bound; lia).
  assert (Hib : Z.pos b * i <= a + Z.pos b) by (apply Z.mul_div_le; lia).
  assert (Hd1 : Z.pos (digits2_pos (b * Z.to_pos i)) <= 24).
  { apply digits2_pos_le. rewrite Pos2Z.inj_mul, Z2Pos.id by lia. lia. }
  pose proof (grid32_value (b * Z.to_pos i) g Hg Hd1) as Hv1.
  rewrite Pos2Z.inj_mul, Z2Pos.id in Hv1 by lia.
  destruct (tabStop_grid_of_values spacew (tabStop spacew x tabWidth) tabWidth
              (Z.pos b * i) b g) as [_ Hr2]; try assumption.
  - rewrite Hr1. apply grid32_valid; assumption.
  - rewrite Hr1. reflexivity.
  - lia.
  - lia.
  - rewrite Hr1. exact Hv1.
  - rewrite Hr2.
    assert (Hi1 : (Z.pos b * i + Z.pos b) / Z.pos b = i + 1).
    { replace (Z.pos b * i + Z.pos b) with ((i + 1) * Z.pos b) by ring.
      apply Z.div_mul. lia. }
    rewrite Hi1.
    assert (Hd2 : Z.pos (digits2_pos (b * Z.to_pos (i + 1))) <= 24).
    { apply digits2_pos_le. rewrite Pos2Z.inj_mul, Z2Pos.id by lia. lia. }
    rewrite (grid32_value _ g Hg Hd2), Hr1, Hv1, Hw.
    rewrite Pos2Z.inj_mul, Z2Pos.id by lia.
    unfold Qeq, Qplus. cbn [Qnum Qden]. rewrite Pos2Z.inj_mul. ring.
Qed.

(** From the cursor 20 with a 10-pixel space and the default tab width:
    40, then 80. *)
Lemma tabStop_twice_witness :
  (SF2Q (float32_of_int 20) == 20 # 1)%Q /\
  (SF2Q (tabStop (float32_of_int 10) (tabStop (float32_of_int 10) (float32_of_int 20) 0) 0)
   == SF2Q (tabStop (float32_of_int 10) (float32_of_int 20) 0)
      + SF2Q (F32.mul (float32_of_int 10) (float32_of_int DefaultTabWidth)))%Q.
Proof.
  assert (Hg : 0 <= 0 <= 126) by lia.
  assert (Ha : 0 <= 20) by lia.
  assert (Hab : 20 + 2 * 40 <= 2 ^ 22) by (vm_compute; discriminate).
  assert (Hx : (SF2Q (float32_of_int 20) == 20 # 1)%Q) by reflexivity.
  assert (Hw : (SF2Q (F32.mul (float32_of_int 10) (float32_of_int DefaultTabWidth))
                == 40 # 1)%Q) by reflexivity.
  split; [exact Hx|].
  exact (tabStop_twice (float32_of_int 10) (float32_of_int 20) 0 20 40 0
           eq_refl eq_refl eq_refl eq_refl Hg Ha Hab Hx Hw).
Defined.

(** ** Strings: carriage returns, tabs, runes *)

Lemma strip_cr_app (s1 s2 : string) :
  strip_cr (String.append s1 s2) = String.append (strip_cr s1) (strip_cr s2).
Proof.
  induction s1 as [|a s1 IH]; [reflexivity|].
  change (String.append (String a s1) s2) with (String a (String.append s1 s2)).
  cbn [strip_cr]. destruct (Ascii.eqb a (ascii_of_nat 13)); [exact IH|].
  change (String.append (String a (strip_cr s1)) (strip_cr s2))
    with (String a (String.append (strip_cr s1) (strip_cr s2))).
  f_equal. exact IH.
Qed.

Lemma strip_cr_repeat_CR (n : nat) : strip_cr (repeat_char CR n) = EmptyString.
Proof. induction n as [|n IH]; [reflexivity|exact IH]. Qed.

Lemma bytes_of_app (s1 s2 : string) :
  bytes_of (String.append s1 s2) = bytes_of s1 ++ bytes_of s2.
Proof.
  unfold bytes_of. induction s1 as [|a s1 IH]; [reflexivity|].
  change (String.append (String a s1) s2) with (String a (String.append s1 s2)).
  cbn [list_ascii_of_string map app]. f_equal. exact IH.
Qed.

Lemma utf8_first_lo (p0 sz lo hi : Z) :
  utf8_first p0 = Some (sz, lo, hi) -> 0x80 <= lo /\ (sz = 2 \/ sz = 3 \/ sz = 4).
Proof.
  unfold utf8_first.
  repeat match goal with
         | |- context [if ?c then _ else _] => destruct c
         end; intros [= <- <- <-] || discriminate; lia.
Qed.

(** An ASCII byte after any bytes decodes to itself, after the runes of
    the bytes before it: it ends whatever sequence was open. *)
Lemma decode_runes_snoc (b : Z) :
  0 <= b < 0x80 ->
  forall (n : nat) (p : list Z), (length p <= n)%nat ->
  decode_runes (p ++ [b]) = decode_runes p ++ [b].
Proof.
  intros Hb.
  assert (Hb80 : (b <? 0x80) = true) by (apply Z.ltb_lt; lia).
  assert (Hcont : utf8_cont b = false).
  { unfold utf8_cont. destruct (Z.leb_spec 0x80 b); [lia|reflexivity]. }
  induction n as [|n IH]; intros p Hl.
  - destruct p; [|cbn in Hl; lia]. cbn. rewrite Hb80. reflexivity.
  - destruct p as [|p0 t0]; [cbn; rewrite Hb80; reflexivity|].
    cbn [length] in Hl.
    assert (IH0 : decode_runes (t0 ++ [b]) = decode_runes t0 ++ [b]) by (apply IH; lia).
    cbn [app decode_runes]. fold (t0 ++ [b]).
    destruct (p0 <? 0x80); [cbn [app]; f_equal; exact IH0|].
    destruct (utf8_first p0) as [[[sz lo] hi]|] eqn:Hfirst;
      [|destruct (t0 ++ [b]), t0; cbn [app]; f_equal; exact IH0].
    destruct (utf8_first_lo _ _ _ _ Hfirst) as [Hlo Hsz].
    destruct t0 as [|b1 t1].
    { cbn [app]. destruct (Z.leb_spec lo b); [lia|]. cbn [andb].
      cbn. rewrite Hb80. reflexivity. }
    cbn [app] in *. cbn [length] in Hl.
    destruct ((lo <=? b1) && (b1 <=? hi)); [|cbn [app]; f_equal; exact IH0].
    assert (IH1 : decode_runes (t1 ++ [b]) = decode_runes t1 ++ [b]) by (apply IH; lia).
    destruct (sz =? 2); [cbn [app]; f_equal; exact IH1|].
    destruct t1 as [|b2 t2].
    { cbn [app]. rewrite Hcont. cbn [app]. f_equal. exact IH0. }
    cbn [app] in *. cbn [length] in Hl.
    destruct (utf8_cont b2); [|cbn [app]; f_equal; exact IH0].
    assert (IH2 : decode_runes (t2 ++ [b]) = decode_runes t2 ++ [b]) by (apply IH; lia).
    destruct (sz =? 3); [cbn [app]; f_equal; exact IH2|].
    destruct t2 as [|b3 t3].
    { cbn [app]. rewrite Hcont. cbn [app]. f_equal. exact IH0. }
    cbn [app] in *. cbn [length] in Hl.
    destruct (utf8_cont b3); [|cbn [app]; f_equal; exact IH0].
    cbn [app]. f_equal. apply IH. lia.
Qed.

Lemma runes_snoc_TAB (s : string) :
  runes (strip_cr (String.append s (String TAB EmptyString)))
    = runes (strip_cr s) ++ [9].
Proof.
  rewrite strip_cr_app. unfold runes. rewrite bytes_of_app.
  change (bytes_of (strip_cr (String TAB EmptyString))) with [9].
  apply (decode_runes_snoc 9 ltac:(lia) (length (bytes_of (strip_cr s)))). lia.
Qed.

(** ** Segmentation *)

Section Segmentation.
Context {F : Type} `{Shaper F}.

(** X7. A string with no character but carriage returns, the empty string
    included, has zero size and zero advance, and nothing is handed to
    the sink; measured, it is zero, and drawn, it leaves the image as it
    was. *)
Theorem processString_blank (n : nat) (f : list (option F))
    (fontSize scale : spec_float) (tabWidth : Z) :
  (forall S (cb : sink F S) (st : S),
     processString (repeat_char CR n) f fontSize scale tabWidth cb st
       = (NewSize F32.zero F32.zero, F32.zero, st)) /\
  MeasureString f (repeat_char CR n) fontSize tabWidth
    = (NewSize F32.zero F32.zero, F32.zero) /\
  (forall Image C (draw : Renderer C -> Output.t F -> Image -> Z -> Z -> Image)
          (dst : Image) (color : C),
     DrawString draw dst (repeat_char CR n) color f fontSize scale tabWidth = dst).
Proof.
  assert (Hp : forall S (cb : sink F S) (st : S) sc,
             processString (repeat_char CR n) f fontSize sc tabWidth cb st
               = (NewSize F32.zero F32.zero, F32.zero, st)).
  { intros S cb st sc. unfold processString. rewrite strip_cr_repeat_CR. reflexivity. }
  split; [intros; apply Hp|]. split.
  - unfold MeasureString. rewrite Hp. destruct (String.eqb _ _); reflexivity.
  - intros Image C draw dst color. unfold DrawString. rewrite Hp.
    destruct (String.eqb _ _); reflexivity.
Qed.

(** X8. Carriage returns do not count: a string with a carriage return
    inserted anywhere is processed as the string without it. *)
Theorem processString_ignores_CR (s1 s2 : string) (f : list (option F))
    (fontSize scale : spec_float) (tabWidth : Z) {S} (cb : sink F S) (st : S) :
  processString (String.append s1 (String CR s2)) f fontSize scale tabWidth cb st
    = processString (String.append s1 s2) f fontSize scale tabWidth cb st.
Proof.
  unfold processString. rewrite !strip_cr_app.
  change (strip_cr (String CR s2)) with (strip_cr s2). reflexivity.
Qed.

Lemma segment_fold_no_tab {S} (cb : sink F S) rs f fontSize scale tabWidth
    (l : list (nat * Z)) :
  Forall (fun ic => ic.2 <> 9) l ->
  forall a, fold_left (segment_step rs f fontSize scale tabWidth cb) l a = a.
Proof.
  induction 1 as [|[i c] l Hc _ IH]; intros a; [reflexivity|].
  cbn [fold_left]. unfold segment_step at 2. cbn [snd] in Hc.
  destruct (Z.eqb_spec c 9); [contradiction|]. apply IH.
Qed.

Lemma Forall_combine_snd {A B} (P : B -> Prop) (la : list A) (lb : list B) :
  Forall P lb -> Forall (fun ab => P ab.2) (combine la lb).
Proof.
  intros Hl. revert la. induction Hl as [|b lb Hb _ IH]; intros [|a la]; cbn [combine];
    try constructor; [exact Hb|apply IH].
Qed.

Lemma slice_all (rs : list Z) : slice rs 0 (length rs) = rs.
Proof. unfold slice. rewrite Nat.sub_0_r. cbn [skipn]. apply firstn_all. Qed.

Lemma processSubString_size {S} (cb : sink F S) str f fontSize scale startX st :
  let r := processSubString str f fontSize scale startX cb st in
  Width r.1.1 = r.1.2.
Proof.
  cbv zeta. unfold processSubString.
  match goal with |- context [fold_left ?g ?l ?a] => destruct (fold_left g l a) as [[a' t'] c'] end.
  reflexivity.
Qed.

(** X9. A string without a tab, and not empty once carriage returns are
    removed, is laid out as a single substring from the cursor 0:
    [processString] returns what [processSubString] returns on all its
    runes. *)
Theorem processString_no_tab (s : string) (f : list (option F))
    (fontSize scale : spec_float) (tabWidth : Z) {S} (cb : sink F S) (st : S) :
  runes (strip_cr s) <> [] ->
  Forall (fun r => r <> 9) (runes (strip_cr s)) ->
  processString s f fontSize scale tabWidth cb st
    = processSubString (runes (strip_cr s)) f fontSize scale F32.zero cb st.
Proof.
  intros Hne Hnt. unfold processString.
  rewrite segment_fold_no_tab
    by (apply (Forall_combine_snd (fun r => r <> 9)); exact Hnt).
  cbn [seg_start seg_x seg_st seg_height].
  destruct (runes (strip_cr s)) as [|r rs] eqn:E; [contradiction|].
  change (0 <? length (r :: rs))%nat with true. cbv iota.
  rewrite slice_all.
  pose proof (processSubString_size cb (r :: rs) f fontSize scale F32.zero st) as Hw.
  cbv zeta in Hw.
  destruct (processSubString (r :: rs) f fontSize scale F32.zero cb st) as [[[w h] adv] st'].
  cbn in *. subst w. reflexivity.
Qed.

Lemma slice_app (rs extra : list Z) (start i : nat) :
  (i <= length rs)%nat -> slice (rs ++ extra) start i = slice rs start i.
Proof.
  intros Hi. unfold slice.
  destruct (Nat.le_gt_cases start (length rs)) as [Hs|Hs].
  - rewrite skipn_app.
    replace (start - length rs)%nat with 0%nat by lia. cbn [skipn].
    rewrite firstn_app.
    replace (i - start - length (skipn start rs))%nat with 0%nat
      by (rewrite length_skipn; lia).
    cbn [firstn]. apply app_nil_r.
  - replace (i - start)%nat with 0%nat by lia. reflexivity.
Qed.

Lemma segment_step_app {S} (cb : sink F S) rs extra f fontSize scale tabWidth a i c :
  (i <= length rs)%nat ->
  segment_step (rs ++ extra) f fontSize scale tabWidth cb a (i, c)
    = segment_step rs f fontSize scale tabWidth cb a (i, c).
Proof. intros Hi. unfold segment_step. rewrite slice_app by exact Hi. reflexivity. Qed.

Lemma segment_fold_app {S} (cb : sink F S) rs extra f fontSize scale tabWidth
    (l : list (nat * Z)) :
  Forall (fun ic => (ic.1 <= length rs)%nat) l ->
  forall a,
  fold_left (segment_step (rs ++ extra) f fontSize scale tabWidth cb) l a
    = fold_left (segment_step rs f fontSize scale tabWidth cb) l a.
Proof.
  induction 1 as [|[i c] l Hi _ IH]; intros a; [reflexivity|].
  cbn [fold_left]. rewrite segment_step_app by exact Hi. apply IH.
Qed.

Lemma combine_seq_bound {A} (l : list A) (k : nat) :
  Forall (fun ic => (ic.1 < k + length l)%nat) (combine (seq k (length l)) l).
Proof.
  revert k. induction l as [|x l IH]; intros k; cbn [length seq combine]; constructor.
  - cbn. lia.
  - apply (Forall_impl _ _ _ (IH (S k))). intros [i c]. cbn. lia.
Qed.

Lemma combine_seq_snoc_from {A} (l : list A) (x : A) (k : nat) :
  combine (seq k (length (l ++ [x]))) (l ++ [x])
    = combine (seq k (length l)) l ++ [((k + length l)%nat, x)].
Proof.
  revert k. induction l as [|y l IH]; intros k; cbn [app length seq combine].
  - rewrite Nat.add_0_r. reflexivity.
  - rewrite IH. cbn [app]. replace (S k + length l)%nat with (k + S (length l))%nat by lia. reflexivity.
Qed.

Lemma combine_seq_snoc {A} (l : list A) (x : A) :
  combine (seq 0 (length (l ++ [x]))) (l ++ [x])
    = combine (seq 0 (length l)) l ++ [(length l, x)].
Proof. apply (combine_seq_snoc_from l x 0). Qed.

Lemma processString_snoc_TAB (s : string) (f : list (option F))
    (fontSize scale : spec_float) (tabWidth : Z) {S} (cb : sink F S) (st : S) :
  let r := processString s f fontSize scale tabWidth cb st in
  let x := tabStop (F32.mul scale fontTabSpaceSize) r.1.2 tabWidth in
  processString (String.append s (String TAB EmptyString)) f fontSize scale tabWidth cb st
    = (NewSize x (Height r.1.1), x, r.2).
Proof.
  cbv zeta. unfold processString. rewrite runes_snoc_TAB.
  set (rs := runes (strip_cr s)).
  rewrite combine_seq_snoc, fold_left_app.
  rewrite (segment_fold_app cb rs [9] f fontSize scale tabWidth
             (combine (seq 0 (length rs)) rs))
    by (apply (Forall_impl _ _ _ (combine_seq_bound rs 0)); intros [i c]; cbn; lia).
  set (a := fold_left (segment_step rs f fontSize scale tabWidth cb)
              (combine (seq 0 (length rs)) rs) _).
  cbn [fold_left]. rewrite segment_step_app by lia.
  unfold segment_step. cbn [Z.eqb Pos.eqb].
  rewrite length_app. cbn [length].
  destruct (seg_start a <? length rs)%nat.
  - destruct (processSubString (slice rs (seg_start a) (length rs)) f fontSize scale
                (seg_x a) cb (seg_st a)) as [[inset adv] st'].
    cbn [seg_start seg_x seg_height seg_st fst snd].
    replace (length rs + 1 <? length rs + 1)%nat with false
      by (symmetry; apply Nat.ltb_ge; lia).
    reflexivity.
  - cbn [seg_start seg_x seg_height seg_st fst snd].
    replace (length rs + 1 <? length rs + 1)%nat with false
      by (symmetry; apply Nat.ltb_ge; lia).
    reflexivity.
Qed.

(** X10. A tab at the end of a string takes the cursor reached by the string
    without it to the next tab stop; the height and what was handed to
    the sink stay those of the string without it. *)
Theorem processString_trailing_tab (s : string) (f : list (option F))
    (fontSize scale : spec_float) (tabWidth : Z) {S} (cb : sink F S) (st : S) :
  let r := processString s f fontSize scale tabWidth cb st in
  let x := tabStop (F32.mul scale fontTabSpaceSize) r.1.2 tabWidth in
  processString (String.append s (String TAB EmptyString)) f fontSize scale tabWidth cb st
    = (NewSize x (Height r.1.1), x, r.2).
Proof. apply processString_snoc_TAB. Qed.
End Segmentation.

Section SegmentationMore.
Context {F : Type} `{Shaper F}.

Lemma repeat_char_snoc (a : ascii) (n : nat) :
  repeat_char a (S n) = String.append (repeat_char a n) (String a EmptyString).
Proof.
  induction n as [|n IH]; [reflexivity|].
  change (String a (repeat_char a (S n))
          = String a (String.append (repeat_char a n) (String a EmptyString))).
  f_equal. exact IH.
Qed.

(** X11. A string of [n] tabs (and nothing else) has height zero, hands
    nothing to the sink, and advances to the [n]-th tab stop counted from
    the cursor 0. *)
Theorem processString_tabs (n : nat) (f : list (option F))
    (fontSize scale : spec_float) (tabWidth : Z) {S} (cb : sink F S) (st : S) :
  let x := Nat.iter n (fun x => tabStop (F32.mul scale fontTabSpaceSize) x tabWidth)
             F32.zero in
  processString (repeat_char TAB n) f fontSize scale tabWidth cb st
    = (NewSize x F32.zero, x, st).
Proof.
  cbv zeta. induction n as [|n IH]; [reflexivity|].
  rewrite repeat_char_snoc, processString_snoc_TAB, IH. reflexivity.
Qed.

(** What one turn of the layout loop adds to the record: the emitted run
    and its vertical origin. *)
Lemma layout_run_calls (fontSize base : spec_float) (run : Output.t F)
    (advance thickness : spec_float) (calls : list (call F)) :
  exists x,
    (layout_run fontSize base record (advance, thickness, calls) run).2
      = calls ++ [(emitted (float32ToFixed266 fontSize) run, x,
                   if missing_glyph run
                   then fixed266ToFloat32
                          (Ascent (Output.LineBounds (emitted (float32ToFixed266 fontSize) run)))
                   else base)].
Proof.
  unfold layout_run, processFontRun, emitted, record.
  destruct (missing_glyph run); eexists; reflexivity.
Qed.

Lemma layout_fold_calls (fontSize base : spec_float) (line : list (Output.t F)) :
  forall advance thickness calls,
  map (fun c : call F => (c.1.1, c.2))
      (fold_left (layout_run fontSize base record) line (advance, thickness, calls)).2
    = map (fun c : call F => (c.1.1, c.2)) calls
      ++ map (fun run =>
                (emitted (float32ToFixed266 fontSize) run,
                 if missing_glyph run
                 then fixed266ToFloat32
                        (Ascent (Output.LineBounds (emitted (float32ToFixed266 fontSize) run)))
                 else base)) line.
Proof.
  induction line as [|run line IH]; intros advance thickness calls.
  - cbn. rewrite app_nil_r. reflexivity.
  - cbn [fold_left map].
    destruct (layout_run_calls fontSize base run advance thickness calls) as [x Hx].
    destruct (layout_run fontSize base record (advance, thickness, calls) run)
      as [[advance' thickness'] calls'].
    cbn [snd] in Hx. subst calls'.
    rewrite IH, map_app. cbn [map fst snd]. rewrite <- app_assoc. reflexivity.
Qed.

(** X12. [processSubString] hands every shaped run of the substring to the
    sink exactly once, in the order of the runs: the run itself at the
    shared baseline (the largest ascent of the line), or, when its sole
    glyph is missing, the shaped replacement character at that
    replacement's own ascent. *)
Theorem processSubString_calls (str : list Z) (f : list (option F))
    (fontSize scale startX : spec_float) :
  let in_ := {| Input.Text := str; Input.RunStart := 0;
                Input.RunEnd := Z.of_nat (length str);
                Input.Direction := DirectionLTR; Input.Face := None;
                Input.Size := fixed_I (int_of_float 64 (F32.mul fontSize scale)) |} in
  let line := map Shape (Split in_ f) in
  let calls := (processSubString str f fontSize scale startX record []).2 in
  length calls = length (Split in_ f) /\
  map (fun c : call F => (c.1.1, c.2)) calls
    = map (fun run =>
             (emitted (float32ToFixed266 fontSize) run,
              if missing_glyph run
              then fixed266ToFloat32
                     (Ascent (Output.LineBounds (emitted (float32ToFixed266 fontSize) run)))
              else line_base line)) line /\
  (forall S (cb : sink F S) (st : S),
     (processSubString str f fontSize scale startX cb st).2 = replay cb calls st).
Proof.
  cbv zeta.
  assert (Hm : map (fun c : call F => (c.1.1, c.2))
                 (processSubString str f fontSize scale startX record []).2
               = map (fun run =>
                        (emitted (float32ToFixed266 fontSize) run,
                         if missing_glyph run
                         then fixed266ToFloat32
                                (Ascent (Output.LineBounds
                                           (emitted (float32ToFixed266 fontSize) run)))
                         else line_base (map Shape (Split
                                {| Input.Text := str; Input.RunStart := 0;
                                   Input.RunEnd := Z.of_nat (length str);
                                   Input.Direction := DirectionLTR; Input.Face := None;
                                   Input.Size := fixed_I (int_of_float 64 (F32.mul fontSize scale)) |}
                                f))))
                   (map Shape (Split
                      {| Input.Text := str; Input.RunStart := 0;
                         Input.RunEnd := Z.of_nat (length str);
                         Input.Direction := DirectionLTR; Input.Face := None;
                         Input.Size := fixed_I (int_of_float 64 (F32.mul fontSize scale)) |}
                      f))).
  { unfold processSubString.
    match goal with |- context [fold_left ?g ?l (?a, ?t, ?c)] =>
      pose proof (layout_fold_calls fontSize
                    (line_base l) l a t c) as Hc;
      destruct (fold_left g l (a, t, c)) as [[a' t'] c'] end.
    cbn [snd map app] in *. exact Hc. }
  split; [|split].
  - apply (f_equal (@length _)) in Hm. rewrite !length_map in Hm. exact Hm.
  - exact Hm.
  - intros S cb st.
    pose proof (processSubString_replay cb st str f fontSize scale startX []) as Hr.
    cbv zeta in Hr. change (replay cb [] st) with st in Hr. rewrite Hr. reflexivity.
Qed.
End SegmentationMore.

(** ** The font cache *)

Section FontCache.
Context {F R : Type}.

(** X15. Once a style has been resolved it stays resolved: the item returned
    is stored under the style, a further call (whatever [fontDP] and
    [texScale]) returns it again and leaves the cache as it is, and the
    entries of the other styles are not touched. *)
Theorem CachedFontFace_cached (ParseTTF : R -> option F) (theme : Theme R)
    (style : TextStyle) (dp sc : spec_float) (fc : gmap TextStyle (FontCacheItem F)) :
  let r := CachedFontFace ParseTTF theme style dp sc fc in
  r.2 !! style = Some r.1 /\
  (forall dp' sc', CachedFontFace ParseTTF theme style dp' sc' r.2 = r) /\
  (forall style', style' <> style -> r.2 !! style' = fc !! style').
Proof.
  cbv zeta. unfold CachedFontFace.
  destruct (fc !! style) as [val|] eqn:E; cbn [fst snd].
  - split; [exact E|]. split; [|reflexivity]. intros _ _. rewrite E. reflexivity.
  - split; [apply lookup_insert_eq|]. split.
    + intros _ _. rewrite lookup_insert_eq. reflexivity.
    + intros style' Hne. apply lookup_insert_ne. congruence.
Qed.

(** X16. A cached face set outlives a change of theme: as long as the cache
    holds the style, [CachedFontFace] answers with the cached item
    whatever the theme and the parser now are.  After [ClearFontCache]
    the next resolution is built from the current theme, and the cache
    then holds that style alone. *)
Theorem CachedFontFace_stale_until_cleared (ParseTTF : R -> option F) (theme : Theme R)
    (style : TextStyle) (dp sc : spec_float) (fc : gmap TextStyle (FontCacheItem F))
    (item : FontCacheItem F) :
  fc !! style = Some item ->
  CachedFontFace ParseTTF theme style dp sc fc = (item, fc) /\
  CachedFontFace ParseTTF theme style dp sc (ClearFontCache fc)
    = (build_faces ParseTTF theme style, {[ style := build_faces ParseTTF theme style ]}).
Proof.
  intros E. split.
  - unfold CachedFontFace. rewrite E. reflexivity.
  - unfold CachedFontFace, ClearFontCache. rewrite lookup_empty. reflexivity.
Qed.
End FontCache.

(** A cache filled under a theme whose fonts all parse keeps answering
    with them under a theme where nothing parses. *)
Lemma CachedFontFace_stale_until_cleared_witness :
  let fc := (CachedFontFace Bench.parse_all (Bench.theme None) BenchRuns.plain
               (Bench.f32 12) (Bench.f32 1) ∅).2 in
  fc !! BenchRuns.plain = Some {| Fonts := [Some 10%nat; Some 11%nat] |} /\
  CachedFontFace Bench.parse_none (Bench.theme None) BenchRuns.plain
    (Bench.f32 12) (Bench.f32 1) fc = ({| Fonts := [Some 10%nat; Some 11%nat] |}, fc).
Proof.
  cbv zeta.
  assert (E : (CachedFontFace Bench.parse_all (Bench.theme None) BenchRuns.plain
                 (Bench.f32 12) (Bench.f32 1) ∅).2 !! BenchRuns.plain
              = Some {| Fonts := [Some 10%nat; Some 11%nat] |}) by reflexivity.
  split; [exact E|].
  exact (proj1 (CachedFontFace_stale_until_cleared Bench.parse_none (Bench.theme None)
                  BenchRuns.plain (Bench.f32 12) (Bench.f32 1) _ _ E)).
Defined.

(** ** Face lookup *)

Section FaceLookup.
Context {F : Type} `{Cmap F}.

Lemma resolve_loop_first (pre post : list (option F)) (f : F) (r : Z) :
  Forall (fun x => exists g, x = Some g /\ NominalGlyph g r = None) pre ->
  resolve_loop (pre ++ Some f :: post) r
    = match NominalGlyph f r with
      | Some _ => Returns (Some f)
      | None => resolve_loop post r
      end.
Proof.
  induction 1 as [|x pre [g [-> Hg]] _ IH]; [reflexivity|].
  cbn [app resolve_loop]. rewrite Hg. exact IH.
Qed.

Lemma resolve_loop_none (ff : list (option F)) (r : Z) :
  Forall (fun x => exists g, x = Some g /\ NominalGlyph g r = None) ff ->
  resolve_loop ff r = Returns None.
Proof.
  induction 1 as [|x pre [g [-> Hg]] _ IH]; [reflexivity|].
  cbn [resolve_loop]. rewrite Hg. exact IH.
Qed.

(** X17. The first face that has a glyph for the rune wins; when the faces are
    all loaded and none has it, the first face of the list is returned. *)
Theorem ResolveFace_first_match (pre post : list (option F)) (f : F) (r : Z) :
  Forall (fun x => exists g, x = Some g /\ NominalGlyph g r = None) pre ->
  (forall gid, NominalGlyph f r = Some gid ->
     ResolveFace (pre ++ Some f :: post) r = Returns (Some f)) /\
  (NominalGlyph f r = None ->
   Forall (fun x => exists g, x = Some g /\ NominalGlyph g r = None) post ->
     ResolveFace (pre ++ Some f :: post) r = Returns (hd (Some f) pre)).
Proof.
  intros Hpre. split.
  - intros gid Hf. unfold ResolveFace. rewrite (resolve_loop_first pre post f r Hpre), Hf.
    reflexivity.
  - intros Hf Hpost. unfold ResolveFace.
    rewrite (resolve_loop_first pre post f r Hpre), Hf, (resolve_loop_none post r Hpost).
    destruct pre; reflexivity.
Qed.

Lemma resolve_loop_in (ff : list (option F)) (r : Z) (x : option F) :
  resolve_loop ff r = Returns x -> x = None \/ exists f, x = Some f /\ In (Some f) ff.
Proof.
  induction ff as [|[g|] ff IH]; cbn [resolve_loop].
  - intros [= <-]. left. reflexivity.
  - destruct (NominalGlyph g r).
    + intros [= <-]. right. exists g. split; [reflexivity|left; reflexivity].
    + intros Hr. destruct (IH Hr) as [->|[f [-> Hin]]]; [left; reflexivity|].
      right. exists f. split; [reflexivity|right; exact Hin].
  - discriminate.
Qed.

Lemma ResolveFace_loaded (ff : list (option F)) (r : Z) :
  Forall (fun x => x <> None) ff -> ff <> [] ->
  exists f, ResolveFace ff r = Returns (Some f).
Proof.
  intros Hall Hne. unfold ResolveFace.
  assert (Hl : exists y, resolve_loop ff r = Returns y).
  { clear Hne. induction Hall as [|[g|] ff' Hx _ IH]; [eexists; reflexivity| |contradiction].
    cbn [resolve_loop]. destruct (NominalGlyph g r); [eexists; reflexivity|exact IH]. }
  destruct Hl as [[f|] Hl]; rewrite Hl; [exists f; reflexivity|].
  destruct ff as [|[f0|] ff']; [contradiction|exists f0; reflexivity|].
  apply Forall_cons in Hall. destruct Hall as [Hc _]. contradiction.
Qed.

(** X18. [ResolveFace] panics on the empty list and when it meets a nil face
    before a face that has the glyph; in every other case it returns a
    face of the list, never nil. *)
Theorem ResolveFace_returns_or_panics (ff : list (option F)) (r : Z) :
  ResolveFace [] r = Panics /\
  (forall pre post,
     Forall (fun x => exists g, x = Some g /\ NominalGlyph g r = None) pre ->
     ResolveFace (pre ++ None :: post) r = Panics) /\
  (forall x, ResolveFace ff r = Returns x -> exists f, x = Some f /\ In (Some f) ff) /\
  (Forall (fun x => x <> None) ff -> ff <> [] -> exists f, ResolveFace ff r = Returns (Some f)).
Proof.
  split; [reflexivity|]. split; [|split].
  - intros pre post Hpre. unfold ResolveFace.
    assert (Hl : resolve_loop (pre ++ None :: post) r = Panics).
    { induction Hpre as [|x pre [g [-> Hg]] _ IH]; [reflexivity|].
      cbn [app resolve_loop]. rewrite Hg. exact IH. }
    rewrite Hl. reflexivity.
  - intros x. unfold ResolveFace.
    destruct (resolve_loop ff r) as [[f|]|] eqn:E; [| |discriminate].
    + intros [= <-]. destruct (resolve_loop_in ff r _ E) as [Hn|[f' [[= <-] Hin]]];
        [discriminate|]. exists f. split; [reflexivity|exact Hin].
    + destruct ff as [|[f0|] ff']; [discriminate| |discriminate].
      intros [= <-]. exists f0. split; [reflexivity|left; reflexivity].
  - apply ResolveFace_loaded.
Qed.

(** X19. Looking a rune up in a resolved face set: when neither the primary
    nor the default face of the category loads, every lookup panics; when
    the default face loads, and the emoji face too if the theme has one,
    no lookup panics. *)
Theorem ResolveFace_of_face_set {R : Type} (ParseTTF : R -> option F) (theme : Theme R)
    (style : TextStyle) (dp sc : spec_float) (fc : gmap TextStyle (FontCacheItem F)) (r : Z) :
  reachable ParseTTF theme fc ->
  let faces := Fonts (CachedFontFace ParseTTF theme style dp sc fc).1 in
  (load_category ParseTTF theme style = (None, None) -> ResolveFace faces r = Panics) /\
  ((load_category ParseTTF theme style).2 <> None ->
   (forall emoji, DefaultEmojiFont theme = Some emoji -> ParseTTF emoji <> None) ->
   exists f, ResolveFace faces r = Returns (Some f)).
Proof.
  intros Hr. cbv zeta.
  rewrite (resolve_reachable ParseTTF theme style dp sc fc Hr), build_fonts.
  split.
  - intros ->. reflexivity.
  - intros Hd He.
    apply ResolveFace_loaded; [|discriminate].
    destruct (load_category ParseTTF theme style) as [[p|] d]; cbn [fst snd] in *;
      (constructor; [congruence|]); (constructor; [exact Hd|]);
      destruct (DefaultEmojiFont theme) as [e|]; cbn [app];
      try constructor; try constructor; exact (He e eq_refl).
Qed.
End FaceLookup.

(** ** Cached measurement *)

Section Memo.
Context {F R : Type} `{Shaper F}.
Variable ParseTTF : R -> option F.
Variable theme : Theme R.

Lemma CachedFontFace_again (style : TextStyle) (dp sc : spec_float)
    (fc : gmap TextStyle (FontCacheItem F)) :
  CachedFontFace ParseTTF theme style dp sc (CachedFontFace ParseTTF theme style dp sc fc).2
    = CachedFontFace ParseTTF theme style dp sc fc.
Proof.
  unfold CachedFontFace.
  destruct (fc !! style) as [val|] eqn:E; cbn [snd].
  - rewrite E. reflexivity.
  - rewrite lookup_insert_eq. reflexivity.
Qed.

Lemma CachedFontFace_consistent (style : TextStyle) (dp sc : spec_float)
    (fc : gmap TextStyle (FontCacheItem F)) :
  consistent ParseTTF theme fc ->
  (CachedFontFace ParseTTF theme style dp sc fc).1 = build_faces ParseTTF theme style /\
  consistent ParseTTF theme (CachedFontFace ParseTTF theme style dp sc fc).2.
Proof.
  intros Hc. split; [|apply resolve_consistent, Hc].
  unfold CachedFontFace. destruct (fc !! style) as [val|] eqn:E; [|reflexivity].
  exact (Hc style val E).
Qed.

Lemma RenderedTextSize_hit (text : string) (fontSize : spec_float)
    (style : TextStyle) (w : Caches F) (size : Size) (base : spec_float) :
  GetFontMetrics text fontSize style (metrics w) = (size, base) ->
  F32.ne base F32.zero = true ->
  RenderedTextSize ParseTTF theme text fontSize style w = (size, base, w).
Proof. intros Eg Eb. unfold RenderedTextSize. rewrite Eg, Eb. reflexivity. Qed.

Lemma RenderedTextSize_miss (text : string) (fontSize : spec_float)
    (style : TextStyle) (w : Caches F) (size size' : Size) (base base' : spec_float)
    (face : FontCacheItem F) (fc : gmap TextStyle (FontCacheItem F)) :
  GetFontMetrics text fontSize style (metrics w) = (size, base) ->
  F32.ne base F32.zero = false ->
  CachedFontFace ParseTTF theme style fontSize (float32_of_int 1) (fontCache w) = (face, fc) ->
  MeasureString (Fonts face) text fontSize (TabWidth style) = (size', base') ->
  RenderedTextSize ParseTTF theme text fontSize style w
    = (size', base',
       {| fontCache := fc;
          metrics := SetFontMetrics text fontSize style size' base' (metrics w) |}).
Proof.
  intros Eg Eb Ec Em. unfold RenderedTextSize, measureText.
  rewrite Eg, Eb, Ec, Em. reflexivity.
Qed.

(** X20. Calling [RenderedTextSize] again with the same arguments, on the
    caches the first call left, returns the same size and baseline and
    leaves the caches as they are; and the first call touches no metrics
    entry but the one of its own key. *)
Theorem RenderedTextSize_again (text : string) (fontSize : spec_float)
    (style : TextStyle) (w : Caches F) :
  let r := RenderedTextSize ParseTTF theme text fontSize style w in
  RenderedTextSize ParseTTF theme text fontSize style r.2 = r /\
  (forall text' fontSize' style',
     (text', fontSize', style') <> (text, fontSize, style) ->
     metrics r.2 !! (text', fontSize', style') = metrics w !! (text', fontSize', style')).
Proof.
  cbv zeta.
  destruct (GetFontMetrics text fontSize style (metrics w)) as [size base] eqn:Eg.
  destruct (F32.ne base F32.zero) eqn:Eb.
  - rewrite (RenderedTextSize_hit _ _ _ _ _ _ Eg Eb). cbn [snd].
    split; [|reflexivity]. apply (RenderedTextSize_hit _ _ _ _ _ _ Eg Eb).
  - pose proof (CachedFontFace_again style fontSize (float32_of_int 1) (fontCache w)) as Hag.
    destruct (CachedFontFace ParseTTF theme style fontSize (float32_of_int 1) (fontCache w))
      as [face fc] eqn:Ec.
    cbn [snd] in Hag.
    destruct (MeasureString (Fonts face) text fontSize (TabWidth style)) as [size' base'] eqn:Em.
    rewrite (RenderedTextSize_miss _ _ _ _ _ _ _ _ _ _ Eg Eb Ec Em). cbn [snd].
    split.
    + assert (Eg' : GetFontMetrics text fontSize style
                      (SetFontMetrics text fontSize style size' base' (metrics w))
                    = (size', base')).
      { unfold GetFontMetrics, SetFontMetrics. rewrite lookup_insert_eq. reflexivity. }
      destruct (F32.ne base' F32.zero) eqn:Eb'.
      * apply RenderedTextSize_hit; assumption.
      * rewrite (RenderedTextSize_miss _ _ _ _ size' size' base' base' face fc);
          try assumption.
        unfold SetFontMetrics. cbn [metrics]. rewrite insert_insert_eq. reflexivity.
    + intros text' fontSize' style' Hne. unfold SetFontMetrics. cbn [metrics].
      apply lookup_insert_ne. congruence.
Qed.

Lemma RenderedTextSize_coherent (text : string) (fontSize : spec_float)
    (style : TextStyle) (w : Caches F) :
  coherent ParseTTF theme w ->
  (RenderedTextSize ParseTTF theme text fontSize style w).1
    = measured ParseTTF theme text fontSize style /\
  coherent ParseTTF theme (RenderedTextSize ParseTTF theme text fontSize style w).2.
Proof.
  intros [Hfc Hm]. unfold RenderedTextSize.
  destruct (GetFontMetrics text fontSize style (metrics w)) as [size base] eqn:Eg.
  destruct (F32.ne base F32.zero) eqn:Eb.
  - cbn [fst snd]. split; [|split; assumption].
    unfold GetFontMetrics in Eg.
    destruct (metrics w !! (text, fontSize, style)) as [v|] eqn:El.
    + subst v. exact (Hm _ _ _ _ El).
    + injection Eg as <- <-. discriminate Eb.
  - unfold measureText.
    destruct (CachedFontFace_consistent style fontSize (float32_of_int 1) (fontCache w) Hfc)
      as [Hface Hfc'].
    destruct (CachedFontFace ParseTTF theme style fontSize (float32_of_int 1) (fontCache w))
      as [face fc] eqn:Ec.
    cbn [fst snd] in Hface, Hfc'. subst face.
    fold (measured ParseTTF theme text fontSize style).
    destruct (measured ParseTTF theme text fontSize style) as [size' base'] eqn:Em.
    cbn [fst snd]. split; [reflexivity|]. split; [exact Hfc'|].
    cbn [metrics]. intros text' fontSize' style' v. unfold SetFontMetrics.
    destruct (decide ((text, fontSize, style) = (text', fontSize', style'))) as [Heq|Hne].
    + injection Heq as <- <- <-. rewrite lookup_insert_eq. intros [= <-].
      symmetry. exact Em.
    + rewrite lookup_insert_ne by exact Hne. apply Hm.
Qed.

(** X21. On coherent caches the cache is invisible: [RenderedTextSize]
    returns what measuring the text afresh gives, whether the key is
    cached or not, and it leaves the caches coherent. *)
Theorem RenderedTextSize_transparent (text : string) (fontSize : spec_float)
    (style : TextStyle) (w : Caches F) :
  coherent ParseTTF theme w ->
  (RenderedTextSize ParseTTF theme text fontSize style w).1
    = measured ParseTTF theme text fontSize style /\
  coherent ParseTTF theme (RenderedTextSize ParseTTF theme text fontSize style w).2.
Proof. apply RenderedTextSize_coherent. Qed.

Lemma MeasureString_advance (f : list (option F)) (s : string) (textSize : spec_float)
    (tabWidth : Z) :
  (MeasureString f s textSize tabWidth).2 = Width (MeasureString f s textSize tabWidth).1.
Proof. unfold MeasureString. destruct (String.eqb s " "); reflexivity. Qed.

(** X22. What [RenderedTextSize] returns as the baseline is the advance of the
    text, which is the width of the size it returns and not a distance
    from the top of the line: so for [MeasureString], and so for
    [RenderedTextSize] on coherent caches, on a hit as on a miss. *)
Theorem RenderedTextSize_baseline_is_width (text : string) (fontSize : spec_float)
    (style : TextStyle) (w : Caches F) :
  coherent ParseTTF theme w ->
  let r := (RenderedTextSize ParseTTF theme text fontSize style w).1 in
  r.2 = Width r.1 /\
  r.2 = (MeasureString (Fonts (build_faces ParseTTF theme style)) text fontSize
           (TabWidth style)).2.
Proof.
  intros Hc. cbv zeta.
  rewrite (proj1 (RenderedTextSize_coherent text fontSize style w Hc)).
  unfold measured. split; [apply MeasureString_advance|reflexivity].
Qed.

Lemma coherent_empty : coherent ParseTTF theme {| fontCache := ∅; metrics := ∅ |}.
Proof.
  split; [apply consistent_empty|].
  intros text fontSize style v Hl. cbn [metrics] in Hl. rewrite lookup_empty in Hl. discriminate.
Qed.
End Memo.

(** On the empty caches. *)
Lemma RenderedTextSize_transparent_witness :
  coherent (H := Bench.shaper) Bench.parse_all (Bench.theme None) BenchRuns.caches0 /\
  (@RenderedTextSize nat nat Bench.shaper Bench.parse_all (Bench.theme None)
     "ab" (Bench.f32 12) BenchRuns.plain BenchRuns.caches0).1
    = @measured nat nat Bench.shaper Bench.parse_all (Bench.theme None)
        "ab" (Bench.f32 12) BenchRuns.plain.
Proof.
  pose proof (@coherent_empty nat nat Bench.shaper Bench.parse_all (Bench.theme None)) as Hc.
  split; [exact Hc|].
  exact (proj1 (@RenderedTextSize_transparent nat nat Bench.shaper Bench.parse_all
                  (Bench.theme None) "ab" (Bench.f32 12) BenchRuns.plain _ Hc)).
Defined.

(** ** The two shaping sizes *)

Lemma wrap_small (w z : Z) :
  0 < w -> - 2 ^ (w - 1) <= z < 2 ^ (w - 1) -> wrap w z = z.
Proof.
  intros Hw Hz. unfold wrap.
  assert (H2 : 2 ^ w = 2 * 2 ^ (w - 1)).
  { replace w with (Z.succ (w - 1)) at 1 by lia. apply Z.pow_succ_r. lia. }
  rewrite Z.mod_small by lia. lia.
Qed.

Lemma float32_of_int_pos (n : positive) :
  Z.pos n < 2 ^ 24 -> float32_of_int (Z.pos n) = grid32 n 0.
Proof.
  intros Hn. assert (Hd : Z.pos (digits2_pos n) <= 24) by (apply digits2_pos_le; lia).
  pose proof (Pos2Z.is_pos (digits2_pos n)) as Hdp.
  unfold float32_of_int, binary_normalize, grid32.
  rewrite (binary_round32_grid false n n 0 0) by lia.
  f_equal. lia.
Qed.

Lemma int_of_float_grid (n : positive) :
  Z.pos n < 2 ^ 24 -> int_of_float 64 (grid32 n 0) = Z.pos n.
Proof.
  intros Hn. assert (Hd : Z.pos (digits2_pos n) <= 24) by (apply digits2_pos_le; lia).
  pose proof (Pos2Z.is_pos (digits2_pos n)) as Hdp.
  unfold int_of_float, grid32, trunc_float. cbn [cond_Zopp].
  rewrite (grid32_mantissa n Hd).
  set (d := Z.pos (digits2_pos n)) in *.
  assert (Ht : (if 0 <=? d - 24 - 0
                then Z.pos n * 2 ^ (24 - d) * 2 ^ (d - 24 - 0)
                else Z.pos n * 2 ^ (24 - d) / 2 ^ (- (d - 24 - 0))) = Z.pos n).
  { destruct (Z.leb_spec 0 (d - 24 - 0)).
    - replace (24 - d) with 0 by lia. replace (d - 24 - 0) with 0 by lia. lia.
    - replace (- (d - 24 - 0)) with (24 - d) by lia.
      apply Z.div_mul. pose proof (pow2_pos (24 - d) ltac:(lia)). lia. }
  rewrite Ht.
  destruct (Z.leb_spec (- 2 ^ (64 - 1)) (Z.pos n)); [|lia].
  destruct (Z.ltb_spec (Z.pos n) (2 ^ (64 - 1))); [reflexivity|].
  change (2 ^ (64 - 1)) with (2 ^ 63) in *. lia.
Qed.

(** X14. At the scale 1 and a font size that is a whole number of pixels
    below 2^24, the size at which [processSubString] shapes the runs and
    the size it hands to [processFontRun] for a replacement character are
    the same, 64 times the font size. *)
Theorem shaping_sizes_agree (n : positive) :
  Z.pos n < 2 ^ 24 ->
  let fontSize := float32_of_int (Z.pos n) in
  fixed_I (int_of_float 64 (F32.mul fontSize (float32_of_int 1))) = 64 * Z.pos n /\
  float32ToFixed266 fontSize = 64 * Z.pos n.
Proof.
  intros Hn. cbv zeta.
  assert (Hd : Z.pos (digits2_pos n) <= 24) by (apply digits2_pos_le; lia).
  pose proof (Pos2Z.is_pos (digits2_pos n)) as Hdp.
  rewrite (float32_of_int_pos n Hn).
  assert (Hv : F32.valid (grid32 n 0) = true) by (apply grid32_valid; lia).
  split.
  - change (float32_of_int 1) with (S754_finite false 8388608 (-23)).
    unfold grid32 in *. rewrite mul32_one by exact Hv.
    fold (grid32 n 0). rewrite (int_of_float_grid n Hn).
    unfold fixed_I. change (2 ^ 6) with 64.
    rewrite (wrap_small 64) by lia. rewrite wrap_small by lia. lia.
  - unfold grid32 in *.
    set (d := Z.pos (digits2_pos n)) in *.
    assert (Ht : Z.pos (Z.to_pos (Z.pos n * 2 ^ (24 - d))) * 2 ^ (d - 24 - 0 + 149) / 2 ^ 143
                 = 64 * Z.pos n).
    { unfold d. rewrite (grid32_mantissa n Hd). fold d.
      rewrite <- Z.mul_assoc, <- Z.pow_add_r by lia.
      replace (24 - d + (d - 24 - 0 + 149)) with (6 + 143) by lia.
      rewrite (Z.pow_add_r 2 6 143), Z.mul_assoc by lia.
      rewrite Z.div_mul by lia. change (2 ^ 6) with 64. lia. }
    rewrite float32ToFixed266_finite; cbn [cond_Zopp]; rewrite ?Ht; [reflexivity|exact Hv|lia].
Qed.

Lemma shaping_sizes_agree_witness :
  Z.pos 12 < 2 ^ 24 /\
  fixed_I (int_of_float 64 (F32.mul (float32_of_int 12) (float32_of_int 1)))
    = float32ToFixed266 (float32_of_int 12).
Proof.
  assert (H : Z.pos 12 < 2 ^ 24) by reflexivity.
  split; [exact H|].
  destruct (shaping_sizes_agree 12 H) as [H1 H2].
  exact (eq_trans H1 (eq_sym H2)).
Defined.

(** ** [fixed266ToFloat32] on all of [int32] *)

Lemma fixed266ToFloat32_via64 (s : bool) (n : positive) :
  let d := Z.pos (digits2_pos n) in
  d <= 32 ->
  fixed266ToFloat32 (cond_Zopp s (Z.pos n))
    = binary_round F32.prec F32.emax s (Z.to_pos (Z.pos n * 2 ^ (53 - d))) (d - 53 - 6).
Proof.
  intros d Hd.
  pose proof (Pos2Z.is_pos (digits2_pos n)) as Hdp. fold d in Hdp.
  unfold fixed266ToFloat32.
  rewrite float64_of_int_exact by (fold d; lia). fold d.
  rewrite div64_sixty_four; [reflexivity| |lia].
  rewrite digits2_pos_widen by lia. fold d. lia.
Qed.

(** The result of [fixed266ToFloat32] on a number of 25 to 32 digits: a
    24-digit mantissa next to the number's leading 24 digits. *)
Lemma fixed266ToFloat32_large (s : bool) (n : positive) :
  let d := Z.pos (digits2_pos n) in
  25 <= d <= 32 ->
  exists (mr : positive) (er : Z),
    fixed266ToFloat32 (cond_Zopp s (Z.pos n)) = S754_finite s mr er /\
    Z.pos (digits2_pos mr) = 24 /\
    d - 30 <= er <= d - 29 /\
    Z.pos n / 2 ^ (d - 24) <= Z.pos mr * 2 ^ (er - (d - 30)) <= Z.pos n / 2 ^ (d - 24) + 1.
Proof.
  intros d Hd. rewrite fixed266ToFloat32_via64 by (fold d; lia). fold d.
  pose proof (pow2_pos (53 - d) ltac:(lia)) as Hp.
  assert (Hm : Z.pos (Z.to_pos (Z.pos n * 2 ^ (53 - d))) = Z.pos n * 2 ^ (53 - d))
    by (apply Z2Pos.id; lia).
  assert (Hd53 : Z.pos (digits2_pos (Z.to_pos (Z.pos n * 2 ^ (53 - d)))) = 53).
  { rewrite digits2_pos_widen by lia. fold d. lia. }
  unfold binary_round, shl_align. rewrite Hd53, fexp32.
  replace (Z.max (53 + (d - 53 - 6) - 24) (-149) - (d - 53 - 6)) with 29 by lia.
  destruct (binary_round_aux32_bracket s (Z.pos (Z.to_pos (Z.pos n * 2 ^ (53 - d))))
              (d - 53 - 6) loc_Exact) as [mr [er [Hres [Hdr [Her Hbr]]]]];
    cbn [Zdigits2]; rewrite ?Hd53; try lia.
  cbn [Zdigits2] in Her, Hbr. rewrite Hd53 in Her, Hbr.
  exists mr, er. split; [exact Hres|]. split; [exact Hdr|]. split; [lia|].
  replace (d - 53 - 6 + (53 - 24)) with (d - 30) in Hbr by lia.
  assert (Hq : Z.pos (Z.to_pos (Z.pos n * 2 ^ (53 - d))) / 2 ^ (53 - 24)
               = Z.pos n / 2 ^ (d - 24)).
  { rewrite Hm. replace (53 - 24) with (d - 24 + (53 - d)) by lia.
    rewrite (Z.pow_add_r 2 (d - 24)) by lia.
    apply Z.div_mul_cancel_r; [|lia]. pose proof (pow2_pos (d - 24) ltac:(lia)). lia. }
  rewrite Hq in Hbr. exact Hbr.
Qed.

(** X3. For every [int32] count of 64ths, [fixed266ToFloat32] returns a
    finite [float32] (never an infinity or NaN) whose value is the count
    over 64 up to a relative error of 2^-23. *)
Theorem fixed266ToFloat32_accurate (i : Z) :
  - 2 ^ 31 <= i < 2 ^ 31 ->
  F32.valid (fixed266ToFloat32 i) = true /\
  is_finite (fixed266ToFloat32 i) = true /\
  (Qabs (SF2Q (fixed266ToFloat32 i) - (i # 64)) <= Qabs (i # 64) * (1 # 8388608))%Q.
Proof.
  intros Hi.
  assert (Hcase : i = 0 \/ exists s n, i = cond_Zopp s (Z.pos n) /\ Z.pos n <= 2 ^ 31).
  { destruct i as [|n|n]; [left; reflexivity| |].
    - right. exists false, n. split; [reflexivity|lia].
    - right. exists true, n. split; [reflexivity|lia]. }
  destruct Hcase as [->|[s [n [-> Hn]]]].
  - split; [reflexivity|]. split; [reflexivity|]. vm_compute. discriminate.
  - pose proof (Pos2Z.is_pos (digits2_pos n)) as Hdp.
    pose proof (digits2_pos_bounds n) as [Hlo Hhi].
    destruct (Z_lt_le_dec (Z.pos n) (2 ^ 24)) as [Hsmall|Hbig].
    + rewrite (fixed266ToFloat32_small s n Hsmall).
      assert (Hd : Z.pos (digits2_pos n) <= 24) by (apply digits2_pos_le; lia).
      split; [apply valid32_normal; [apply grid32_digits; exact Hd | lia]|].
      split; [reflexivity|].
      rewrite (SF2Q_small s n Hsmall).
      unfold Qminus, Qplus, Qopp, Qabs, Qmult, Qle. cbn [Qnum Qden].
      replace (cond_Zopp s (Z.pos n) * 64 + - cond_Zopp s (Z.pos n) * 64) with 0 by lia.
      cbn [Z.abs]. lia.
    + set (d := Z.pos (digits2_pos n)) in *.
      assert (Hd : 25 <= d <= 32).
      { split.
        - destruct (Z_le_gt_dec 25 d); [assumption|].
          assert (2 ^ d <= 2 ^ 24) by (apply Z.pow_le_mono_r; lia). lia.
        - destruct (Z_le_gt_dec d 32); [assumption|].
          assert (2 ^ 32 <= 2 ^ (d - 1)) by (apply Z.pow_le_mono_r; lia). lia. }
      destruct (fixed266ToFloat32_large s n Hd) as [mr [er [Hres [Hdr [Her Hbr]]]]].
      fold d in Hbr. rewrite Hres.
      split; [apply valid32_normal; [exact Hdr|lia]|]. split; [reflexivity|].
      rewrite (SF2Q_finite_scaled s mr er 6) by lia.
      change (Z.to_pos (2 ^ 6)) with 64%positive.
      (* the leading digits and the rest *)
      pose proof (pow2_pos (d - 24) ltac:(lia)) as Hpk.
      pose proof (Z.div_mod (Z.pos n) (2 ^ (d - 24)) ltac:(lia)) as Hdm.
      pose proof (Z.mod_pos_bound (Z.pos n) (2 ^ (d - 24)) ltac:(lia)) as Hmb.
      set (Q1 := Z.pos n / 2 ^ (d - 24)) in *.
      set (rem := Z.pos n mod 2 ^ (d - 24)) in *.
      set (t := er - (d - 30)) in *.
      assert (Hex : Z.pos mr * 2 ^ (er + 6) = Z.pos mr * 2 ^ t * 2 ^ (d - 24)).
      { rewrite <- Z.mul_assoc, <- Z.pow_add_r by (unfold t; lia).
        do 2 f_equal. unfold t. lia. }
      assert (Hn23 : 2 ^ (d - 24) * 2 ^ 23 <= Z.pos n).
      { rewrite <- Z.pow_add_r by lia. replace (d - 24 + 23) with (d - 1) by lia. exact Hlo. }
      assert (Hdiff : Z.abs (Z.pos mr * 2 ^ (er + 6) - Z.pos n) <= 2 ^ (d - 24)).
      { rewrite Hex. apply Z.abs_le. nia. }
      unfold Qminus, Qplus, Qopp, Qabs, Qmult, Qle. cbn [Qnum Qden].
      replace (cond_Zopp s (Z.pos mr * 2 ^ (er + 6)) * 64 + - cond_Zopp s (Z.pos n) * 64)
        with (cond_Zopp s (Z.pos mr * 2 ^ (er + 6) - Z.pos n) * 64)
        by (destruct s; cbn [cond_Zopp]; lia).
      assert (Habs : forall z, Z.abs (cond_Zopp s z) = Z.abs z)
        by (intros z; destruct s; cbn [cond_Zopp]; lia).
      rewrite Z.abs_mul, !Habs. cbn [Z.abs]. lia.
Qed.

Lemma fixed266ToFloat32_accurate_witness :
  - 2 ^ 31 <= 2 ^ 31 - 1 < 2 ^ 31 /\
  is_finite (fixed266ToFloat32 (2 ^ 31 - 1)) = true.
Proof.
  assert (H : - 2 ^ 31 <= 2 ^ 31 - 1 < 2 ^ 31) by (split; [discriminate|reflexivity]).
  split; [exact H|]. exact (proj1 (proj2 (fixed266ToFloat32_accurate (2 ^ 31 - 1) H))).
Defined.

(** ** The order of [float32] values and the shared baseline *)

Lemma SF2Q_ulps32 (x : spec_float) :
  F32.valid x = true -> is_finite x = true ->
  (SF2Q x == ulps32 x # Z.to_pos (2 ^ 149))%Q.
Proof.
  intros Hv Hf. destruct x as [s|s| |s m e]; try discriminate.
  - unfold SF2Q, ulps32, Qeq. cbn [Qnum Qden]. lia.
  - apply valid32_finite in Hv. unfold ulps32.
    apply SF2Q_finite_scaled; lia.
Qed.

Lemma ulps32_sign (s : bool) (m : positive) (e : Z) :
  -149 <= e ->
  if s then ulps32 (S754_finite s m e) < 0 else 0 < ulps32 (S754_finite s m e).
Proof.
  intros He. pose proof (pow2_pos (e + 149) ltac:(lia)).
  unfold ulps32. destruct s; cbn [cond_Zopp]; nia.
Qed.

(** Among valid mantissas the exponent decides. *)
Lemma ulps32_exponent (m1 m2 : positive) (e1 e2 : Z) :
  F32.valid (S754_finite false m1 e1) = true ->
  F32.valid (S754_finite false m2 e2) = true ->
  e1 < e2 ->
  Z.pos m1 * 2 ^ (e1 + 149) < Z.pos m2 * 2 ^ (e2 + 149).
Proof.
  intros H1 H2 He.
  apply valid32_finite in H1. apply valid32_finite in H2.
  destruct H1 as [Hd1 [He1 _]]. destruct H2 as [_ [He2 [Hx|Hd2]]]; [lia|].
  pose proof (digits2_pos_bounds m1) as [_ Hm1].
  pose proof (digits2_pos_bounds m2) as [Hm2 _]. rewrite Hd2 in Hm2.
  assert (Hm1' : Z.pos m1 < 2 ^ 24).
  { eapply Z.lt_le_trans; [exact Hm1|]. apply Z.pow_le_mono_r; lia. }
  pose proof (pow2_pos (e1 + 149) ltac:(lia)) as Hp1.
  assert (Hp : 2 * 2 ^ (e1 + 149) <= 2 ^ (e2 + 149)).
  { rewrite <- Z.pow_succ_r by lia. apply Z.pow_le_mono_r; lia. }
  change (2 ^ (24 - 1)) with 8388608 in Hm2. change (2 ^ 24) with 16777216 in Hm1'.
  nia.
Qed.

Lemma valid32_sign (s s' : bool) (m : positive) (e : Z) :
  F32.valid (S754_finite s m e) = F32.valid (S754_finite s' m e).
Proof. reflexivity. Qed.

(** [<] on valid finite [float32] values is [<] on their values. *)
Lemma SFltb_ulps32 (a b : spec_float) :
  F32.valid a = true -> F32.valid b = true ->
  is_finite a = true -> is_finite b = true ->
  SFltb a b = (ulps32 a <? ulps32 b).
Proof.
  intros Ha Hb Hfa Hfb.
  destruct a as [sa|sa| |sa ma ea]; try discriminate;
    destruct b as [sb|sb| |sb mb eb]; try discriminate.
  - reflexivity.
  - pose proof (ulps32_sign sb mb eb ltac:(apply valid32_finite in Hb; lia)) as Hs.
    unfold SFltb, SFcompare. change (ulps32 (S754_zero sa)) with 0.
    destruct sb; symmetry; [apply Z.ltb_ge; lia|apply Z.ltb_lt; lia].
  - pose proof (ulps32_sign sa ma ea ltac:(apply valid32_finite in Ha; lia)) as Hs.
    unfold SFltb, SFcompare. change (ulps32 (S754_zero sb)) with 0.
    destruct sa; symmetry; [apply Z.ltb_lt; lia|apply Z.ltb_ge; lia].
  - pose proof (ulps32_sign sa ma ea ltac:(apply valid32_finite in Ha; lia)) as Hsa.
    pose proof (ulps32_sign sb mb eb ltac:(apply valid32_finite in Hb; lia)) as Hsb.
    rewrite (valid32_sign sa false) in Ha. rewrite (valid32_sign sb false) in Hb.
    pose proof (ulps32_exponent ma mb ea eb Ha Hb) as Hlt.
    pose proof (ulps32_exponent mb ma eb ea Hb Ha) as Hgt.
    assert (Hpa : 0 < 2 ^ (ea + 149)) by (apply pow2_pos; apply valid32_finite in Ha; lia).
    unfold SFltb, SFcompare.
    destruct sa, sb; cbn [ulps32 cond_Zopp] in *.
    + (* both negative *)
      destruct (Z.compare_spec ea eb) as [->|He|He].
      * change (Pos.compare_cont Eq ma mb) with (Pos.compare ma mb).
        destruct (Pos.compare_spec ma mb) as [->|Hm|Hm]; cbn [CompOpp]; symmetry.
        -- apply Z.ltb_ge; lia.
        -- apply Z.ltb_ge. apply Pos2Z.pos_lt_pos in Hm. nia.
        -- apply Z.ltb_lt. apply Pos2Z.pos_lt_pos in Hm. nia.
      * symmetry. apply Z.ltb_ge. specialize (Hlt He). lia.
      * symmetry. apply Z.ltb_lt. specialize (Hgt He). lia.
    + symmetry. apply Z.ltb_lt. lia.
    + symmetry. apply Z.ltb_ge. lia.
    + destruct (Z.compare_spec ea eb) as [->|He|He].
      * change (Pos.compare_cont Eq ma mb) with (Pos.compare ma mb).
        destruct (Pos.compare_spec ma mb) as [->|Hm|Hm]; symmetry.
        -- apply Z.ltb_ge; lia.
        -- apply Z.ltb_lt. apply Pos2Z.pos_lt_pos in Hm. nia.
        -- apply Z.ltb_ge. apply Pos2Z.pos_lt_pos in Hm. nia.
      * symmetry. apply Z.ltb_lt. specialize (Hlt He). lia.
      * symmetry. apply Z.ltb_ge. specialize (Hgt He). lia.
Qed.

Lemma Qle_ulps32 (a b : spec_float) :
  F32.valid a = true -> F32.valid b = true ->
  is_finite a = true -> is_finite b = true ->
  ulps32 a <= ulps32 b -> (SF2Q a <= SF2Q b)%Q.
Proof.
  intros Ha Hb Hfa Hfb Hle.
  rewrite (SF2Q_ulps32 a Ha Hfa), (SF2Q_ulps32 b Hb Hfb).
  unfold Qle. cbn [Qnum Qden]. nia.
Qed.

(** Every [int32] converts to a valid finite [float32]. *)
Lemma fixed266ToFloat32_regular (i : Z) :
  - 2 ^ 31 <= i < 2 ^ 31 ->
  F32.valid (fixed266ToFloat32 i) = true /\ is_finite (fixed266ToFloat32 i) = true.
Proof.
  intros Hi.
  assert (Hcase : i = 0 \/ exists s n, i = cond_Zopp s (Z.pos n) /\ Z.pos n <= 2 ^ 31).
  { destruct i as [|n|n]; [left; reflexivity| |].
    - right. exists false, n. split; [reflexivity|lia].
    - right. exists true, n. split; [reflexivity|lia]. }
  destruct Hcase as [->|[s [n [-> Hn]]]]; [split; reflexivity|].
  pose proof (Pos2Z.is_pos (digits2_pos n)) as Hdp.
  pose proof (digits2_pos_bounds n) as [Hlo Hhi].
  destruct (Z_lt_le_dec (Z.pos n) (2 ^ 24)) as [Hsmall|Hbig].
  - rewrite (fixed266ToFloat32_small s n Hsmall).
    assert (Hd : Z.pos (digits2_pos n) <= 24) by (apply digits2_pos_le; lia).
    split; [apply valid32_normal; [apply grid32_digits; exact Hd | lia]|reflexivity].
  - set (d := Z.pos (digits2_pos n)) in *.
    assert (Hd : 25 <= d <= 32).
    { split.
      - destruct (Z_le_gt_dec 25 d); [assumption|].
        assert (2 ^ d <= 2 ^ 24) by (apply Z.pow_le_mono_r; lia). lia.
      - destruct (Z_le_gt_dec d 32); [assumption|].
        assert (2 ^ 32 <= 2 ^ (d - 1)) by (apply Z.pow_le_mono_r; lia). lia. }
    destruct (fixed266ToFloat32_large s n Hd) as [mr [er [Hres [Hdr [Her Hbr]]]]].
    rewrite Hres. split; [apply valid32_normal; [exact Hdr|fold d in Her; lia]|reflexivity].
Qed.

Section Baseline.
Context {F : Type}.

Lemma line_base_fold (line : list (Output.t F)) (b0 : spec_float) :
  Forall int32_ascent line ->
  F32.valid b0 = true -> is_finite b0 = true ->
  let r := fold_left (fun base run =>
               let asc := fixed266ToFloat32 (Ascent (Output.LineBounds run)) in
               if F32.gt asc base then asc else base) line b0 in
  F32.valid r = true /\ is_finite r = true /\
  ulps32 b0 <= ulps32 r /\
  Forall (fun run => ulps32 (ascent_of run) <= ulps32 r) line /\
  (r = b0 \/ Exists (fun run => r = ascent_of run) line).
Proof.
  revert b0. induction line as [|run line IH]; intros b0 Hall Hv Hf; cbv zeta in *;
    cbn [fold_left].
  - repeat split; try assumption; [lia|constructor|left; reflexivity].
  - inversion Hall as [|? ? Hrun Hrest]; subst.
    destruct (fixed266ToFloat32_regular _ Hrun) as [Hva Hfa].
    fold (ascent_of run) in Hva, Hfa.
    match goal with
    | |- context [fold_left ?f line ?x] =>
        assert (Hstep : x = if ulps32 b0 <? ulps32 (ascent_of run) then ascent_of run else b0)
          by (cbv beta zeta; unfold F32.gt;
              rewrite <- (SFltb_ulps32 b0 (ascent_of run) Hv Hva Hf Hfa); reflexivity);
        rewrite Hstep; clear Hstep
    end.
    destruct (Z.ltb_spec (ulps32 b0) (ulps32 (ascent_of run))) as [Hlt|Hge].
    + destruct (IH (ascent_of run) Hrest Hva Hfa) as [Hvr [Hfr [Hle [Hothers Hmem]]]].
      split; [exact Hvr|]. split; [exact Hfr|]. split; [lia|].
      split; [constructor; assumption|].
      right. destruct Hmem as [->|Hex]; [left; reflexivity|right; exact Hex].
    + destruct (IH b0 Hrest Hv Hf) as [Hvr [Hfr [Hle [Hothers Hmem]]]].
      split; [exact Hvr|]. split; [exact Hfr|]. split; [exact Hle|].
      split; [constructor; [lia|assumption]|].
      destruct Hmem as [->|Hex]; [left; reflexivity|right; right; exact Hex].
Qed.

Lemma line_base_bounds (line : list (Output.t F)) :
  Forall int32_ascent line ->
  F32.valid (line_base line) = true /\ is_finite (line_base line) = true /\
  ulps32 F32.zero <= ulps32 (line_base line) /\
  Forall (fun run => ulps32 (ascent_of run) <= ulps32 (line_base line)) line /\
  (line_base line = F32.zero \/ Exists (fun run => line_base line = ascent_of run) line).
Proof. intros Hall. exact (line_base_fold line F32.zero Hall eq_refl eq_refl). Qed.

(** X13. The baseline the runs of a substring share is the largest of their
    ascents and of zero: no run's ascent is above it, it is never
    negative, and it is zero or the ascent of one of the runs. *)
Theorem line_base_largest_ascent (line : list (Output.t F)) :
  Forall int32_ascent line ->
  Forall (fun run => F32.gt (ascent_of run) (line_base line) = false /\
                     (SF2Q (ascent_of run) <= SF2Q (line_base line))%Q) line /\
  (0 <= SF2Q (line_base line))%Q /\
  (line_base line = F32.zero \/ Exists (fun run => line_base line = ascent_of run) line).
Proof.
  intros Hall.
  destruct (line_base_bounds line Hall) as [Hvr [Hfr [Hle [Hothers Hmem]]]].
  split; [|split].
  - rewrite Forall_forall in *. intros run Hin.
    specialize (Hothers run Hin). specialize (Hall run Hin).
    destruct (fixed266ToFloat32_regular _ Hall) as [Hva Hfa]. fold (ascent_of run) in *.
    split.
    + unfold F32.gt. rewrite (SFltb_ulps32 _ _ Hvr Hva Hfr Hfa). apply Z.ltb_ge. exact Hothers.
    + apply Qle_ulps32; assumption.
  - change 0%Q with (SF2Q F32.zero). apply Qle_ulps32; try assumption; reflexivity.
  - exact Hmem.
Qed.
End Baseline.

(** ** The properties above on the test bench *)

(** Two letters and no tab. *)
Lemma processString_no_tab_witness :
  runes (strip_cr "hi") <> [] /\
  Forall (fun r => r <> 9) (runes (strip_cr "hi")) /\
  @processString nat Bench.shaper unit "hi" Bench.faces (Bench.f32 12) (Bench.f32 1) 0
      no_paint tt
    = @processSubString nat Bench.shaper unit [104; 105] Bench.faces (Bench.f32 12)
        (Bench.f32 1) F32.zero no_paint tt.
Proof.
  assert (H1 : runes (strip_cr "hi") <> []) by (vm_compute; discriminate).
  assert (H2 : Forall (fun r => r <> 9) (runes (strip_cr "hi")))
    by (vm_compute; repeat constructor; discriminate).
  split; [exact H1|]. split; [exact H2|].
  exact (@processString_no_tab nat Bench.shaper "hi" Bench.faces (Bench.f32 12) (Bench.f32 1) 0
           unit no_paint tt H1 H2).
Defined.

(** A small letter is not in the face of capitals, which comes first. *)
Lemma ResolveFace_first_match_witness :
  @ResolveFace nat BenchFaces.cmap [Some 1%nat; Some 0%nat; Some 2%nat] 104
    = Returns (Some 0%nat).
Proof.
  assert (Hpre : Forall (fun x => exists g, x = Some g /\
                                  @NominalGlyph nat BenchFaces.cmap g 104 = None)
                        [Some 1%nat]).
  { constructor; [|constructor]. exists 1%nat. split; reflexivity. }
  exact (proj1 (@ResolveFace_first_match nat BenchFaces.cmap [Some 1%nat] [Some 2%nat]
                  0%nat 104 Hpre) 104 eq_refl).
Defined.

(** No face of the bench has a snowman; the lookup returns all the same. *)
Lemma ResolveFace_returns_or_panics_witness :
  exists f, @ResolveFace nat BenchFaces.cmap [Some 0%nat; Some 1%nat] 0x2603
            = Returns (Some f).
Proof.
  apply (proj2 (proj2 (proj2 (@ResolveFace_returns_or_panics nat BenchFaces.cmap
                                [Some 0%nat; Some 1%nat] 0x2603)))).
  - repeat constructor; discriminate.
  - discriminate.
Defined.

(** Under a theme none of whose fonts parse. *)
Lemma ResolveFace_of_face_set_witness :
  reachable Bench.parse_none (Bench.theme None) ∅ /\
  @ResolveFace nat BenchFaces.cmap
     (Fonts (CachedFontFace Bench.parse_none (Bench.theme None) BenchRuns.plain
               (Bench.f32 12) (Bench.f32 1) ∅).1) 104
    = Panics.
Proof.
  pose proof (@reachable_init nat nat Bench.parse_none (Bench.theme None)) as Hr.
  split; [exact Hr|].
  exact (proj1 (@ResolveFace_of_face_set nat BenchFaces.cmap nat Bench.parse_none
                  (Bench.theme None) BenchRuns.plain (Bench.f32 12) (Bench.f32 1) ∅ 104 Hr)
           eq_refl).
Defined.

(** Resolving the plain style leaves the bold style unresolved. *)
Lemma CachedFontFace_cached_witness :
  (CachedFontFace Bench.parse_all (Bench.theme None) BenchRuns.plain
     (Bench.f32 12) (Bench.f32 1) ∅).2 !! Bench.style true false false false
    = (∅ : gmap TextStyle (FontCacheItem nat)) !! Bench.style true false false false.
Proof.
  apply (proj2 (proj2 (@CachedFontFace_cached nat nat Bench.parse_all (Bench.theme None)
                         BenchRuns.plain (Bench.f32 12) (Bench.f32 1) ∅))).
  discriminate.
Defined.

(** Measuring one text stores nothing for another. *)
Lemma RenderedTextSize_again_witness :
  metrics (@RenderedTextSize nat nat Bench.shaper Bench.parse_all (Bench.theme None)
             "ab" (Bench.f32 12) BenchRuns.plain BenchRuns.caches0).2
    !! ("a", Bench.f32 12, BenchRuns.plain)
  = metrics BenchRuns.caches0 !! ("a", Bench.f32 12, BenchRuns.plain).
Proof.
  apply (proj2 (@RenderedTextSize_again nat nat Bench.shaper Bench.parse_all (Bench.theme None)
                  "ab" (Bench.f32 12) BenchRuns.plain BenchRuns.caches0)).
  discriminate.
Defined.

(** A run in the text face next to one in the taller display face: the
    baseline is the ascent of the second. *)
Lemma line_base_largest_ascent_witness :
  let tall := Bench.shape {| Input.Text := [65]; Input.RunStart := 0; Input.RunEnd := 1;
                             Input.Direction := DirectionLTR; Input.Face := Some 1%nat;
                             Input.Size := 768 |} in
  Forall int32_ascent [BenchRuns.run_plain; tall] /\
  (0 <= SF2Q (@line_base nat [BenchRuns.run_plain; tall]))%Q.
Proof.
  cbv zeta.
  match goal with
  | |- Forall _ ?l /\ _ =>
      assert (Hall : Forall int32_ascent l)
        by (repeat constructor; vm_compute; discriminate)
  end.
  split; [exact Hall|].
  exact (proj1 (proj2 (@line_base_largest_ascent nat _ Hall))).
Defined.

(** * The animation runner *)

Section Frame.
Import animation.
Context {U : Type} `{World U}.

Ltac frame_cases x k u :=
  unfold tickAnimation;
  destruct (Z.ltb_spec (end_ x) (Now k)) as [Hpast|Hin];
  [ destruct (reverse x) eqn:Erev;
    [ destruct (Z.eqb_spec (repeatsLeft x) 0) as [Ezero|Enz]
    | destruct (AutoReverse (Tick (a x) one u) (a x)) eqn:Ear;
      [ | destruct (Z.eqb_spec (repeatsLeft x) 0) as [Ezero|Enz] ] ]
  | ];
  cbn [set_reverse set_repeatsLeft set_window reverse repeatsLeft a total start end_
       negb andb fst snd];
  try match goal with E : reverse x = _ |- _ => rewrite ?E end; cbn [negb andb fst snd];
  try (destruct (Z.eqb_spec (repeatsLeft x) 0) as [Ezero'|Enz']; [lia|]);
  cbn [negb andb fst snd].

(** X23. [tickAnimation] reports the end of an animation exactly when the
    clock is past the end of the window, no repeat is left, and the
    animation has just played backward or does not reverse; it then
    leaves the item as it was and has read the clock once. *)
Theorem tickAnimation_finishes (x : anim) (k : nat) (u : U) :
  ((tickAnimation x k u).1.1.1 = false <->
     end_ x < Now k /\ repeatsLeft x = 0 /\
     (reverse x = true \/ AutoReverse (Tick (a x) one u) (a x) = false)) /\
  ((tickAnimation x k u).1.1.1 = false ->
     (tickAnimation x k u).1.1.2 = x /\ (tickAnimation x k u).1.2 = S k).
Proof.
  frame_cases x k u.
  - split; [|auto]. split; [intros _|reflexivity]. auto.
  - split; [|discriminate]. split; [discriminate|]. intros [_ [? _]]. lia.
  - split; [|discriminate]. split; [discriminate|].
    intros [_ [_ [?|?]]]; congruence.
  - split; [|auto]. split; [intros _|reflexivity]. auto.
  - split; [|discriminate]. split; [discriminate|]. intros [_ [? _]]. lia.
  - split; [|discriminate]. split; [discriminate|]. intros [? _]. lia.
Qed.

(** X24. The repeat count only counts down: a negative count, which stands
    for repeating without end, is never changed and the animation never
    ends; a count that is not negative drops by at most one a call and
    never below zero.  The animation and the total duration of the item
    are never changed. *)
Theorem tickAnimation_repeatsLeft (x : anim) (k : nat) (u : U) :
  let x' := (tickAnimation x k u).1.1.2 in
  a x' = a x /\ total x' = total x /\
  (repeatsLeft x < 0 ->
     repeatsLeft x' = repeatsLeft x /\ (tickAnimation x k u).1.1.1 = true) /\
  (0 <= repeatsLeft x ->
     0 <= repeatsLeft x' /\ repeatsLeft x - 1 <= repeatsLeft x' <= repeatsLeft x).
Proof.
  cbv zeta. frame_cases x k u;
    try (destruct (Z.ltb_spec 0 (repeatsLeft x)));
    cbn [set_reverse set_repeatsLeft set_window reverse repeatsLeft a total fst snd];
    repeat split; intros; try reflexivity; try lia.
Qed.

(** X25. Every call of [tickAnimation] calls [Tick] of the animation exactly
    once: with 1 at the end of a forward window, with 0 at the end of a
    backward one, and inside a window with the curve's value at the
    elapsed share of the total, counted from the other side when playing
    backward, the ease-in-out curve standing in for a nil curve.  Inside
    a window the animation goes on and the item is not changed. *)
Theorem tickAnimation_ticks_once (x : anim) (k : nat) (u : U) :
  let val := F32.div (float32_of_int (Milliseconds (Sub (Now (S k)) (start x)))) (total x) in
  let curve := default AnimationEaseInOut (Curve u (a x)) in
  let v := if end_ x <? Now k then (if reverse x then F32.zero else one)
           else curve (if reverse x then sub32 one val else val) in
  (tickAnimation x k u).2 = Tick (a x) v u /\
  (Now k <= end_ x ->
     (tickAnimation x k u).1 = (true, x, S (S k))).
Proof.
  cbv zeta. frame_cases x k u;
    try (destruct (Z.ltb_spec 0 (repeatsLeft x)));
    cbn [fst snd]; try (split; [reflexivity|intros; lia]).
  all: destruct (Curve u (a x)); destruct (reverse x); cbn [default fst snd];
    split; reflexivity.
Qed.

(** X26. When the clock is past the end of the window and the animation goes
    on, the window is started again: it begins at the second reading of
    the clock and ends one [Duration] later, the duration being read
    after the callback ran; the direction is turned when the animation
    played backward or reverses. *)
Theorem tickAnimation_restart (x : anim) (k : nat) (u : U) :
  end_ x < Now k ->
  (tickAnimation x k u).1.1.1 = true ->
  let x' := (tickAnimation x k u).1.1.2 in
  let u' := (tickAnimation x k u).2 in
  start x' = Now (S k) /\
  end_ x' = Now (S k) + Duration u' (a x) /\
  (tickAnimation x k u).1.2 = S (S k) /\
  reverse x' = (if reverse x then false else AutoReverse u' (a x)).
Proof.
  cbv zeta. frame_cases x k u; try lia;
    try (destruct (Z.ltb_spec 0 (repeatsLeft x)));
    cbn [set_reverse set_repeatsLeft set_window reverse repeatsLeft a total start end_
         fst snd];
    intros _ Hgo; try discriminate Hgo; rewrite ?Ear; repeat split; try assumption.
Qed.

(** X27. The window ends an animation has left: a call past the end of the
    window uses one up, and the animation finishes on the last one.  So
    an animation with [n] repeats left runs through [n + 1] windows, and
    through [2 (n + 1)] when it reverses. *)
Theorem tickAnimation_ends_left (ar : bool) (x : anim) (k : nat) (u : U) :
  0 <= repeatsLeft x ->
  end_ x < Now k ->
  (reverse x = false -> AutoReverse (Tick (a x) one u) (a x) = ar) ->
  1 <= ends_left ar x /\
  ((tickAnimation x k u).1.1.1 = false <-> ends_left ar x = 1) /\
  ((tickAnimation x k u).1.1.1 = true ->
     ends_left ar (tickAnimation x k u).1.1.2 = ends_left ar x - 1).
Proof.
  intros Hn Hp Har. unfold ends_left.
  frame_cases x k u; try lia;
    try (destruct (Z.ltb_spec 0 (repeatsLeft x)));
    cbn [set_reverse set_repeatsLeft set_window reverse repeatsLeft a total start end_
         fst snd];
    try (specialize (Har eq_refl); rewrite Ear in Har; subst ar);
    try destruct ar; repeat split; intros; try discriminate; try lia.
Qed.

Lemma tickAnimation_call (x : anim) (k : nat) (u : U) :
  exists v, (tickAnimation x k u).2 = Tick (a x) v u.
Proof.
  frame_cases x k u; try (destruct (Z.ltb_spec 0 (repeatsLeft x)));
    cbn [fst snd]; try (eexists; reflexivity).
  all: destruct (reverse x); eexists; reflexivity.
Qed.

Lemma tickAnimation_item (x : anim) (k : nat) (u : U) :
  a (tickAnimation x k u).1.1.2 = a x /\
  (k < (tickAnimation x k u).1.2 <= k + 2)%nat.
Proof.
  frame_cases x k u; try (destruct (Z.ltb_spec 0 (repeatsLeft x)));
    cbn [set_reverse set_repeatsLeft set_window a fst snd]; split; try reflexivity; lia.
Qed.
End Frame.

(** ** Starting, stopping and ticking *)

Section Lists.
Import animation.
Context `{Items}.

Lemma stop_running_from (p : AnimationRef) (l newList marked : list anim) (stopped : bool) :
  fold_left (fun '(newList, stopped, marked) item =>
               if negb (Pos.eqb (a item) p) then (newList ++ [item], stopped, marked)
               else (newList, true, marked ++ [setStopped item]))
            l (newList, stopped, marked)
  = (newList ++ List.filter (not_of p) l,
     stopped || existsb (is_of p) l,
     marked ++ map setStopped (List.filter (is_of p) l)).
Proof.
  revert newList marked stopped.
  induction l as [|item l IH]; intros newList marked stopped; cbn [fold_left].
  - cbn [List.filter existsb map]. rewrite !app_nil_r, orb_false_r. reflexivity.
  - cbn [List.filter existsb map].
    change (is_of p item) with (Pos.eqb (a item) p).
    change (not_of p item) with (negb (Pos.eqb (a item) p)).
    destruct (Pos.eqb (a item) p); cbn [negb].
    + rewrite IH. cbn [map orb]. rewrite <- app_assoc, orb_true_r. reflexivity.
    + rewrite IH. cbn [orb]. rewrite <- app_assoc. reflexivity.
Qed.

Lemma stop_running_spec (p : AnimationRef) (l : list anim) :
  stop_running p l
  = (List.filter (not_of p) l, existsb (is_of p) l,
     map setStopped (List.filter (is_of p) l)).
Proof. unfold stop_running. rewrite stop_running_from. reflexivity. Qed.

Lemma stop_pending_from (p : AnimationRef) (l newList marked : list anim) :
  fold_left (fun '(newList, marked) item =>
               if negb (Pos.eqb (a item) p) then (newList ++ [item], marked)
               else (newList, marked ++ [setStopped item]))
            l (newList, marked)
  = (newList ++ List.filter (not_of p) l,
     marked ++ map setStopped (List.filter (is_of p) l)).
Proof.
  revert newList marked.
  induction l as [|item l IH]; intros newList marked; cbn [fold_left].
  - cbn [List.filter map]. rewrite !app_nil_r. reflexivity.
  - cbn [List.filter map].
    change (is_of p item) with (Pos.eqb (a item) p).
    change (not_of p item) with (negb (Pos.eqb (a item) p)).
    destruct (Pos.eqb (a item) p); cbn [negb].
    + rewrite IH. cbn [map]. rewrite <- app_assoc. reflexivity.
    + rewrite IH. rewrite <- app_assoc. reflexivity.
Qed.

Lemma stop_pending_spec (p : AnimationRef) (l : list anim) :
  stop_pending p l
  = (List.filter (not_of p) l, map setStopped (List.filter (is_of p) l)).
Proof. unfold stop_pending. rewrite stop_pending_from. reflexivity. Qed.

Lemma filter_not_of_none (p : AnimationRef) (l : list anim) :
  existsb (is_of p) l = false ->
  List.filter (not_of p) l = l /\ List.filter (is_of p) l = [].
Proof.
  induction l as [|x l IH]; [split; reflexivity|].
  cbn [existsb List.filter]. intros Hx. apply orb_false_iff in Hx as [Hx Hl].
  destruct (IH Hl) as [IH1 IH2]. rewrite Hx.
  unfold not_of, is_of in *. rewrite Hx. cbn [negb]. rewrite IH1. split; [reflexivity|exact IH2].
Qed.

Lemma Stop_spec (r : Runner) (p : AnimationRef) :
  Stop r p
  = if existsb (is_of p) (animations r) then
      ({| animations := List.filter (not_of p) (animations r);
          pendingAnimations := pendingAnimations r;
          runnerStarted := runnerStarted r |},
       map setStopped (List.filter (is_of p) (animations r)))
    else
      ({| animations := animations r;
          pendingAnimations := List.filter (not_of p) (pendingAnimations r);
          runnerStarted := runnerStarted r |},
       map setStopped (List.filter (is_of p) (pendingAnimations r))).
Proof.
  unfold Stop. rewrite stop_running_spec, stop_pending_spec.
  destruct (existsb (is_of p) (animations r)) eqn:E; [reflexivity|].
  destruct (filter_not_of_none p (animations r) E) as [Hkeep Hdrop].
  rewrite Hkeep, Hdrop. reflexivity.
Qed.

Lemma filter_not_of (p : AnimationRef) (l : list anim) :
  Forall (fun x => a x <> p) (List.filter (not_of p) l).
Proof.
  apply Stdlib.Lists.List.Forall_forall. intros x Hin. apply filter_In in Hin as [_ Hx].
  unfold not_of in Hx. destruct (Pos.eqb_spec (a x) p); [discriminate|assumption].
Qed.

(** X28. [Stop] takes every item of the animation out of the running list,
    keeping the others in order.  The pending list is searched only when
    the running list held no such item: an animation that is both
    running and pending stays pending.  [setStopped] is called on the
    items taken out and on no other, and whether the runner is started
    does not change. *)
Theorem Stop_filters (r : Runner) (p : AnimationRef) :
  let found := existsb (is_of p) (animations r) in
  animations (Stop r p).1 = List.filter (not_of p) (animations r) /\
  pendingAnimations (Stop r p).1
    = (if found then pendingAnimations r
       else List.filter (not_of p) (pendingAnimations r)) /\
  runnerStarted (Stop r p).1 = runnerStarted r /\
  (Stop r p).2
    = map setStopped
        (List.filter (is_of p) (if found then animations r else pendingAnimations r)) /\
  Forall (fun x => a x <> p) (animations (Stop r p).1).
Proof.
  cbv zeta. rewrite Stop_spec.
  destruct (existsb (is_of p) (animations r)) eqn:E; cbn [fst snd animations
    pendingAnimations runnerStarted]; repeat split; try reflexivity.
  - apply filter_not_of.
  - symmetry. apply filter_not_of_none, E.
  - rewrite <- (proj1 (filter_not_of_none p (animations r) E)). apply filter_not_of.
Qed.

End Lists.

Section Ticking.
Import animation.
Context {U : Type} `{World U} `{Items}.

Lemma ticked_app (c1 c2 : list (AnimationRef * spec_float)) (u : U) :
  ticked (c1 ++ c2) u = ticked c2 (ticked c1 u).
Proof. unfold ticked. apply fold_left_app. Qed.

(** A round is a function of the items, the clock and the memory. *)
Lemma round_functional (l : list anim) (k : nat) (u : U)
    (kept1 kept2 : list anim) (k1 k2 : nat) (u1 u2 : U) :
  round l k u kept1 k1 u1 -> round l k u kept2 k2 u2 ->
  kept1 = kept2 /\ k1 = k2 /\ u1 = u2.
Proof.
  intros R1. revert kept2 k2 u2.
  induction R1 as [k u|x l k u kept k' u' Hs R1 IH
                  |x l k u x1 ka ua kept k' u' Hs Ht R1 IH
                  |x l k u x1 ka ua kept k' u' Hs Ht R1 IH];
    intros kept2 k2 u2 R2; inversion R2; subst; try congruence.
  - repeat split.
  - apply IH. assumption.
  - match goal with
    | Ht' : tickAnimation x k u = (true, ?y, ?kb, ?ub) |- _ =>
        rewrite Ht in Ht'; injection Ht' as <- <- <-
    end.
    match goal with
    | R : round l ka ua ?kp k2 u2 |- _ => destruct (IH _ _ _ R) as [-> [-> ->]]
    end.
    repeat split.
  - match goal with
    | Ht' : tickAnimation x k u = (false, ?y, ?kb, ?ub) |- _ =>
        rewrite Ht in Ht'; injection Ht' as <- <- <-
    end.
    apply IH. assumption.
Qed.

(** A round calls [Tick] once for each item that is not stopped, in
    order, and reads the clock at most twice for each. *)
Lemma round_calls (l : list anim) (k : nat) (u : U) (kept : list anim) (k' : nat) (u' : U) :
  round l k u kept k' u' ->
  exists calls,
    u' = ticked calls u /\
    map fst calls = map a (List.filter live l) /\
    (k <= k' <= k + 2 * length calls)%nat.
Proof.
  induction 1 as [k u|x l k u kept k' u' Hs R1 IH
                 |x l k u x1 ka ua kept k' u' Hs Ht R1 IH
                 |x l k u x1 ka ua kept k' u' Hs Ht R1 IH].
  - exists []. repeat split; cbn; lia.
  - destruct IH as [calls [Hu [Hc Hk]]]. exists calls.
    cbn [List.filter]. unfold live at 1. rewrite Hs. cbn [negb]. repeat split; assumption || lia.
  - destruct IH as [calls [Hu [Hc Hk]]].
    destruct (tickAnimation_call x k u) as [v Hv].
    destruct (tickAnimation_item x k u) as [_ Hka].
    rewrite Ht in Hv, Hka. cbn [fst snd] in Hv, Hka. subst ua.
    exists ((a x, v) :: calls).
    cbn [List.filter]. unfold live at 1. rewrite Hs. cbn [negb map fst length].
    split; [exact Hu|]. split; [f_equal; exact Hc|lia].
  - destruct IH as [calls [Hu [Hc Hk]]].
    destruct (tickAnimation_call x k u) as [v Hv].
    destruct (tickAnimation_item x k u) as [_ Hka].
    rewrite Ht in Hv, Hka. cbn [fst snd] in Hv, Hka. subst ua.
    exists ((a x, v) :: calls).
    cbn [List.filter]. unfold live at 1. rewrite Hs. cbn [negb map fst length].
    split; [exact Hu|]. split; [f_equal; exact Hc|lia].
Qed.

(** The steps of the loop make a round. *)
Lemma loop_steps (l newList : list anim) (r : Runner) (k : nat) (u : U) :
  exists kept k' u',
    round l k u kept k' u' /\
    Nat.iter (length l) tick_step (InLoop l newList, r, k, u)
      = (InLoop [] (newList ++ kept), r, k', u').
Proof.
  revert newList k u. induction l as [|x l IH]; intros newList k u.
  - exists [], k, u. split; [constructor|]. cbn. rewrite app_nil_r. reflexivity.
  - cbn [length]. rewrite Nat.iter_succ_r. cbn [tick_step].
    destruct (isStopped x) eqn:Hs; cbn [negb].
    + destruct (IH newList k u) as [kept [k' [u' [R E]]]].
      exists kept, k', u'. split; [apply round_stopped; assumption|exact E].
    + destruct (tickAnimation x k u) as [[[go x1] k1] u1] eqn:Ht. destruct go.
      * destruct (IH (newList ++ [x1]) k1 u1) as [kept [k' [u' [R E]]]].
        exists (x1 :: kept), k', u'.
        split; [eapply round_goes_on; eassumption|].
        rewrite E, <- app_assoc. reflexivity.
      * destruct (IH newList k1 u1) as [kept [k' [u' [R E]]]].
        exists kept, k', u'.
        split; [eapply round_ends; eassumption|exact E].
Qed.

(** A call on a started runner, up to the step that puts the lists
    back. *)
Lemma tick_to_clear (r : Runner) (k : nat) (u : U) :
  runnerStarted r = true ->
  exists kept k' u',
    round (animations r) k u kept k' u' /\
    Nat.iter (length (animations r) + 3) tick_step (AtEntry, r, k, u)
      = (AtClear match kept ++ pendingAnimations r with [] => true | _ => false end,
         {| animations := kept ++ pendingAnimations r; pendingAnimations := [];
            runnerStarted := true |}, k', u').
Proof.
  intros Hs.
  destruct (loop_steps (animations r) [] r k u) as [kept [k' [u' [R E]]]].
  exists kept, k', u'. split; [exact R|].
  replace (length (animations r) + 3)%nat with (1 + (length (animations r) + 2))%nat by lia.
  rewrite Nat.iter_add, (Nat.iter_add (length (animations r)) 2).
  change (Nat.iter 2 tick_step (AtEntry, r, k, u))
    with (tick_step (tick_step (AtEntry, r, k, u))).
  cbn [tick_step]. rewrite Hs. cbn [negb tick_step]. rewrite E.
  change (Nat.iter 1 tick_step ?c) with (tick_step c).
  cbn [tick_step app]. rewrite Hs. reflexivity.
Qed.

Lemma TickAnimations_spec (r : Runner) (k : nat) (u : U) :
  runnerStarted r = true ->
  exists kept k' u',
    round (animations r) k u kept k' u' /\
    Nat.iter (length (animations r) + 4) tick_step (AtEntry, r, k, u)
      = (Returned,
         {| animations := kept ++ pendingAnimations r; pendingAnimations := [];
            runnerStarted := match kept ++ pendingAnimations r with
                             | [] => false
                             | _ => true
                             end |}, k', u').
Proof.
  intros Hs. destruct (tick_to_clear r k u Hs) as [kept [k' [u' [R E]]]].
  exists kept, k', u'. split; [exact R|].
  replace (length (animations r) + 4)%nat with (1 + (length (animations r) + 3))%nat by lia.
  rewrite Nat.iter_add, E.
  change (Nat.iter 1 tick_step ?c) with (tick_step c). cbn [tick_step].
  destruct (kept ++ pendingAnimations r); reflexivity.
Qed.

Lemma tick_idle (n : nat) (r : Runner) (k : nat) (u : U) :
  Nat.iter n tick_step (Returned, r, k, u) = (Returned, r, k, u).
Proof.
  induction n as [|n IH]; [reflexivity|].
  change (Nat.iter (S n) tick_step ?c) with (tick_step (Nat.iter n tick_step c)).
  rewrite IH. reflexivity.
Qed.

Lemma TickAnimations_not_started (r : Runner) (k : nat) (u : U) :
  runnerStarted r = false ->
  Nat.iter (length (animations r) + 4) tick_step (AtEntry, r, k, u) = (Returned, r, k, u).
Proof.
  intros Hs.
  replace (length (animations r) + 4)%nat with ((length (animations r) + 3) + 1)%nat by lia.
  rewrite Nat.iter_add.
  change (Nat.iter 1 tick_step ?c) with (tick_step c).
  cbn [tick_step]. rewrite Hs. cbn [negb].
  apply tick_idle.
Qed.

(** X29. A call of [TickAnimations] that no other call overlaps returns
    after its steps.  On a runner that is not started it changes
    nothing.  On a started runner it makes one round over the running
    items: a stopped item is dropped without a tick, every other item is
    ticked once, in order, at the clock and in the memory the items
    before it left, and is kept, as its tick left it, exactly when its
    tick said that the animation goes on.  Afterwards the running list
    holds the items kept followed by the items that were pending, the
    pending list is empty, and the runner is started exactly when it
    holds an item.  The round has one outcome only. *)
Theorem TickAnimations_round (r : Runner) (k : nat) (u : U) :
  (Nat.iter (length (animations r) + 4) tick_step (AtEntry, r, k, u)).1.1.1 = Returned /\
  (runnerStarted r = false -> TickAnimations r k u = (r, k, u)) /\
  (runnerStarted r = true ->
   exists kept k' u',
     round (animations r) k u kept k' u' /\
     (forall kept2 k2 u2,
        round (animations r) k u kept2 k2 u2 -> kept2 = kept /\ k2 = k' /\ u2 = u') /\
     TickAnimations r k u
       = ({| animations := kept ++ pendingAnimations r; pendingAnimations := [];
             runnerStarted := match kept ++ pendingAnimations r with
                              | [] => false
                              | _ => true
                              end |}, k', u') /\
     exists calls,
       u' = ticked calls u /\
       map fst calls = map a (List.filter live (animations r)) /\
       (k <= k' <= k + 2 * length calls)%nat).
Proof.
  destruct (runnerStarted r) eqn:Hs.
  - destruct (TickAnimations_spec r k u Hs) as [kept [k' [u' [R E]]]].
    split; [rewrite E; reflexivity|]. split; [discriminate|]. intros _.
    exists kept, k', u'. split; [exact R|]. split.
    + intros kept2 k2 u2 R2. apply (round_functional _ _ _ _ _ _ _ _ _ R2 R).
    + split; [unfold TickAnimations; rewrite E; reflexivity|].
      apply (round_calls _ _ _ _ _ _ R).
  - pose proof (TickAnimations_not_started r k u Hs) as E.
    split; [rewrite E; reflexivity|]. split; [|discriminate].
    intros _. unfold TickAnimations. rewrite E. reflexivity.
Qed.

Lemma Start_settled (r : Runner) (p : AnimationRef) : settled (Start r p).
Proof.
  unfold settled, Start. destruct (runnerStarted r) eqn:E; cbn [negb runnerStarted];
    discriminate.
Qed.

Lemma Stop_settled (r : Runner) (p : AnimationRef) : settled r -> settled (Stop r p).1.
Proof.
  unfold settled. rewrite Stop_spec.
  destruct (existsb (is_of p) (animations r));
    cbn [fst animations pendingAnimations runnerStarted];
    intros Hr Hs; destruct (Hr Hs) as [-> ->]; split; reflexivity.
Qed.

Lemma TickAnimations_settled (r : Runner) (k : nat) (u : U) :
  settled r -> settled (TickAnimations r k u).1.1.
Proof.
  intros Hr. unfold TickAnimations. destruct (runnerStarted r) eqn:Hs.
  - destruct (TickAnimations_spec r k u Hs) as [kept [k' [u' [_ E]]]].
    rewrite E. unfold settled. cbn [fst animations pendingAnimations runnerStarted].
    destruct (kept ++ pendingAnimations r); [split; reflexivity|discriminate].
  - rewrite (TickAnimations_not_started r k u Hs). exact Hr.
Qed.

Lemma step_settled (s : Runner * nat * U) (o : op) : settled s.1.1 -> settled (step s o).1.1.
Proof.
  destruct s as [[r k] u]. cbn [fst]. intros Hr. destruct o as [p|p|]; cbn [step fst].
  - apply Start_settled.
  - apply Stop_settled, Hr.
  - apply TickAnimations_settled, Hr.
Qed.

(** X30. When the calls of [Start], [Stop] and [TickAnimations] on a
    fresh runner do not overlap, each returning before the next begins,
    the runner is settled after every call: when it is not started it
    holds no item, running or pending.  When a [Start] comes in while a
    tick that found nothing to keep stands between putting the lists
    back and clearing [runnerStarted], it is not: the runner ends not
    started with the new item pending, and a later tick does nothing. *)
Theorem Runner_settled_between_calls :
  (forall (ops : list op) (k : nat) (u : U),
     settled (fold_left step ops (idle, k, u)).1.1) /\
  (forall (r : Runner) (k : nat) (u : U) (p : AnimationRef),
     let c := Nat.iter (length (animations r) + 3) tick_step (AtEntry, r, k, u) in
     c.1.1.1 = AtClear true ->
     let r' := (interleave (interleave c (Starts p)) Steps).1.1.2 in
     (interleave (interleave c (Starts p)) Steps).1.1.1 = Returned /\
     runnerStarted r' = false /\ animations r' = [] /\
     pendingAnimations r' = [newAnim p] /\
     ~ settled r' /\
     forall k2 u2, TickAnimations r' k2 u2 = (r', k2, u2)).
Proof.
  split.
  - intros ops k u.
    assert (Hgen : forall s, settled s.1.1 -> settled (fold_left step ops s).1.1).
    { induction ops as [|o ops IH]; intros s Hs; [exact Hs|].
      cbn [fold_left]. apply IH, step_settled, Hs. }
    apply Hgen. cbn [fst]. intros _. split; reflexivity.
  - intros r k u p. cbv zeta. intros Hc.
    destruct (runnerStarted r) eqn:Hs.
    + destruct (tick_to_clear r k u Hs) as [kept [k' [u' [_ E]]]].
      rewrite E in Hc |- *. cbn [fst snd] in Hc.
      destruct (kept ++ pendingAnimations r) eqn:El; [|discriminate Hc].
      cbn [interleave tick_step Start runnerStarted negb animations pendingAnimations
           fst snd app].
      split; [reflexivity|]. split; [reflexivity|]. split; [reflexivity|].
      split; [reflexivity|]. split.
      * intros Hset. destruct (Hset eq_refl) as [_ Hp]. discriminate Hp.
      * intros k2 u2. unfold TickAnimations. cbn [animations length Nat.add Nat.iter nat_rect tick_step runnerStarted negb].
        reflexivity.
    + replace (length (animations r) + 3)%nat with ((length (animations r) + 2) + 1)%nat
        in Hc by lia.
      rewrite Nat.iter_add in Hc.
      change (Nat.iter 1 tick_step ?c) with (tick_step c) in Hc.
      cbn [tick_step] in Hc.
      rewrite Hs in Hc. cbn [negb] in Hc. rewrite tick_idle in Hc. discriminate Hc.
Qed.
End Ticking.

(** On the empty caches. *)
Lemma RenderedTextSize_baseline_is_width_witness :
  coherent (H := Bench.shaper) Bench.parse_all (Bench.theme None) BenchRuns.caches0 /\
  let r := (@RenderedTextSize nat nat Bench.shaper Bench.parse_all (Bench.theme None)
              "ab" (Bench.f32 12) BenchRuns.plain BenchRuns.caches0).1 in
  r.2 = Width r.1.
Proof.
  pose proof (@coherent_empty nat nat Bench.shaper Bench.parse_all (Bench.theme None)) as Hc.
  split; [exact Hc|].
  exact (proj1 (@RenderedTextSize_baseline_is_width nat nat Bench.shaper Bench.parse_all
                  (Bench.theme None) "ab" (Bench.f32 12) BenchRuns.plain _ Hc)).
Defined.

(** ** The animation runner on the test bench *)

(** The second reading of the clock is past the end of the first window
    of the reversing animation: it goes on, from the third reading. *)
Lemma tickAnimation_restart_witness :
  let x := @animation.newAnim animation.Sample.items 2%positive in
  animation.end_ x < @animation.Now _ animation.Sample.world 1 /\
  (@animation.tickAnimation _ animation.Sample.world x 1 []).1.1.1 = true /\
  animation.start (@animation.tickAnimation _ animation.Sample.world x 1 []).1.1.2
    = 2500000000.
Proof.
  cbv zeta.
  assert (H1 : animation.end_ (@animation.newAnim animation.Sample.items 2%positive)
               < @animation.Now _ animation.Sample.world 1) by reflexivity.
  assert (H2 : (@animation.tickAnimation _ animation.Sample.world
                  (@animation.newAnim animation.Sample.items 2%positive) 1 []).1.1.1 = true)
    by reflexivity.
  split; [exact H1|]. split; [exact H2|].
  exact (proj1 (@tickAnimation_restart _ animation.Sample.world _ 1 [] H1 H2)).
Defined.

(** The reversing animation with no repeat left has two window ends to
    go; after the first it has one. *)
Lemma tickAnimation_ends_left_witness :
  let x := @animation.newAnim animation.Sample.items 2%positive in
  0 <= animation.repeatsLeft x /\
  animation.end_ x < @animation.Now _ animation.Sample.world 1 /\
  animation.ends_left true x = 2 /\
  animation.ends_left true
    (@animation.tickAnimation _ animation.Sample.world x 1 []).1.1.2 = 2 - 1.
Proof.
  cbv zeta.
  assert (H0 : 0 <= animation.repeatsLeft (@animation.newAnim animation.Sample.items 2%positive))
    by (vm_compute; discriminate).
  assert (H1 : animation.end_ (@animation.newAnim animation.Sample.items 2%positive)
               < @animation.Now _ animation.Sample.world 1) by reflexivity.
  split; [exact H0|]. split; [exact H1|]. split; [reflexivity|].
  exact (proj2 (proj2 (@tickAnimation_ends_left _ animation.Sample.world true _ 1 []
                         H0 H1 (fun _ => eq_refl))) eq_refl).
Defined.

(** An animation started twice, the second time while the runner was
    started, is running and pending: one [Stop] leaves it pending. *)
Lemma Stop_filters_witness :
  let r := @animation.Start animation.Sample.items
             (@animation.Start animation.Sample.items animation.idle 7%positive) 7%positive in
  animation.animations (@animation.Stop animation.Sample.items r 7%positive).1 = [] /\
  animation.pendingAnimations (@animation.Stop animation.Sample.items r 7%positive).1
    = [@animation.newAnim animation.Sample.items 7%positive].
Proof.
  cbv zeta. split.
  - exact (proj1 (@Stop_filters animation.Sample.items _ 7%positive)).
  - exact (proj1 (proj2 (@Stop_filters animation.Sample.items _ 7%positive))).
Defined.

(** A started runner with one running item whose first window is over
    and which does not reverse: the tick calls [Tick] with 1 and the
    runner, left without items, is not started any more. *)
Lemma TickAnimations_round_witness :
  let r := @animation.Start animation.Sample.items animation.idle 1%positive in
  animation.runnerStarted r = true /\
  @animation.TickAnimations _ animation.Sample.world animation.Sample.items r 1 []
    = (animation.idle, 2%nat, [(1%positive, animation.one)]) /\
  exists kept k' u',
    @animation.round _ animation.Sample.world animation.Sample.items
      (animation.animations r) 1 [] kept k' u'.
Proof.
  cbv zeta.
  assert (Hs : animation.runnerStarted
                 (@animation.Start animation.Sample.items animation.idle 1%positive) = true)
    by reflexivity.
  split; [exact Hs|]. split; [reflexivity|].
  destruct (proj2 (proj2 (@TickAnimations_round _ animation.Sample.world animation.Sample.items
                            (@animation.Start animation.Sample.items animation.idle 1%positive)
                            1%nat [])) Hs) as [kept [k' [u' [R _]]]].
  exists kept, k', u'. exact R.
Defined.

(** The same runner and tick, with a [Start] of animation 2 coming in
    before the tick clears [runnerStarted]: the runner ends not started
    with the item of animation 2 pending. *)
Lemma Runner_settled_between_calls_witness :
  let r := @animation.Start animation.Sample.items animation.idle 1%positive in
  let c := Nat.iter (length (animation.animations r) + 3)
             (@animation.tick_step _ animation.Sample.world animation.Sample.items)
             (animation.AtEntry, r, 1%nat, []) in
  c.1.1.1 = animation.AtClear true /\
  let r' := (@animation.interleave _ animation.Sample.world animation.Sample.items
               (@animation.interleave _ animation.Sample.world animation.Sample.items c
                  (animation.Starts 2%positive)) animation.Steps).1.1.2 in
  animation.runnerStarted r' = false /\
  animation.pendingAnimations r' = [@animation.newAnim animation.Sample.items 2%positive].
Proof.
  cbv zeta.
  match goal with
  | |- ?A /\ _ => assert (Hc : A) by reflexivity
  end.
  split; [exact Hc|].
  pose proof (proj2 (@Runner_settled_between_calls _ animation.Sample.world
                       animation.Sample.items)
                (@animation.Start animation.Sample.items animation.idle 1%positive)
                1%nat [] 2%positive Hc) as Hrace.
  cbv zeta in Hrace.
  split; [exact (proj1 (proj2 Hrace))|exact (proj1 (proj2 (proj2 (proj2 Hrace))))].
Defined.

(** * Two defects of the layout *)

(** C3. The third of three tabs does not move the cursor at scale 1.14.
    The scale is the [float32] nearest to 1.14, the space is 10 pixels
    wide at scale 1 and the tab width is the default one, so a stop is
    45.6 pixels wide.  The first two tabs take the cursor from 0 to the
    first stop and on to the second, 91.2.  At the second stop the sum
    [x + stop_width] rounds down, its quotient by [stop_width] is the
    [float32] just below 3, the whole part is 2, and [tabStop] returns
    the cursor it was given: not a position strictly greater than the
    cursor, whereas the formula over the reals gives the third stop.
    [processString] ends at the same advance on three tabs as on two. *)
Theorem tabStop_third_tab_stalls :
  let scale := S754_finite false 9563013 (-23) in
  let spacew := F32.mul scale fontTabSpaceSize in
  let stop_width := F32.mul spacew (float32_of_int DefaultTabWidth) in
  let first := tabStop spacew F32.zero 0 in
  let x := tabStop spacew first 0 in
  (F32.valid scale = true /\
   (Qabs (SF2Q scale - (114 # 100)) <= 1 # 2 ^ 24)%Q) /\
  ((0 < SF2Q spacew)%Q /\ (0 < SF2Q stop_width)%Q /\
   (SF2Q first == SF2Q stop_width)%Q /\ (SF2Q x == 2 * SF2Q stop_width)%Q) /\
  (F32.div (F32.add x stop_width) stop_width = S754_finite false 12582911 (-22) /\
   tabStop spacew x 0 = x) /\
  ((stop_formula (SF2Q stop_width) (SF2Q x) == 3 * SF2Q stop_width)%Q /\
   ~ next_stop (SF2Q stop_width) (SF2Q x) (SF2Q (tabStop spacew x 0))) /\
  (@processString nat Bench.shaper unit (repeat_char TAB 3) Bench.faces (Bench.f32 12)
     scale 0 no_paint tt).1.2 = x /\
  (@processString nat Bench.shaper unit (repeat_char TAB 2) Bench.faces (Bench.f32 12)
     scale 0 no_paint tt).1.2 = x.
Proof.
  cbv zeta. split; [split; [reflexivity|vm_compute; discriminate]|].
  split; [repeat split|]. split; [split; vm_compute; reflexivity|].
  split; [split; [vm_compute; reflexivity|]|split; vm_compute; reflexivity].
  intros [_ [Hlt _]]. vm_compute in Hlt. discriminate Hlt.
Qed.

(** C2. The replacement of a missing glyph is not shaped at the size of
    the run it replaces.  [processFontRun] shapes the replacement with
    the face of the run and at the size it is handed, whatever the size
    of the run is; [processSubString] shapes the runs at
    [fixed.I(int(fontSize * scale))] and hands [processFontRun] the size
    [float32ToFixed266(fontSize)].  A snowman, for which the test bench
    has no glyph: at font size 12 and scale 2 the run is shaped at 24
    pixels (1536) and the replacement at 12 pixels (768); at font size
    12.5 and scale 1 the run is shaped at 12 pixels (768) and the
    replacement at 12.5 pixels (800). *)
Theorem processFontRun_substitute_size :
  let in_ (fontSize scale : spec_float) : Input.t nat :=
    {| Input.Text := runes BenchRuns.snowman; Input.RunStart := 0;
       Input.RunEnd := Z.of_nat (length (runes BenchRuns.snowman));
       Input.Direction := DirectionLTR; Input.Face := None;
       Input.Size := fixed_I (int_of_float 64 (F32.mul fontSize scale)) |} in
  let shaped (fontSize scale : spec_float) : list (Output.t nat) :=
    map (@Shape nat Bench.shaper) (@Split nat Bench.shaper (in_ fontSize scale) Bench.faces) in
  let drawn (fontSize scale : spec_float) : list (Output.t nat) :=
    map (fun c : call nat => c.1.1)
        (@processString nat Bench.shaper _ BenchRuns.snowman Bench.faces fontSize scale 0
           record []).2 in
  let twelve_and_a_half := S754_finite false 13107200 (-20) in
  (forall (F S : Type) (H : Shaper F) (run : Output.t F) (textSize : Z)
          (y advance : spec_float) (cb : sink F S) (st : S),
     missing_glyph run = true ->
     let substitute := Shape (replacement_input run textSize) in
     (processFontRun run textSize y advance cb st).2
       = cb substitute advance
            (fixed266ToFloat32 (Ascent (Output.LineBounds substitute))) st /\
     Input.Face (replacement_input run textSize) = Output.Face run /\
     Input.Size (replacement_input run textSize) = textSize) /\
  (map missing_glyph (shaped (Bench.f32 12) (Bench.f32 2)) = [true] /\
   map Output.Size (shaped (Bench.f32 12) (Bench.f32 2)) = [1536] /\
   map Output.Size (drawn (Bench.f32 12) (Bench.f32 2)) = [768]) /\
  (F32.valid twelve_and_a_half = true /\ (SF2Q twelve_and_a_half == 25 # 2)%Q /\
   map missing_glyph (shaped twelve_and_a_half (Bench.f32 1)) = [true] /\
   map Output.Size (shaped twelve_and_a_half (Bench.f32 1)) = [768] /\
   map Output.Size (drawn twelve_and_a_half (Bench.f32 1)) = [800]).
Proof.
  cbv zeta. split; [|split; repeat split].
  intros F S H run textSize y advance cb st Hm.
  unfold processFontRun, replacement_input. rewrite Hm. cbn. repeat split.
Qed.
